(** * 3s-alg-lookup: the data acquisition and lookup engine of [app.js]

    A shallow embedding of [src/app.js]: the tabular parser [parseTSV], the
    cache store ([saveCache], [loadCache]), the acquisition controller
    ([fetchData], [init]), the lookup engine ([lookup]) and the listeners
    of the page (the key field, the buttons, the keyboard).

    JavaScript strings are sequences of UTF-16 code units, JavaScript values
    are the inductive type [jsval], objects used as dictionaries are finite
    maps.  The built-ins whose result depends on tables or on the outside
    world ([String.prototype.toUpperCase], [JSON.stringify], [JSON.parse],
    [Date], the printing of numbers, the properties of the built-in
    prototypes) are operations of the class [Host]; statements are proved for
    every host, and evaluated on the host [modelHost]. *)

From Stdlib Require Import ZArith NArith String Ascii DecimalString.
From Stdlib Require DecimalFacts DecimalPos.
From stdpp Require Import gmap list.

Local Open Scope N_scope.

(** ** Strings *)

(** A string is the list of its UTF-16 code units. *)
Abbreviation jstring := (list N).

(** The string whose code units are the bytes of an ASCII literal. *)
Definition js (s : string) : jstring :=
  map N_of_ascii (list_ascii_of_string s).

Arguments js _ : simpl never.

Definition TAB : N := 9.
Definition LF : N := 10.
Definition CR : N := 13.

(** [s === ""], the only falsy string. *)
Definition isEmpty (s : jstring) : bool :=
  match s with [] => true | _ :: _ => false end.

(** The code units [String.prototype.trim] removes: WhiteSpace and
    LineTerminator of ECMAScript (TAB, LF, VT, FF, CR, SP, NBSP, the
    category Zs, LS, PS and the byte order mark). *)
Definition isWhiteSpace (c : N) : bool :=
  (c =? 9) || (c =? 10) || (c =? 11) || (c =? 12) || (c =? 13) || (c =? 32)
  || (c =? 160) || (c =? 5760) || ((8192 <=? c) && (c <=? 8202))
  || (c =? 8232) || (c =? 8233) || (c =? 8239) || (c =? 8287)
  || (c =? 12288) || (c =? 65279).

Fixpoint trimStart (s : jstring) : jstring :=
  match s with
  | [] => []
  | c :: s' => if isWhiteSpace c then trimStart s' else s
  end.

Definition trimEnd (s : jstring) : jstring :=
  reverse (trimStart (reverse s)).

(** [s.trim()] *)
Definition trim (s : jstring) : jstring := trimEnd (trimStart s).

(** [s.split(sep)] for a separator of one code unit: never an empty array,
    [[""]] on the empty string. *)
Fixpoint split (sep : N) (s : jstring) : list jstring :=
  match s with
  | [] => [[]]
  | c :: s' =>
      if c =? sep then [] :: split sep s'
      else match split sep s' with
           | f :: fs => (c :: f) :: fs
           | [] => [[c]]
           end
  end.

(** [line.replace(/\r/g, "")]: the global flag removes every match. *)
Definition replaceCR (line : jstring) : jstring :=
  filter (λ c, c ≠ CR) line.

(** ** Completions *)

(** What a JavaScript evaluation ends with: a value, or a thrown error. *)
Inductive Exn := TypeError | SyntaxError | NetworkError | Rejected.

Inductive Completion (A : Type) : Type :=
| Normal (a : A)
| Throw (e : Exn).
Arguments Normal {A} a.
Arguments Throw {A} e.

#[global] Instance Completion_ret : MRet Completion := @Normal.
#[global] Instance Completion_bind : MBind Completion :=
  λ A B f m, match m with Normal a => f a | Throw e => Throw e end.

(** [a[i]] followed by a method call on the element: reading past the end
    gives [undefined], and the call on it throws a TypeError. *)
Definition element {A} (a : list A) (i : nat) : Completion A :=
  match a !! i with Some x => Normal x | None => Throw TypeError end.

(** ** Values *)

(** The values the program handles: what [JSON.parse] can return, and
    [undefined].  Numbers are the integers (the one number the program
    makes is [Date.now()]). *)
#[warnings="-register-all"] Inductive jsval :=
| VUndef
| VNull
| VBool (b : bool)
| VNum (n : Z)
| VStr (s : jstring)
| VArr (a : list jsval)
| VObj (o : gmap jstring jsval).

(** [if (v)]: the falsy values are [undefined], [null], [false], [0] and
    the empty string. *)
Definition toBoolean (v : jsval) : bool :=
  match v with
  | VUndef | VNull => false
  | VBool b => b
  | VNum n => negb (n =? 0)%Z
  | VStr s => negb (isEmpty s)
  | VArr _ | VObj _ => true
  end.

(** The decimal numeral of an integer. *)
Definition showZ (n : Z) : jstring :=
  js (NilZero.string_of_int (Z.to_int n)).

Fixpoint joinWith (sep : N) (l : list jstring) : jstring :=
  match l with
  | [] => []
  | [x] => x
  | x :: l' => x ++ sep :: joinWith sep l'
  end.

(** The value of a string of decimal digits, [None] on any other string. *)
Fixpoint digitsValue (acc : N) (s : jstring) : option N :=
  match s with
  | [] => Some acc
  | c :: s' =>
      if (48 <=? c) && (c <=? 57) then digitsValue (10 * acc + (c - 48)) s'
      else None
  end.

(** A property name that is an array index: the canonical numeral of a
    natural number ("0", "1", "10", not "01"). *)
Definition arrayIndex (name : jstring) : option nat :=
  match name with
  | [] => None
  | _ :: _ =>
      match digitsValue 0 name with
      | Some n => if decide (showZ (Z.of_N n) = name) then Some (N.to_nat n)
                  else None
      | None => None
      end
  end.

(** The own property [name] of [v], if it has one: the fields of an
    object, the elements and the [length] of an array, the code units and
    the [length] of a string. *)
Definition ownProp (v : jsval) (name : jstring) : option jsval :=
  match v with
  | VUndef | VNull | VBool _ | VNum _ => None
  | VStr s =>
      if decide (name = js "length") then Some (VNum (Z.of_nat (length s)))
      else match arrayIndex name with
           | Some i => match s !! i with
                       | Some c => Some (VStr [c])
                       | None => None
                       end
           | None => None
           end
  | VArr a =>
      if decide (name = js "length") then Some (VNum (Z.of_nat (length a)))
      else match arrayIndex name with
           | Some i => a !! i
           | None => None
           end
  | VObj o => o !! name
  end.

(** [v[name]] for a name that no prototype of these values carries, so that
    the own property is all there is to find: [corner], [edge] and
    [timeText], which are the names of no built-in property, the array
    index [0], and [length], which strings and arrays have as an own
    property and the prototypes of the other values have not.  The one read
    of the program under a name given from outside, [data[key]] in [lookup],
    goes through [readProp] below.  Reading a property of [undefined] or
    [null] throws a TypeError. *)
Definition getProp (v : jsval) (name : jstring) : Completion jsval :=
  match v with
  | VUndef | VNull => Throw TypeError
  | VBool _ | VNum _ => Normal VUndef
  | VStr s =>
      if decide (name = js "length") then Normal (VNum (Z.of_nat (length s)))
      else match arrayIndex name with
           | Some i => Normal (match s !! i with
                               | Some c => VStr [c]
                               | None => VUndef
                               end)
           | None => Normal VUndef
           end
  | VArr a =>
      if decide (name = js "length") then Normal (VNum (Z.of_nat (length a)))
      else match arrayIndex name with
           | Some i => Normal (default VUndef (a !! i))
           | None => Normal VUndef
           end
  | VObj o => Normal (default VUndef (o !! name))
  end.

(** [v === 0] *)
Definition strictEqZero (v : jsval) : bool :=
  match v with
  | VNum n => (n =? 0)%Z
  | _ => false
  end.

Definition isHighSurrogate (c : N) : bool := (55296 <=? c) && (c <=? 56319).
Definition isLowSurrogate (c : N) : bool := (56320 <=? c) && (c <=? 57343).

(** The iteration of a string: one string per code point, a surrogate pair
    staying together. *)
Fixpoint codePoints (s : jstring) : list jstring :=
  match s with
  | [] => []
  | c :: s' =>
      match s' with
      | d :: s'' =>
          if isHighSurrogate c && isLowSurrogate d
          then [c; d] :: codePoints s''
          else [c] :: codePoints s'
      | [] => [[c]]
      end
  end.

(** [const [value1, value2] = e]: the first two values [e] iterates over,
    [undefined] where it has fewer; a TypeError when [e] is not iterable. *)
Definition destructure2 (e : jsval) : Completion (jsval * jsval) :=
  match e with
  | VArr a => Normal (default VUndef (a !! 0%nat), default VUndef (a !! 1%nat))
  | VStr s =>
      let cps := codePoints s in
      Normal (default VUndef (VStr <$> cps !! 0%nat),
              default VUndef (VStr <$> cps !! 1%nat))
  | _ => Throw TypeError
  end.

(** The values without [undefined] inside: what [JSON.stringify] writes in
    full. *)
#[warnings="-register-all"] Inductive jsonData : jsval → Prop :=
| jsonData_null : jsonData VNull
| jsonData_bool b : jsonData (VBool b)
| jsonData_num n : jsonData (VNum n)
| jsonData_str s : jsonData (VStr s)
| jsonData_arr a : Forall jsonData a → jsonData (VArr a)
| jsonData_obj o : map_Forall (λ _, jsonData) o → jsonData (VObj o).

(** An Entry is the pair [[value1, value2]]: the note and the value. *)
Abbreviation Entry := (jstring * jstring)%type.

(** An Index: the object [out] of [parseTSV], a dictionary from keys to the
    array of the entries pushed under the key. *)
Abbreviation Index := (gmap jstring (list Entry)).

(** An Index as a JavaScript value: an object of arrays of two-element
    arrays of strings. *)
Definition entryVal (e : Entry) : jsval := VArr [VStr e.1; VStr e.2].
Definition entriesVal (es : list Entry) : jsval := VArr (entryVal <$> es).
Definition indexVal (idx : Index) : jsval := VObj (entriesVal <$> idx).

Local Close Scope N_scope.

(** ** The host *)

(** The built-ins the program calls whose results come from tables of the
    engine or from the outside world. *)
Class Host := {
  (** [String.prototype.toUpperCase]: the Unicode upper-casing *)
  toUpperCase : jstring → jstring;
  (** [JSON.stringify], on the payload object of [saveCache] *)
  JSON_stringify : jsval → jstring;
  (** [JSON.parse]; [None] when it throws a SyntaxError *)
  JSON_parse : jstring → option jsval;
  (** the wall clock in epoch milliseconds, at its n-th reading *)
  wallClock : nat → Z;
  (** [Date.prototype.toLocaleString] of the date at an epoch time *)
  toLocaleString : Z → jstring;
  (** [Number::toString] of an integer: its decimal numeral below
      [10^21], the scientific notation from there on *)
  Number_toString : Z → jstring;
  (** the prototype chain of a value, under a name that is not an own
      property of the value: [None] when the chain has no property of this
      name; otherwise what it has is a method or a prototype object (an
      object, so truthy, and without a property [0]), and the result is its
      [length]: the number of parameters of a method, [0] for
      [Array.prototype] and [String.prototype], [undefined] for a prototype
      object without [length] *)
  inheritedLength : jsval → jstring → option jsval;
}.

(** ** Conversions and property reads *)

(** What [v[name]] finds: an own property with its value, a property of the
    prototype chain with its [length], or nothing ([undefined]). *)
Inductive Property :=
| Own (x : jsval)
| Inherited (len : jsval)
| Missing.

Section Conversions.
Context `{Host}.

(** The string a value converts to, [None] when the conversion throws a
    TypeError.  An object converts through its [toString]: an object that
    [JSON.parse] or [parseTSV] made has the one of [Object.prototype], unless
    it has an own property of this name, whose value is no function, and
    then neither [toString] nor [valueOf] gives a primitive value.  An array
    converts through [join]: its elements converted and separated by commas,
    [undefined] and [null] giving the empty string. *)
Fixpoint stringOf (v : jsval) : option jstring :=
  match v with
  | VUndef => Some (js "undefined")
  | VNull => Some (js "null")
  | VBool true => Some (js "true")
  | VBool false => Some (js "false")
  | VNum n => Some (Number_toString n)
  | VStr s => Some s
  | VArr a =>
      match
        foldr (λ x acc,
                 match (match x with
                        | VUndef | VNull => Some []
                        | _ => stringOf x
                        end), acc with
                 | Some s, Some parts => Some (s :: parts)
                 | _, _ => None
                 end) (Some []) a
      with
      | Some parts => Some (joinWith 44 parts)
      | None => None
      end
  | VObj o =>
      match o !! js "toString" with
      | Some _ => None
      | None => Some (js "[object Object]")
      end
  end.

(** The conversion to a string, as in a template literal [`${v}`]. *)
Definition ToString (v : jsval) : Completion jstring :=
  match stringOf v with
  | Some s => Normal s
  | None => Throw TypeError
  end.

(** [el.textContent = v]: [undefined] and [null] give the empty text, any
    other value is converted to a string. *)
Definition textOf (v : jsval) : Completion jstring :=
  match v with
  | VUndef | VNull => Normal []
  | _ => ToString v
  end.

(** [v[name]] in full: the own property, or else what the prototype chain
    has. *)
Definition readProp (v : jsval) (name : jstring) : Completion Property :=
  match v with
  | VUndef | VNull => Throw TypeError
  | _ =>
      Normal (match ownProp v name with
              | Some x => Own x
              | None =>
                  match inheritedLength v name with
                  | Some len => Inherited len
                  | None => Missing
                  end
              end)
  end.

End Conversions.

Section Parser.
Context `{Host}.

(** The body of the [for (let line of lines)] loop of [parseTSV]; every
    [continue] leaves [out] as it is.  [out] starts as [{}] and gets keys of
    two code units only, which name no property of [Object.prototype]: a key
    is in [out] when [out[key]] is truthy. *)
Definition loopBody (out : Index) (line : jstring) : Completion Index :=
  let line := replaceCR line in
  if isEmpty (trim line) then Normal out else
  let cols := split TAB line in
  if length cols <? 2 then Normal out else
  '(value1, key, value2) ←
    (if 3 <=? length cols then
       c0 ← element cols 0; c1 ← element cols 1; c2 ← element cols 2;
       Normal (trim c0, toUpperCase (trim c1), trim c2)
     else if length cols =? 2 then
       c0 ← element cols 0; c1 ← element cols 1;
       Normal ([], toUpperCase (trim c0), trim c1)
     else Normal ([], [], []));
  if isEmpty key || negb (length key =? 2) then Normal out else
  if isEmpty value2 then Normal out else
  let out := match out !! key with
             | Some _ => out
             | None => <[key := []]> out
             end in
  arr ← (match out !! key with
         | Some arr => Normal arr
         | None => Throw TypeError
         end : Completion (list Entry));
  Normal (<[key := arr ++ [(value1, value2)]]> out).

Fixpoint forOf (lines : list jstring) (out : Index) : Completion Index :=
  match lines with
  | [] => Normal out
  | line :: lines => out ← loopBody out line; forOf lines out
  end.

Definition parseTSV (text : jstring) : Completion Index :=
  forOf (split LF text) ∅.

End Parser.

(** ** Configuration and state *)

Inductive Category := corner | edge.

(** [URLS] *)
Definition URLS (c : Category) : jstring :=
  match c with
  | corner =>
      js "https://commexportproxy.vercel.app/api/algs?sheet=corners_with_notes"
  | edge =>
      js "https://commexportproxy.vercel.app/api/algs?sheet=edges_with_notes"
  end.

Definition CACHE_KEY : jstring := js "tsv_lookup_cache_v1".

(** 24h; no function below reads it. *)
Definition CACHE_TIME : Z := 1000 * 60 * 60 * 24.

(** A result card: the text of the key element, of the note element when
    [value1] is truthy, and of the value element. *)
Record Card := {
  cardKey : jstring;
  cardNote : option jstring;
  cardValue2 : jstring;
}.

(** The module variables, the page elements the engine writes (the text
    of the status line, the cards under the result element, the disabled
    flag of the refresh button), and the outside world: the local storage,
    the requests sent so far and the number of clock readings so far.  The
    key field, its focus and the dark mode are not part of the state. *)
Record App := {
  dataCorner : jsval;
  dataEdge : jsval;
  active : Category;
  statusText : jstring;
  resultCards : list Card;
  refreshDisabled : bool;
  localStorage : gmap jstring jstring;
  requests : list jstring;
  clockReads : nat;
}.

Definition set_dataCorner (v : jsval) (st : App) : App :=
  {| dataCorner := v; dataEdge := dataEdge st; active := active st;
     statusText := statusText st; resultCards := resultCards st;
     refreshDisabled := refreshDisabled st; localStorage := localStorage st;
     requests := requests st; clockReads := clockReads st |}.

Definition set_dataEdge (v : jsval) (st : App) : App :=
  {| dataCorner := dataCorner st; dataEdge := v; active := active st;
     statusText := statusText st; resultCards := resultCards st;
     refreshDisabled := refreshDisabled st; localStorage := localStorage st;
     requests := requests st; clockReads := clockReads st |}.

Definition set_active (c : Category) (st : App) : App :=
  {| dataCorner := dataCorner st; dataEdge := dataEdge st; active := c;
     statusText := statusText st; resultCards := resultCards st;
     refreshDisabled := refreshDisabled st; localStorage := localStorage st;
     requests := requests st; clockReads := clockReads st |}.

Definition set_statusText (s : jstring) (st : App) : App :=
  {| dataCorner := dataCorner st; dataEdge := dataEdge st; active := active st;
     statusText := s; resultCards := resultCards st;
     refreshDisabled := refreshDisabled st; localStorage := localStorage st;
     requests := requests st; clockReads := clockReads st |}.

Definition set_resultCards (l : list Card) (st : App) : App :=
  {| dataCorner := dataCorner st; dataEdge := dataEdge st; active := active st;
     statusText := statusText st; resultCards := l;
     refreshDisabled := refreshDisabled st; localStorage := localStorage st;
     requests := requests st; clockReads := clockReads st |}.

Definition set_refreshDisabled (b : bool) (st : App) : App :=
  {| dataCorner := dataCorner st; dataEdge := dataEdge st; active := active st;
     statusText := statusText st; resultCards := resultCards st;
     refreshDisabled := b; localStorage := localStorage st;
     requests := requests st; clockReads := clockReads st |}.

Definition set_localStorage (m : gmap jstring jstring) (st : App) : App :=
  {| dataCorner := dataCorner st; dataEdge := dataEdge st; active := active st;
     statusText := statusText st; resultCards := resultCards st;
     refreshDisabled := refreshDisabled st; localStorage := m;
     requests := requests st; clockReads := clockReads st |}.

Definition set_requests (l : list jstring) (st : App) : App :=
  {| dataCorner := dataCorner st; dataEdge := dataEdge st; active := active st;
     statusText := statusText st; resultCards := resultCards st;
     refreshDisabled := refreshDisabled st; localStorage := localStorage st;
     requests := l; clockReads := clockReads st |}.

Definition set_clockReads (n : nat) (st : App) : App :=
  {| dataCorner := dataCorner st; dataEdge := dataEdge st; active := active st;
     statusText := statusText st; resultCards := resultCards st;
     refreshDisabled := refreshDisabled st; localStorage := localStorage st;
     requests := requests st; clockReads := n |}.

(** The state of the page when the script starts. *)
Definition initialApp (storage : gmap jstring jstring) : App :=
  {| dataCorner := VObj ∅; dataEdge := VObj ∅; active := corner;
     statusText := []; resultCards := []; refreshDisabled := false;
     localStorage := storage; requests := []; clockReads := 0 |}.

(** ** Effects *)

(** A statement runs on the state and ends normally or by throwing; what it
    wrote before throwing stays written.  An [async] function runs to its
    end as one statement: no other handler runs while it awaits. *)
Definition Eff (A : Type) : Type := App → Completion A * App.

#[global] Instance Eff_ret : MRet Eff := λ A a st, (Normal a, st).
#[global] Instance Eff_bind : MBind Eff :=
  λ A B f m st,
    match m st with
    | (Normal a, st') => f a st'
    | (Throw e, st') => (Throw e, st')
    end.

Definition throw {A} (e : Exn) : Eff A := λ st, (Throw e, st).
Definition lift {A} (c : Completion A) : Eff A := λ st, (c, st).
Definition gets {A} (f : App → A) : Eff A := λ st, (Normal (f st), st).
Definition modify (f : App → App) : Eff unit := λ st, (Normal tt, f st).

(** [try { body } catch (err) { handler }] *)
Definition tryCatch {A} (body : Eff A) (handler : Exn → Eff A) : Eff A :=
  λ st,
    match body st with
    | (Normal a, st') => (Normal a, st')
    | (Throw e, st') => handler e st'
    end.

(** [try { body } finally { cleanup }] *)
Definition finally {A} (body : Eff A) (cleanup : Eff unit) : Eff A :=
  λ st,
    match body st with
    | (r, st') =>
        match cleanup st' with
        | (Normal _, st'') => (r, st'')
        | (Throw e, st'') => (Throw e, st'')
        end
    end.

(** A response of the network: its [ok] flag, and its body, [None] when
    reading the body fails. *)
Record Response := {
  ok : bool;
  body : option jstring;
}.

(** What a call of [fetch] ends with: [None] is a rejected promise. *)
Abbreviation FetchOutcome := (option Response).

Section Engine.
Context `{Host}.

(** [Date.now()], and the time [new Date()] holds: a reading of the clock. *)
Definition readClock : Eff Z :=
  λ st, (Normal (wallClock (clockReads st)),
         set_clockReads (S (clockReads st)) st).

(** The object [{ time, timeText, corner, edge }] *)
Definition payload (time : Z) (timeText : jstring) (corner edge : jsval)
  : jsval :=
  VObj (<[js "time" := VNum time]>
       (<[js "timeText" := VStr timeText]>
       (<[js "corner" := corner]>
       (<[js "edge" := edge]> ∅)))).

(** [saveCache]; the storage has room for the payload. *)
Definition saveCache (corner edge : jsval) : Eff unit :=
  time ← readClock;
  date ← readClock;
  modify (λ st, set_localStorage
                  (<[CACHE_KEY := JSON_stringify
                                    (payload time (toLocaleString date)
                                             corner edge)]>
                     (localStorage st))
                  st).

Definition loadCache (st : App) : jsval :=
  match localStorage st !! CACHE_KEY with
  | None => VNull
  | Some raw =>
      if isEmpty raw then VNull
      else match JSON_parse raw with
           | Some v => v
           | None => VNull
           end
  end.

Definition getData (st : App) : jsval :=
  match active st with
  | corner => dataCorner st
  | edge => dataEdge st
  end.

(** [" • "] *)
Definition bullet : jstring := [32; 8226; 32]%N.

Definition updateStatus (msg cacheInfo : jstring) : Eff unit :=
  modify (set_statusText (if isEmpty cacheInfo then msg
                          else msg ++ bullet ++ cacheInfo)).

(** [`Last: ${cache.timeText}`] *)
Definition lastInfo (cache : jsval) : Completion jstring :=
  timeText ← getProp cache (js "timeText");
  text ← ToString timeText;
  Normal (js "Last: " ++ text).

(** [fetch(url)]: the request leaves. *)
Definition fetch (url : jstring) : Eff unit :=
  modify (λ st, set_requests (requests st ++ [url]) st).

(** [await Promise.all([a, b])]: rejected as soon as one of the two is. *)
Definition awaitAll (a b : FetchOutcome) : Eff (Response * Response) :=
  match a, b with
  | Some ra, Some rb => mret (ra, rb)
  | _, _ => throw Rejected
  end.

(** [await res.text()] *)
Definition text (res : Response) : Eff jstring :=
  match body res with
  | Some t => mret t
  | None => throw Rejected
  end.

(** [fetchData], when the two requests end as [cornerOut] and [edgeOut]. *)
Definition fetchData (cornerOut edgeOut : FetchOutcome) : Eff unit :=
  finally
    (tryCatch
       (updateStatus (js "Updating...") [];;
        modify (set_refreshDisabled true);;
        fetch (URLS corner);;
        fetch (URLS edge);;
        '(cornerRes, edgeRes) ← awaitAll cornerOut edgeOut;
        if negb (ok cornerRes) || negb (ok edgeRes) then throw NetworkError
        else
          cornerText ← text cornerRes;
          edgeText ← text edgeRes;
          parsedCorner ← lift (parseTSV cornerText);
          modify (set_dataCorner (indexVal parsedCorner));;
          parsedEdge ← lift (parseTSV edgeText);
          modify (set_dataEdge (indexVal parsedEdge));;
          c ← gets dataCorner;
          e ← gets dataEdge;
          saveCache c e;;
          cache ← gets loadCache;
          info ← lift (lastInfo cache);
          updateStatus (js "Updated") info)
       (λ err,
          cache ← gets loadCache;
          if toBoolean cache then
            c ← lift (getProp cache (js "corner"));
            modify (set_dataCorner c);;
            e ← lift (getProp cache (js "edge"));
            modify (set_dataEdge e);;
            info ← lift (lastInfo cache);
            updateStatus (js "Offline " ++ [8212%N] ++ js " using cache") info
          else
            updateStatus (js "No data available") []))
    (modify (set_refreshDisabled false)).

(** [lookup].  What [data[key]] finds along the prototype chain is an
    object without a property [0]: it is truthy, its [length] decides the
    second test, and [data[key][0]] is [undefined], which the destructuring
    refuses with a TypeError.  The card is appended to the result when its
    three elements have their texts. *)
Definition lookup (key : jstring) : Eff unit :=
  data ← gets getData;
  modify (set_resultCards []);;
  found ← lift (readProp data key);
  match found with
  | Missing => updateStatus (js "No results") []
  | Inherited len =>
      if strictEqZero len then updateStatus (js "No results") []
      else throw TypeError
  | Own entries =>
      none ← (if negb (toBoolean entries) then mret true
              else
                len ← lift (getProp entries (js "length"));
                mret (strictEqZero len));
      if none : bool then updateStatus (js "No results") []
      else
        first ← lift (getProp entries (js "0"));
        '(value1, value2) ← lift (destructure2 first);
        updateStatus (js "Found") [];;
        note ← (if toBoolean value1
                then text ← lift (ToString value1); mret (Some text)
                else mret None);
        value ← lift (textOf value2);
        modify (λ st, set_resultCards
                        (resultCards st ++
                         [{| cardKey := key;
                             cardNote := note;
                             cardValue2 := value |}]) st)
  end.

(** [clearAll] *)
Definition clearAll : Eff unit :=
  modify (set_resultCards []);;
  updateStatus (js "Cleared") [].

(** The "input" event of the key field showing [value]. *)
Definition onInput (value : jstring) : Eff unit :=
  let val := take 2 (toUpperCase value) in
  if length val =? 2 then lookup val else mret tt.

(** The click on the switch button. *)
Definition switchActive : Eff unit :=
  modify (λ st, set_active (match active st with
                            | corner => edge
                            | edge => corner
                            end) st);;
  a ← gets active;
  updateStatus (js "Switched to " ++ match a with
                                     | corner => js "corner"
                                     | edge => js "edge"
                                     end) [].

(** [init], when the two requests of a refresh would end as [cornerOut] and
    [edgeOut]. *)
Definition init (cornerOut edgeOut : FetchOutcome) : Eff unit :=
  cache ← gets loadCache;
  if toBoolean cache then
    c ← lift (getProp cache (js "corner"));
    modify (set_dataCorner c);;
    e ← lift (getProp cache (js "edge"));
    modify (set_dataEdge e);;
    info ← lift (lastInfo cache);
    updateStatus (js "Loaded from cache") info
  else
    updateStatus (js "No cache " ++ [8212%N] ++ js " fetching...") [];;
    fetchData cornerOut edgeOut.

End Engine.

(** ** A host to evaluate on *)

(** The model host upper-cases the ASCII letters, which is what
    [toUpperCase] does on a string of ASCII code units, and reads and writes
    the JSON texts whose numbers are integer numerals. *)
Module ModelHost.

Local Open Scope N_scope.

Definition upperUnit (c : N) : N :=
  if (97 <=? c) && (c <=? 122) then c - 32 else c.

Definition asciiUpper (s : jstring) : jstring := map upperUnit s.

Definition hexDigit (n : N) : N := if n <? 10 then 48 + n else 87 + n.

(** [\uXXXX] *)
Definition uEscape (c : N) : jstring :=
  [92; 117; hexDigit (c / 4096); hexDigit (c / 256 mod 16);
   hexDigit (c / 16 mod 16); hexDigit (c mod 16)].

Definition escapeUnit (c : N) : jstring :=
  if c =? 34 then [92; 34]
  else if c =? 92 then [92; 92]
  else if c =? 8 then [92; 98]
  else if c =? 9 then [92; 116]
  else if c =? 10 then [92; 110]
  else if c =? 12 then [92; 102]
  else if c =? 13 then [92; 114]
  else if c <? 32 then uEscape c
  else [c].

(** The characters of a quoted JSON string: a surrogate that is not part
    of a pair is written as an escape. *)
Fixpoint quoteUnits (s : jstring) : jstring :=
  match s with
  | [] => []
  | c :: s' =>
      if isHighSurrogate c then
        match s' with
        | d :: s'' =>
            if isLowSurrogate d then c :: d :: quoteUnits s''
            else uEscape c ++ quoteUnits s'
        | [] => uEscape c
        end
      else if isLowSurrogate c then uEscape c ++ quoteUnits s'
      else escapeUnit c ++ quoteUnits s'
  end.

Definition quote (s : jstring) : jstring := 34 :: quoteUnits s ++ [34].

Fixpoint stringify (v : jsval) : jstring :=
  match v with
  | VUndef => js "undefined"
  | VNull => js "null"
  | VBool true => js "true"
  | VBool false => js "false"
  | VNum n => showZ n
  | VStr s => quote s
  | VArr a =>
      91 :: joinWith 44 (map (λ x, match x with
                                   | VUndef => js "null"
                                   | _ => stringify x
                                   end) a) ++ [93]
  | VObj o =>
      123 :: joinWith 44
               (map_fold (λ k x acc,
                            match x with
                            | VUndef => acc
                            | _ => (quote k ++ 58 :: stringify x) :: acc
                            end) [] o) ++ [125]
  end.

Definition isJSONSpace (c : N) : bool :=
  (c =? 9) || (c =? 10) || (c =? 13) || (c =? 32).

Fixpoint skipWs (s : jstring) : jstring :=
  match s with
  | c :: s' => if isJSONSpace c then skipWs s' else s
  | [] => []
  end.

Definition hexValue (c : N) : option N :=
  if (48 <=? c) && (c <=? 57) then Some (c - 48)
  else if (97 <=? c) && (c <=? 102) then Some (c - 87)
  else if (65 <=? c) && (c <=? 70) then Some (c - 55)
  else None.

Definition simpleEscape (c : N) : option N :=
  if c =? 34 then Some 34
  else if c =? 92 then Some 92
  else if c =? 47 then Some 47
  else if c =? 98 then Some 8
  else if c =? 102 then Some 12
  else if c =? 110 then Some 10
  else if c =? 114 then Some 13
  else if c =? 116 then Some 9
  else None.

(** The characters of a string after its opening quote, and what follows
    the closing quote. *)
Fixpoint parseChars (s : jstring) : option (jstring * jstring) :=
  match s with
  | [] => None
  | c :: r =>
      if c =? 34 then Some ([], r)
      else if c =? 92 then
        match r with
        | e :: r1 =>
            if e =? 117 then
              match r1 with
              | h1 :: h2 :: h3 :: h4 :: r2 =>
                  a ← hexValue h1; b ← hexValue h2;
                  c ← hexValue h3; d ← hexValue h4;
                  '(t, rest) ← parseChars r2;
                  Some ((4096 * a + 256 * b + 16 * c + d) :: t, rest)
              | _ => None
              end
            else
              u ← simpleEscape e;
              '(t, rest) ← parseChars r1;
              Some (u :: t, rest)
        | [] => None
        end
      else if c <? 32 then None
      else '(t, rest) ← parseChars r; Some (c :: t, rest)
  end.

Definition isDigit (c : N) : bool := (48 <=? c) && (c <=? 57).

Fixpoint spanDigits (s : jstring) : jstring * jstring :=
  match s with
  | c :: s' =>
      if isDigit c then let '(d, r) := spanDigits s' in (c :: d, r)
      else ([], s)
  | [] => ([], [])
  end.

(** An integer numeral: no leading zero, no fraction, no exponent. *)
Definition parseNumber (s : jstring) : option (jsval * jstring) :=
  let '(neg, s1) := match s with
                    | c :: s' => if c =? 45 then (true, s') else (false, s)
                    | [] => (false, s)
                    end in
  let '(digits, rest) := spanDigits s1 in
  match digits with
  | [] => None
  | d :: ds =>
      if (d =? 48) && negb (isEmpty ds) then None
      else match rest with
           | c :: _ =>
               if (c =? 46) || (c =? 101) || (c =? 69) then None
               else n ← digitsValue 0 digits;
                    Some (VNum (if neg : bool then - Z.of_N n else Z.of_N n),
                          rest)
           | [] => n ← digitsValue 0 digits;
                   Some (VNum (if neg : bool then - Z.of_N n else Z.of_N n),
                         rest)
           end
  end.

(** What follows the prefix [p] of [s], if [s] starts with [p]. *)
Fixpoint stripPrefix (p s : jstring) : option jstring :=
  match p, s with
  | [], _ => Some s
  | a :: p', b :: s' => if a =? b then stripPrefix p' s' else None
  | _ :: _, [] => None
  end.

Definition parseLiteral (s : jstring) : option (jsval * jstring) :=
  match stripPrefix (js "null") s with
  | Some r => Some (VNull, r)
  | None =>
      match stripPrefix (js "true") s with
      | Some r => Some (VBool true, r)
      | None =>
          match stripPrefix (js "false") s with
          | Some r => Some (VBool false, r)
          | None => parseNumber s
          end
      end
  end.

Fixpoint parseValue (fuel : nat) (s : jstring) {struct fuel}
  : option (jsval * jstring) :=
  match fuel with
  | O => None
  | S fuel =>
      match skipWs s with
      | [] => None
      | c :: r =>
          if c =? 34 then
            '(str, r') ← parseChars r; Some (VStr str, r')
          else if c =? 91 then
            match skipWs r with
            | d :: r' =>
                if d =? 93 then Some (VArr [], r')
                else '(a, r'') ← parseElements fuel (d :: r');
                     Some (VArr a, r'')
            | [] => None
            end
          else if c =? 123 then
            match skipWs r with
            | d :: r' =>
                if d =? 125 then Some (VObj ∅, r')
                else '(o, r'') ← parseMembers fuel ∅ (d :: r');
                     Some (VObj o, r'')
            | [] => None
            end
          else parseLiteral (c :: r)
      end
  end
with parseElements (fuel : nat) (s : jstring) {struct fuel}
  : option (list jsval * jstring) :=
  match fuel with
  | O => None
  | S fuel =>
      '(v, r) ← parseValue fuel s;
      match skipWs r with
      | c :: r' =>
          if c =? 44 then
            '(vs, r'') ← parseElements fuel r'; Some (v :: vs, r'')
          else if c =? 93 then Some ([v], r')
          else None
      | [] => None
      end
  end
with parseMembers (fuel : nat) (acc : gmap jstring jsval) (s : jstring)
  {struct fuel} : option (gmap jstring jsval * jstring) :=
  match fuel with
  | O => None
  | S fuel =>
      match skipWs s with
      | q :: r =>
          if q =? 34 then
            '(k, r1) ← parseChars r;
            match skipWs r1 with
            | colon :: r2 =>
                if colon =? 58 then
                  '(v, r3) ← parseValue fuel r2;
                  match skipWs r3 with
                  | c :: r4 =>
                      if c =? 44 then parseMembers fuel (<[k := v]> acc) r4
                      else if c =? 125 then Some (<[k := v]> acc, r4)
                      else None
                  | [] => None
                  end
                else None
            | [] => None
            end
          else None
      | [] => None
      end
  end.

Definition parse (s : jstring) : option jsval :=
  match parseValue (2 * length s + 2) s with
  | Some (v, r) => if isEmpty (skipWs r) then Some v else None
  | None => None
  end.

(** *** The prototypes of the model host *)

(** The methods of the built-in prototypes with the number of their
    parameters, which is their [length], as ECMAScript 2024 lists them;
    the constructors, found under [constructor], all have [length] 1. *)

Local Open Scope string_scope.

(** [Object.prototype] *)
Definition objectMethods : list (string * Z) :=
  [("constructor", 1%Z); ("__defineGetter__", 2%Z);
   ("__defineSetter__", 2%Z); ("hasOwnProperty", 1%Z);
   ("__lookupGetter__", 1%Z); ("__lookupSetter__", 1%Z);
   ("isPrototypeOf", 1%Z); ("propertyIsEnumerable", 1%Z); ("toString", 0%Z);
   ("valueOf", 0%Z); ("toLocaleString", 0%Z)].

(** [Array.prototype] *)
Definition arrayMethods : list (string * Z) :=
  [("at", 1%Z); ("concat", 1%Z); ("copyWithin", 2%Z); ("entries", 0%Z);
   ("every", 1%Z); ("fill", 1%Z); ("filter", 1%Z); ("find", 1%Z);
   ("findIndex", 1%Z); ("findLast", 1%Z); ("findLastIndex", 1%Z);
   ("flat", 0%Z); ("flatMap", 1%Z); ("forEach", 1%Z); ("includes", 1%Z);
   ("indexOf", 1%Z); ("join", 1%Z); ("keys", 0%Z); ("lastIndexOf", 1%Z);
   ("map", 1%Z); ("pop", 0%Z); ("push", 1%Z); ("reduce", 1%Z);
   ("reduceRight", 1%Z); ("reverse", 0%Z); ("shift", 0%Z); ("slice", 2%Z);
   ("some", 1%Z); ("sort", 1%Z); ("splice", 2%Z); ("toLocaleString", 0%Z);
   ("toReversed", 0%Z); ("toSorted", 1%Z); ("toSpliced", 2%Z);
   ("toString", 0%Z); ("unshift", 1%Z); ("values", 0%Z); ("with", 2%Z)].

(** [String.prototype], with the methods of its Annex B *)
Definition stringMethods : list (string * Z) :=
  [("at", 1%Z); ("charAt", 1%Z); ("charCodeAt", 1%Z); ("codePointAt", 1%Z);
   ("concat", 1%Z); ("endsWith", 1%Z); ("includes", 1%Z); ("indexOf", 1%Z);
   ("isWellFormed", 0%Z); ("lastIndexOf", 1%Z); ("localeCompare", 1%Z);
   ("match", 1%Z); ("matchAll", 1%Z); ("normalize", 0%Z); ("padEnd", 1%Z);
   ("padStart", 1%Z); ("repeat", 1%Z); ("replace", 2%Z); ("replaceAll", 2%Z);
   ("search", 1%Z); ("slice", 2%Z); ("split", 2%Z); ("startsWith", 1%Z);
   ("substring", 2%Z); ("toLocaleLowerCase", 0%Z);
   ("toLocaleUpperCase", 0%Z); ("toLowerCase", 0%Z); ("toString", 0%Z);
   ("toUpperCase", 0%Z); ("toWellFormed", 0%Z); ("trim", 0%Z);
   ("trimEnd", 0%Z); ("trimStart", 0%Z); ("valueOf", 0%Z); ("substr", 2%Z);
   ("anchor", 1%Z); ("big", 0%Z); ("blink", 0%Z); ("bold", 0%Z);
   ("fixed", 0%Z); ("fontcolor", 1%Z); ("fontsize", 1%Z); ("italics", 0%Z);
   ("link", 1%Z); ("small", 0%Z); ("strike", 0%Z); ("sub", 0%Z);
   ("sup", 0%Z); ("trimLeft", 0%Z); ("trimRight", 0%Z)].

(** [Number.prototype] *)
Definition numberMethods : list (string * Z) :=
  [("toExponential", 1%Z); ("toFixed", 1%Z); ("toLocaleString", 0%Z);
   ("toPrecision", 1%Z); ("toString", 1%Z); ("valueOf", 0%Z)].

(** [Boolean.prototype] *)
Definition booleanMethods : list (string * Z) :=
  [("toString", 0%Z); ("valueOf", 0%Z)].

Local Close Scope string_scope.

Fixpoint methodLength (table : list (string * Z)) (name : jstring)
  : option jsval :=
  match table with
  | [] => None
  | (n, len) :: table' =>
      if decide (name = js n) then Some (VNum len)
      else methodLength table' name
  end.

(** The chain of a value: its own prototype, then [Object.prototype]. *)
Definition alongChain (table : list (string * Z)) (name : jstring)
  : option jsval :=
  match methodLength table name with
  | Some len => Some len
  | None => methodLength objectMethods name
  end.

(** [__proto__] gives the prototype of the value: [Array.prototype] is an
    array and [String.prototype] a string object, both of [length] 0; the
    other prototypes have no [length]. *)
Definition chainOf (v : jsval) (name : jstring) : option jsval :=
  match v with
  | VUndef | VNull => None
  | VBool _ =>
      if decide (name = js "__proto__") then Some VUndef
      else alongChain booleanMethods name
  | VNum _ =>
      if decide (name = js "__proto__") then Some VUndef
      else alongChain numberMethods name
  | VStr _ =>
      if decide (name = js "__proto__") then Some (VNum 0)
      else alongChain stringMethods name
  | VArr _ =>
      if decide (name = js "__proto__") then Some (VNum 0)
      else alongChain arrayMethods name
  | VObj _ =>
      if decide (name = js "__proto__") then Some VUndef
      else methodLength objectMethods name
  end.

(** The numbers of the model host are printed in full, as engines print
    the integers below [10^21]. *)
Definition modelHost : Host := {|
  toUpperCase := asciiUpper;
  JSON_stringify := stringify;
  JSON_parse := parse;
  wallClock := λ n, (1700000000000 + Z.of_nat n)%Z;
  toLocaleString := showZ;
  Number_toString := showZ;
  inheritedLength := chainOf;
|}.

(** *** Measures and predicates of the proofs about the model host *)

(** [c] put in front of the characters read. *)
Definition consTo (c : N) (r : option (jstring * jstring))
  : option (jstring * jstring) :=
  match r with Some (t, rest) => Some (c :: t, rest) | None => None end.

(** The code units of the digits of a decimal number. *)
Fixpoint unitsOf (d : Decimal.uint) : jstring :=
  match d with
  | Decimal.Nil => []
  | Decimal.D0 d => 48 :: unitsOf d
  | Decimal.D1 d => 49 :: unitsOf d
  | Decimal.D2 d => 50 :: unitsOf d
  | Decimal.D3 d => 51 :: unitsOf d
  | Decimal.D4 d => 52 :: unitsOf d
  | Decimal.D5 d => 53 :: unitsOf d
  | Decimal.D6 d => 54 :: unitsOf d
  | Decimal.D7 d => 55 :: unitsOf d
  | Decimal.D8 d => 56 :: unitsOf d
  | Decimal.D9 d => 57 :: unitsOf d
  end.

(** The value of the digits read after [acc]. *)
Fixpoint horner (acc : N) (d : Decimal.uint) : N :=
  match d with
  | Decimal.Nil => acc
  | Decimal.D0 d => horner (10 * acc) d
  | Decimal.D1 d => horner (10 * acc + 1) d
  | Decimal.D2 d => horner (10 * acc + 2) d
  | Decimal.D3 d => horner (10 * acc + 3) d
  | Decimal.D4 d => horner (10 * acc + 4) d
  | Decimal.D5 d => horner (10 * acc + 5) d
  | Decimal.D6 d => horner (10 * acc + 6) d
  | Decimal.D7 d => horner (10 * acc + 7) d
  | Decimal.D8 d => horner (10 * acc + 8) d
  | Decimal.D9 d => horner (10 * acc + 9) d
  end.

(** What follows a numeral in a JSON text is no digit, point or exponent
    mark. *)
Definition terminated (rest : jstring) : Prop :=
  match rest with
  | [] => True
  | c :: _ => isDigit c = false ∧ c ≠ 46 ∧ c ≠ 101 ∧ c ≠ 69
  end.

(** The fuel [parseValue] needs to read a value back. *)
Fixpoint fuelOf (v : jsval) : nat :=
  match v with
  | VArr a => S (foldr (λ x n, S (fuelOf x + n)) 0%nat a)
  | VObj o => S (map_fold (λ _ x n, S (fuelOf x + n)) 0%nat o)
  | _ => 1
  end.

Definition fuelOfList (l : list jsval) : nat :=
  foldr (λ x n, S (fuelOf x + n)) 0%nat l.

(** The text of a member of an object. *)
Definition member (kx : jstring * jsval) : jstring :=
  quote kx.1 ++ 58 :: stringify kx.2.

(** [v] is read back from its text, whatever follows the text. *)
Definition readsBack (v : jsval) : Prop :=
  ∀ fuel rest, (fuelOf v ≤ fuel)%nat → terminated rest →
    parseValue fuel (stringify v ++ rest) = Some (v, rest).

End ModelHost.

(** ** The parser as the specification words it *)

(** The algorithm of the specification's Tabular Parser, with the stripping
    of carriage returns left as a parameter [strip]. *)
Module AsSpecified.
Section Algorithm.
Context `{Host}.
Variable strip : jstring → jstring.

(** "lines may end with a carriage return, which must be stripped before
    field splitting (carriage returns elsewhere are not stripped)" *)
Definition stripTrailingCR (line : jstring) : jstring :=
  match reverse line with
  | c :: r => if (c =? CR)%N then reverse r else line
  | [] => []
  end.

(** Step 5, the validation gate. *)
Definition gate (note key value : jstring) : option (jstring * Entry) :=
  if decide (length key = 2 ∧ value ≠ []) then Some (key, (note, value))
  else None.

(** Steps 3 and 4: the candidate note, key and value of a line's fields,
    trimmed, the key upper-cased. *)
Definition candidateNote (cols : list jstring) : jstring :=
  match cols with
  | c0 :: _ :: _ :: _ => trim c0
  | _ => []
  end.

Definition candidateKey (cols : list jstring) : jstring :=
  match cols with
  | _ :: c1 :: _ :: _ => toUpperCase (trim c1)
  | [c0; _] => toUpperCase (trim c0)
  | _ => []
  end.

Definition candidateValue (cols : list jstring) : jstring :=
  match cols with
  | _ :: _ :: c2 :: _ => trim c2
  | [_; c1] => trim c1
  | _ => []
  end.

(** Steps 1 to 5: the key and the entry a line contributes, if any. *)
Definition lineEntry (line : jstring) : option (jstring * Entry) :=
  let line := strip line in
  if isEmpty (trim line) then None
  else
    let cols := split TAB line in
    if decide (length cols < 2) then None
    else gate (candidateNote cols) (candidateKey cols) (candidateValue cols).

(** Step 6: append the entry to the sequence of its key. *)
Definition append (out : Index) (key : jstring) (e : Entry) : Index :=
  <[key := default [] (out !! key) ++ [e]]> out.

Definition step (out : Index) (line : jstring) : Index :=
  match lineEntry line with
  | Some (key, e) => append out key e
  | None => out
  end.

Definition parse (text : jstring) : Index :=
  foldl step ∅ (split LF text).

End Algorithm.
End AsSpecified.

(** ** Predicates of the statements *)

Section Predicates.
Context `{Host}.

(** Keys of length 2 in the image of the upper-casing, non-empty values. *)
Definition wellFormed (idx : Index) : Prop :=
  ∀ key es, idx !! key = Some es →
    length key = 2 ∧ (∃ s, key = toUpperCase s) ∧ ∀ e, e ∈ es → e.2 ≠ [].

(** A retrieval that did not succeed: the promise of [fetch] was rejected,
    or the response is not [ok]. *)
Definition retrievalFailed (o : FetchOutcome) : Prop :=
  match o with
  | None => True
  | Some r => ok r = false
  end.

End Predicates.

(** ** The blocks of [fetchData] *)

Section Blocks.
Context `{Host}.

(** The [try] block of [fetchData]. *)
Definition fetchData_try (cornerOut edgeOut : FetchOutcome) : Eff unit :=
  updateStatus (js "Updating...") [];;
  modify (set_refreshDisabled true);;
  fetch (URLS corner);;
  fetch (URLS edge);;
  '(cornerRes, edgeRes) ← awaitAll cornerOut edgeOut;
  if negb (ok cornerRes) || negb (ok edgeRes) then throw NetworkError
  else
    cornerText ← text cornerRes;
    edgeText ← text edgeRes;
    parsedCorner ← lift (parseTSV cornerText);
    modify (set_dataCorner (indexVal parsedCorner));;
    parsedEdge ← lift (parseTSV edgeText);
    modify (set_dataEdge (indexVal parsedEdge));;
    c ← gets dataCorner;
    e ← gets dataEdge;
    saveCache c e;;
    cache ← gets loadCache;
    info ← lift (lastInfo cache);
    updateStatus (js "Updated") info.

(** The [catch] block of [fetchData]. *)
Definition fetchData_catch : Eff unit :=
  cache ← gets loadCache;
  if toBoolean cache then
    c ← lift (getProp cache (js "corner"));
    modify (set_dataCorner c);;
    e ← lift (getProp cache (js "edge"));
    modify (set_dataEdge e);;
    info ← lift (lastInfo cache);
    updateStatus (js "Offline " ++ [8212%N] ++ js " using cache") info
  else
    updateStatus (js "No data available") [].

(** The state in which the [try] block is left when the refresh fails
    before anything is parsed: the status, the button and the two
    requests. *)
Definition requested (st : App) : App :=
  set_requests (requests st ++ [URLS corner; URLS edge])
    (set_refreshDisabled true (set_statusText (js "Updating...") st)).

(** The snapshot [saveCache] makes of [c] and [e] in the state [st]. *)
Definition snapshotAt (st : App) (c e : jsval) : jsval :=
  payload (wallClock (clockReads st))
          (toLocaleString (wallClock (S (clockReads st)))) c e.

(** The state in which the [try] block is left, and then the [finally]
    block, when the two sheets are retrieved and parsed to [A] and [B],
    and the snapshot is read back from the store. *)
Definition afterRefresh (A B : Index) (st : App) : App :=
  set_refreshDisabled false
    (set_statusText
       (js "Updated" ++ bullet ++ js "Last: "
        ++ toLocaleString (wallClock (S (clockReads st))))
       (set_localStorage
          (<[CACHE_KEY :=
               JSON_stringify (snapshotAt st (indexVal A) (indexVal B))]>
             (localStorage st))
          (set_clockReads (S (S (clockReads st)))
             (set_dataEdge (indexVal B)
                (set_dataCorner (indexVal A) (requested st)))))).

End Blocks.

(** ** The listeners of the page *)

(** What the page reacts to: the "input" event of the key field showing
    [value], the clicks on the three buttons (a click on the refresh button
    comes with the outcomes its two requests will have), and the "keydown"
    event of the document for a key without or with the control key. *)
Inductive Event :=
| InputEvent (value : jstring)
| SwitchClick
| ClearClick
| RefreshClick (cornerOut edgeOut : FetchOutcome)
| KeydownEvent (key : jstring) (ctrlKey : bool).

Section Listeners.
Context `{Host}.

(** The "keydown" listener of the document.  [switchBtn.click()] runs the
    click listener of the switch button.  Ctrl+D toggles the class "dark" of
    the body, which is not part of the state: the third [if] of the listener
    writes nothing of it. *)
Definition onKeydown (key : jstring) (ctrlKey : bool) : Eff unit :=
  (if decide (key = js "Tab") then switchActive else mret tt);;
  (if decide (key = js " ") then clearAll else mret tt).

(** The listener each event runs. *)
Definition listener (ev : Event) : Eff unit :=
  match ev with
  | InputEvent value => onInput value
  | SwitchClick => switchActive
  | ClearClick => clearAll
  | RefreshClick cornerOut edgeOut => fetchData cornerOut edgeOut
  | KeydownEvent key ctrlKey => onKeydown key ctrlKey
  end.

(** An event is handled to its end before the next one; an error a
    listener throws is reported on the console and the page goes on with
    what the listener had written. *)
Definition dispatch (st : App) (ev : Event) : App := (listener ev st).2.

Definition handleAll (evs : list Event) (st : App) : App :=
  foldl dispatch st evs.

(** The page after the script has run on a storage: [init()] on the
    initial state. *)
Definition started (storage : gmap jstring jstring)
    (cornerOut edgeOut : FetchOutcome) : App :=
  (init cornerOut edgeOut (initialApp storage)).2.

End Listeners.

(** ** Predicates of the further statements *)

Section MorePredicates.
Context `{Host}.

(** A host whose [JSON.parse] reads back what its [JSON.stringify] writes
    of a value without [undefined], and whose [JSON.stringify] writes an
    object as a text that is not empty. *)
Definition faithfulJSON : Prop :=
  (∀ v, jsonData v → JSON_parse (JSON_stringify v) = Some v)
  ∧ (∀ o, JSON_stringify (VObj o) ≠ []).

(** A refresh that fails before anything is parsed: a promise of [fetch]
    is rejected, a response is not [ok], or the body of a response cannot
    be read. *)
Definition refreshFailed (cornerOut edgeOut : FetchOutcome) : Prop :=
  match cornerOut, edgeOut with
  | Some rc, Some re =>
      ok rc = false ∨ ok re = false ∨ body rc = None ∨ body re = None
  | _, _ => True
  end.

(** The answer of a retrieval that went well, with its text. *)
Definition answered (t : jstring) : FetchOutcome :=
  Some {| ok := true; body := Some t |}.

(** [value1], [key] and [value2] as the loop body of [parseTSV] assigns
    them from the fields of a line; [None] when the line has fewer than two
    fields. *)
Definition fieldsOf (line : jstring) : option (jstring * jstring * jstring) :=
  match split TAB (replaceCR line) with
  | c0 :: c1 :: c2 :: _ => Some (trim c0, toUpperCase (trim c1), trim c2)
  | [c0; c1] => Some ([], toUpperCase (trim c0), trim c1)
  | _ => None
  end.

(** The two tests before the push: neither
    [if (!key || key.length !== 2) continue] nor [if (!value2) continue]
    leaves the turn. *)
Definition passes (line : jstring) : bool :=
  match fieldsOf line with
  | Some (_, key, value2) =>
      negb (isEmpty key || negb (length key =? 2)) && negb (isEmpty value2)
  | None => false
  end.

(** The entry a line pushes under [key], if it pushes one there. *)
Definition entryFor (key line : jstring) : option Entry :=
  match fieldsOf line with
  | Some (value1, k, value2) =>
      if passes line && bool_decide (k = key) then Some (value1, value2)
      else None
  | None => None
  end.

(** The Index of a sheet followed by another: under each key the entries
    of the first, then those of the second. *)
Definition followedBy (a b : Index) : Index :=
  union_with (λ x y, Some (x ++ y)) a b.

(** An Index whose keys all have an entry. *)
Definition populated (idx : Index) : Prop :=
  ∀ key es, idx !! key = Some es → es ≠ [].

(** A value that is an Index as [parseTSV] makes them. *)
Definition indexData (v : jsval) : Prop :=
  ∃ idx : Index, v = indexVal idx ∧ wellFormed idx ∧ populated idx.

(** The store holds nothing [loadCache] can give, or a snapshot of two
    Indices. *)
Definition storeSound (st : App) : Prop :=
  loadCache st = VNull
  ∨ ∃ time timeText c e,
      loadCache st = payload time timeText c e ∧ indexData c ∧ indexData e.

(** The states in which the two data variables hold Indices and the store
    is sound. *)
Definition sound (st : App) : Prop :=
  indexData (dataCorner st) ∧ indexData (dataEdge st) ∧ storeSound st.

(** What a listener other than the refresh leaves as it is: the two data
    variables, the store, the requests sent, the clock and the refresh
    button. *)
Definition keepsData (st st' : App) : Prop :=
  dataCorner st' = dataCorner st
  ∧ dataEdge st' = dataEdge st
  ∧ localStorage st' = localStorage st
  ∧ requests st' = requests st
  ∧ clockReads st' = clockReads st
  ∧ refreshDisabled st' = refreshDisabled st.

(** How [fetchData] and [init] end: normally, or on the one error that
    leaves them: the TypeError of the
    time text of the snapshot in the store, when it does not convert to a
    string. *)
Definition endedBy (r : Completion unit) (st' : App) : Prop :=
  r = Normal tt
  ∨ (r = Throw TypeError
     ∧ toBoolean (loadCache st') = true
     ∧ ∃ t, getProp (loadCache st') (js "timeText") = Normal t
            ∧ ToString t = Throw TypeError).

(** No property of [Object.prototype] has a name of two code units: on an
    object a name of two code units is found as an own property or not at
    all. *)
Definition shortNamesAreOwn : Prop :=
  ∀ (o : gmap jstring jsval) (name : jstring),
    length name = 2 → inheritedLength (VObj o) name = None.

(** The data are the fields of the snapshot, when [loadCache] gives
    one. *)
Definition agreesWithStore (st : App) : Prop :=
  toBoolean (loadCache st) = true →
  getProp (loadCache st) (js "corner") = Normal (dataCorner st)
  ∧ getProp (loadCache st) (js "edge") = Normal (dataEdge st).

(** The number of clicks on the refresh button among events. *)
Definition refreshClicks (evs : list Event) : nat :=
  foldr (λ ev n, match ev with RefreshClick _ _ => S n | _ => n end) 0 evs.

(** The requests of [n] refreshes: the corner sheet, then the edge sheet,
    [n] times. *)
Definition requestsOf (n : nat) : list jstring :=
  mjoin (replicate n [URLS corner; URLS edge]).

End MorePredicates.

(** * Properties *)

(** ** Strings *)

Lemma split_nonempty sep s : split sep s ≠ [].
Proof.
  destruct s as [|c s]; simpl; [done|].
  destruct (c =? sep)%N; [done|]. by destruct (split sep s).
Qed.

Lemma split_cons_ne sep c s :
  c ≠ sep →
  ∃ f fs, split sep s = f :: fs ∧ split sep (c :: s) = (c :: f) :: fs.
Proof.
  intros Hne. simpl. apply N.eqb_neq in Hne. rewrite Hne.
  destruct (split sep s) as [|f fs] eqn:E; [by apply split_nonempty in E|].
  eauto.
Qed.

Lemma replaceCR_cons_CR s : replaceCR (CR :: s) = replaceCR s.
Proof. unfold replaceCR. by rewrite filter_cons_False by (intros Hc; by apply Hc). Qed.

Lemma replaceCR_cons_ne c s : c ≠ CR → replaceCR (c :: s) = c :: replaceCR s.
Proof. intros. unfold replaceCR. by rewrite filter_cons_True. Qed.

Lemma replaceCR_app s t : replaceCR (s ++ t) = replaceCR s ++ replaceCR t.
Proof. apply filter_app. Qed.

Lemma replaceCR_idemp s : replaceCR (replaceCR s) = replaceCR s.
Proof.
  induction s as [|c s IH]; [done|].
  destruct (decide (c = CR)) as [->|Hne].
  - by rewrite replaceCR_cons_CR.
  - rewrite !replaceCR_cons_ne by done. by rewrite IH.
Qed.

Lemma replaceCR_no_CR s : CR ∉ replaceCR s.
Proof. unfold replaceCR. rewrite list_elem_of_filter. intros [Hc _]. by apply Hc. Qed.

(** Splitting on a separator other than the carriage return commutes with
    the removal of the carriage returns. *)
Lemma split_replaceCR sep s :
  sep ≠ CR → split sep (replaceCR s) = replaceCR <$> split sep s.
Proof.
  intros Hsep. induction s as [|c s IH]; [done|].
  destruct (decide (c = CR)) as [->|Hne].
  - rewrite replaceCR_cons_CR, IH.
    destruct (split_cons_ne sep CR s) as (f & fs & E1 & E2); [done|].
    rewrite E1, E2. simpl. by rewrite replaceCR_cons_CR.
  - rewrite replaceCR_cons_ne by done.
    destruct (decide (c = sep)) as [->|Hne'].
    + simpl. rewrite N.eqb_refl. simpl. by rewrite IH.
    + destruct (split_cons_ne sep c s) as (f & fs & E1 & E2); [done|].
      destruct (split_cons_ne sep c (replaceCR s)) as (f' & fs' & E1' & E2');
        [done|].
      rewrite E2, E2'. rewrite IH, E1 in E1'. simpl in E1'.
      injection E1' as <- <-. simpl. by rewrite replaceCR_cons_ne.
Qed.

(** The code units of a field are code units of the split string. *)
Lemma split_elem_of sep s f c : f ∈ split sep s → c ∈ f → c ∈ s.
Proof.
  revert f. induction s as [|x s IH]; intros f Hf Hc.
  - simpl in Hf. apply list_elem_of_singleton in Hf. by subst.
  - simpl in Hf. destruct (x =? sep)%N.
    + apply elem_of_cons in Hf as [->|Hf]; [by apply elem_of_nil in Hc|].
      right. eauto.
    + destruct (split sep s) as [|g gs] eqn:E; [by apply split_nonempty in E|].
      apply elem_of_cons in Hf as [->|Hf].
      * apply elem_of_cons in Hc as [->|Hc]; [left|right].
        apply (IH g); [left|done].
      * right. apply (IH f); [by right|done].
Qed.

(** ** The parser *)

Section ParserFacts.
Context `{Host}.

Import AsSpecified.

Lemma isEmpty_true (s : jstring) : isEmpty s = true ↔ s = [].
Proof. by destruct s. Qed.

Lemma isEmpty_false (s : jstring) : isEmpty s = false ↔ s ≠ [].
Proof. by destruct s. Qed.

(** [if (!out[key]) out[key] = []; out[key].push(e)] appends [e] to the
    sequence of [key]. *)
Lemma create_then_push (out : Index) (key : jstring) (e : Entry) :
  (let out' := match out !! key with
               | Some _ => out
               | None => <[key := []]> out
               end in
   arr ← (match out' !! key with
          | Some arr => Normal arr
          | None => Throw TypeError
          end : Completion (list Entry));
   Normal (<[key := arr ++ [e]]> out')) = Normal (append out key e).
Proof.
  unfold append. destruct (out !! key) as [es|] eqn:E; simpl.
  - by rewrite E.
  - rewrite lookup_insert_eq. simpl. by rewrite insert_insert_eq.
Qed.

Lemma gate_Some note key value :
  length key = 2 → value ≠ [] → gate note key value = Some (key, (note, value)).
Proof. intros. unfold gate. by rewrite decide_True. Qed.

Lemma gate_None note key value :
  length key ≠ 2 ∨ value = [] → gate note key value = None.
Proof.
  intros Hor. unfold gate. rewrite decide_False; [done|].
  intros [Hk Hv]. by destruct Hor.
Qed.

(** The validation of [loopBody] is the gate. *)
Lemma loopBody_gate (out : Index) (note key value : jstring) :
  (if isEmpty key || negb (length key =? 2) then Normal out
   else if isEmpty value then Normal out
   else Normal (append out key (note, value)))
  = Normal (match gate note key value with
            | Some (k, e) => append out k e
            | None => out
            end).
Proof.
  destruct (decide (length key = 2)) as [Hk|Hk].
  - assert (isEmpty key = false) as -> by (by destruct key).
    rewrite Hk. simpl.
    destruct value as [|c value]; simpl.
    + by rewrite gate_None by auto.
    + by rewrite gate_Some.
  - rewrite gate_None by auto.
    apply Nat.eqb_neq in Hk. rewrite Hk. simpl. by rewrite orb_true_r.
Qed.

(** One turn of the loop is one step of the specified algorithm that strips
    every carriage return. *)
Lemma loopBody_refines (out : Index) (line : jstring) :
  loopBody out line = Normal (step replaceCR out line).
Proof.
  unfold loopBody, step, lineEntry.
  destruct (isEmpty (trim (replaceCR line))); [done|].
  destruct (split TAB (replaceCR line)) as [|c0 [|c1 [|c2 rest]]]; try done.
  - simpl. rewrite create_then_push.
    apply (loopBody_gate out [] (toUpperCase (trim c0)) (trim c1)).
  - simpl. rewrite create_then_push.
    apply (loopBody_gate out (trim c0) (toUpperCase (trim c1)) (trim c2)).
Qed.

Lemma forOf_refines (lines : list jstring) (out : Index) :
  forOf lines out = Normal (foldl (step replaceCR) out lines).
Proof.
  revert out. induction lines as [|line lines IH]; intros out; [done|].
  simpl. rewrite loopBody_refines. apply IH.
Qed.

Lemma parseTSV_refines (text : jstring) :
  parseTSV text = Normal (parse replaceCR text).
Proof. apply forOf_refines. Qed.

(** *** Carriage returns *)

Lemma loopBody_replaceCR (out : Index) (line : jstring) :
  loopBody out (replaceCR line) = loopBody out line.
Proof. unfold loopBody. by rewrite replaceCR_idemp. Qed.

Lemma forOf_replaceCR (lines : list jstring) (out : Index) :
  forOf (replaceCR <$> lines) out = forOf lines out.
Proof.
  revert out. induction lines as [|line lines IH]; intros out; [done|].
  simpl. rewrite loopBody_replaceCR.
  destruct (loopBody out line); simpl; [apply IH|done].
Qed.

Lemma parseTSV_replaceCR (text : jstring) :
  parseTSV (replaceCR text) = parseTSV text.
Proof.
  unfold parseTSV. rewrite split_replaceCR by done. apply forOf_replaceCR.
Qed.

Lemma replaceCR_middle (pre post : jstring) :
  replaceCR (pre ++ CR :: post) = replaceCR (pre ++ post).
Proof. by rewrite !replaceCR_app, replaceCR_cons_CR. Qed.

(** C1, as amended: [parseTSV] removes every carriage return of a line
    before it splits the line into fields, the one ending the line and any
    other one.  A carriage return anywhere in a line, or anywhere in the
    text, changes nothing of what is parsed, no field holds a carriage
    return, and the parser is the specified algorithm with the stripping
    of every carriage return in place of the stripping of a trailing one. *)
Theorem parseTSV_strips_every_CR :
  (∀ (out : Index) (pre post : jstring),
     loopBody out (pre ++ CR :: post) = loopBody out (pre ++ post))
  ∧ (∀ pre post : jstring,
       parseTSV (pre ++ CR :: post) = parseTSV (pre ++ post))
  ∧ (∀ line field : jstring,
       field ∈ split TAB (replaceCR line) → CR ∉ field)
  ∧ (∀ text : jstring, parseTSV text = Normal (parse replaceCR text)).
Proof.
  split; [|split; [|split]].
  - intros out pre post.
    rewrite <- (loopBody_replaceCR out (pre ++ CR :: post)).
    rewrite <- (loopBody_replaceCR out (pre ++ post)).
    by rewrite replaceCR_middle.
  - intros pre post.
    rewrite <- (parseTSV_replaceCR (pre ++ CR :: post)).
    rewrite <- (parseTSV_replaceCR (pre ++ post)).
    by rewrite replaceCR_middle.
  - intros line field Hf Hc.
    apply (replaceCR_no_CR line). by eapply split_elem_of.
  - apply parseTSV_refines.
Qed.

(** *** What a line contributes *)

Lemma step_lookup_mono (strip : jstring → jstring) (out : Index)
    (line key : jstring) (es : list Entry) :
  out !! key = Some es →
  ∃ es', step strip out line !! key = Some (es ++ es').
Proof.
  intros Hk. unfold step.
  destruct (lineEntry strip line) as [[k e]|]; [|exists []; by rewrite app_nil_r].
  unfold append. destruct (decide (k = key)) as [->|Hne].
  - rewrite lookup_insert_eq, Hk. simpl. eauto.
  - rewrite lookup_insert_ne by done. exists []. by rewrite app_nil_r.
Qed.

Lemma foldl_step_lookup_mono (strip : jstring → jstring)
    (lines : list jstring) (out : Index) (key : jstring) (es : list Entry) :
  out !! key = Some es →
  ∃ es', foldl (step strip) out lines !! key = Some (es ++ es').
Proof.
  revert out es. induction lines as [|line lines IH]; intros out es Hk.
  - exists []. by rewrite app_nil_r.
  - simpl. destruct (step_lookup_mono strip out line key es Hk) as [es1 H1].
    destruct (IH _ _ H1) as [es2 H2]. exists (es1 ++ es2).
    by rewrite app_assoc.
Qed.

(** An entry a line contributes is in the parsed Index, under its key. *)
Lemma parse_contains (strip : jstring → jstring) (text line key : jstring)
    (e : Entry) :
  line ∈ split LF text →
  lineEntry strip line = Some (key, e) →
  ∃ es, parse strip text !! key = Some es ∧ e ∈ es.
Proof.
  intros Hin Hline. unfold parse.
  apply list_elem_of_split in Hin as (pre & post & ->).
  rewrite foldl_app. simpl.
  set (out := foldl (step strip) ∅ pre).
  assert (step strip out line !! key
          = Some (default [] (out !! key) ++ [e])) as Hst.
  { unfold step. rewrite Hline. unfold append. apply lookup_insert_eq. }
  destruct (foldl_step_lookup_mono strip post _ _ _ Hst) as [es' ->].
  eexists. split; [done|]. set_solver.
Qed.

(** C3: a non-blank line that passes the validation gate is stored.  With
    three fields or more the entry (trimmed field 0, trimmed field 2) is
    appended to the sequence of the key, the upper-cased trimmed field 1;
    with exactly two fields the entry (empty note, trimmed field 1) is
    appended to the sequence of the upper-cased trimmed field 0; and the
    entry is in the Index [parseTSV] returns for a text with this line. *)
Theorem accepted_line_is_stored (text line : jstring) :
  line ∈ split LF text →
  trim (replaceCR line) ≠ [] →
  (∀ c0 c1 c2 rest,
     split TAB (replaceCR line) = c0 :: c1 :: c2 :: rest →
     length (toUpperCase (trim c1)) = 2 →
     trim c2 ≠ [] →
     (∀ out : Index,
        loopBody out line
        = Normal (<[toUpperCase (trim c1) :=
                      default [] (out !! toUpperCase (trim c1))
                      ++ [(trim c0, trim c2)]]> out))
     ∧ ∃ idx es, parseTSV text = Normal idx
                 ∧ idx !! toUpperCase (trim c1) = Some es
                 ∧ (trim c0, trim c2) ∈ es)
  ∧ (∀ c0 c1,
       split TAB (replaceCR line) = [c0; c1] →
       length (toUpperCase (trim c0)) = 2 →
       trim c1 ≠ [] →
       (∀ out : Index,
          loopBody out line
          = Normal (<[toUpperCase (trim c0) :=
                        default [] (out !! toUpperCase (trim c0))
                        ++ [([], trim c1)]]> out))
       ∧ ∃ idx es, parseTSV text = Normal idx
                   ∧ idx !! toUpperCase (trim c0) = Some es
                   ∧ ([], trim c1) ∈ es).
Proof.
  intros Hin Hblank. apply isEmpty_false in Hblank.
  split.
  - intros c0 c1 c2 rest Hcols Hkey Hval.
    assert (lineEntry replaceCR line
            = Some (toUpperCase (trim c1), (trim c0, trim c2))) as Hline.
    { unfold lineEntry. rewrite Hblank, Hcols. simpl. by apply gate_Some. }
    split.
    + intros out. rewrite loopBody_refines. unfold step. by rewrite Hline.
    + destruct (parse_contains replaceCR text line _ _ Hin Hline)
        as (es & Hes & He).
      exists (parse replaceCR text), es. by rewrite parseTSV_refines.
  - intros c0 c1 Hcols Hkey Hval.
    assert (lineEntry replaceCR line
            = Some (toUpperCase (trim c0), ([], trim c1))) as Hline.
    { unfold lineEntry. rewrite Hblank, Hcols. simpl. by apply gate_Some. }
    split.
    + intros out. rewrite loopBody_refines. unfold step. by rewrite Hline.
    + destruct (parse_contains replaceCR text line _ _ Hin Hline)
        as (es & Hes & He).
      exists (parse replaceCR text), es. by rewrite parseTSV_refines.
Qed.

(** C4: a line with fewer than two fields, or whose key (trimmed and
    upper-cased, as the gate measures it) has not length 2, or whose trimmed
    value is empty, is discarded without an error: the turn of the loop ends
    normally with the Index as it was, and [parseTSV] returns what it returns
    for the other lines alone. *)
Theorem rejected_line_is_discarded (line : jstring) :
  length (split TAB (replaceCR line)) < 2
  ∨ length (candidateKey (split TAB (replaceCR line))) ≠ 2
  ∨ candidateValue (split TAB (replaceCR line)) = [] →
  (∀ out : Index, loopBody out line = Normal out)
  ∧ (∀ (text : jstring) (pre post : list jstring),
       split LF text = pre ++ line :: post →
       parseTSV text = forOf (pre ++ post) ∅
       ∧ ∃ idx, parseTSV text = Normal idx).
Proof.
  intros Hrej.
  assert (lineEntry replaceCR line = None) as Hline.
  { unfold lineEntry. destruct (isEmpty _); [done|].
    case_decide; [done|]. apply gate_None.
    destruct Hrej as [?|[?|?]]; [lia|by left|by right]. }
  assert (∀ out : Index, step replaceCR out line = out) as Hstep.
  { intros out. unfold step. by rewrite Hline. }
  split.
  - intros out. by rewrite loopBody_refines, Hstep.
  - intros text pre post Hsplit. split.
    + unfold parseTSV. rewrite Hsplit, !forOf_refines, !foldl_app. simpl.
      by rewrite Hstep.
    + rewrite parseTSV_refines. eauto.
Qed.

(** *** The invariant of an Index *)

Lemma gate_inv note key value k e :
  gate note key value = Some (k, e) →
  k = key ∧ e = (note, value) ∧ length key = 2 ∧ value ≠ [].
Proof.
  unfold gate. case_decide as Hd; [|done]. destruct Hd. by intros [= <- <-].
Qed.

Lemma candidateKey_upper (cols : list jstring) :
  ¬ length cols < 2 → ∃ s, candidateKey cols = toUpperCase s.
Proof.
  destruct cols as [|c0 [|c1 [|c2 rest]]]; simpl; intros Hlen;
    [lia|lia|eauto|eauto].
Qed.

Lemma lineEntry_inv (strip : jstring → jstring) (line k : jstring) (e : Entry) :
  lineEntry strip line = Some (k, e) →
  length k = 2 ∧ (∃ s, k = toUpperCase s) ∧ e.2 ≠ [].
Proof.
  unfold lineEntry. destruct (isEmpty _); [done|].
  case_decide as Hlen; [done|].
  intros (-> & -> & Hk & Hv)%gate_inv.
  split; [done|]. split; [|done]. by apply candidateKey_upper.
Qed.

Lemma wellFormed_empty : wellFormed ∅.
Proof. intros key es. by rewrite lookup_empty. Qed.

Lemma wellFormed_step (strip : jstring → jstring) (out : Index)
    (line : jstring) :
  wellFormed out → wellFormed (step strip out line).
Proof.
  intros Hout. unfold step.
  destruct (lineEntry strip line) as [[k e]|] eqn:Hline; [|done].
  apply lineEntry_inv in Hline as (Hk & Hup & Hv).
  intros key es. unfold append.
  destruct (decide (k = key)) as [<-|Hne].
  - rewrite lookup_insert_eq. intros [= <-]. split; [done|]. split; [done|].
    intros e' [He'|He']%elem_of_app.
    + destruct (out !! k) as [es0|] eqn:E; simpl in He'.
      * by apply (Hout k es0 E).
      * by apply elem_of_nil in He'.
    + apply list_elem_of_singleton in He'. by subst.
  - rewrite lookup_insert_ne by done. apply Hout.
Qed.

Lemma wellFormed_foldl (strip : jstring → jstring) (lines : list jstring)
    (out : Index) :
  wellFormed out → wellFormed (foldl (step strip) out lines).
Proof.
  revert out. induction lines as [|line lines IH]; intros out Hout; [done|].
  simpl. by apply IH, wellFormed_step.
Qed.

(** C2: for every text [parseTSV] returns an Index in which every key has
    length 2 and is its own upper-casing, and every entry is a pair of
    two strings, the note (a string, possibly empty) and a non-empty value.
    That a key is its own upper-casing rests on the idempotence of
    [toUpperCase]. *)
Theorem parseTSV_index_invariant (text : jstring) :
  (∀ s, toUpperCase (toUpperCase s) = toUpperCase s) →
  ∃ idx, parseTSV text = Normal idx ∧
    ∀ key es, idx !! key = Some es →
      length key = 2 ∧ toUpperCase key = key ∧
      ∀ e, e ∈ es →
        ∃ note value, entryVal e = VArr [VStr note; VStr value] ∧ value ≠ [].
Proof.
  intros Hup. exists (parse replaceCR text). split; [apply parseTSV_refines|].
  intros key es Hes.
  destruct (wellFormed_foldl replaceCR (split LF text) ∅ wellFormed_empty
              key es Hes) as (Hlen & [s ->] & Hval).
  split; [done|]. split; [apply Hup|].
  intros [note value] He. exists note, value. split; [done|].
  by apply (Hval _ He).
Qed.

(** C9: [parseTSV] reads its argument and nothing else, writes nothing, and
    returns: parsing a text gives an Index, and parsing it again gives an
    Index with the same keys and, under each key, the same sequence of
    entries. *)
Theorem parseTSV_deterministic (text : jstring) :
  ∃ idx, parseTSV text = Normal idx ∧
    ∀ idx', parseTSV text = Normal idx' →
      dom idx' = dom idx ∧ ∀ key, idx' !! key = idx !! key.
Proof.
  exists (parse replaceCR text). split; [apply parseTSV_refines|].
  intros idx'. rewrite parseTSV_refines. by intros [= <-].
Qed.

End ParserFacts.

(** ** The cache store, the controller and the lookup *)

(** Runs the statements of an effectful term as far as they are known. *)
Ltac run_eff :=
  cbv beta iota delta
    [mbind Eff_bind Completion_bind mret Eff_ret Completion_ret modify gets
     lift throw tryCatch finally fetch awaitAll text readClock lastInfo].

(** Induction on a value through the elements of the arrays. *)
Lemma jsval_array_ind (P : jsval → Prop) :
  P VUndef → P VNull → (∀ b, P (VBool b)) → (∀ n, P (VNum n)) →
  (∀ s, P (VStr s)) → (∀ a, Forall P a → P (VArr a)) → (∀ o, P (VObj o)) →
  ∀ v, P v.
Proof.
  intros Hundef Hnull Hbool Hnum Hstr Harr Hobj.
  refine (fix IH v :=
            match v with
            | VUndef => Hundef
            | VNull => Hnull
            | VBool b => Hbool b
            | VNum n => Hnum n
            | VStr s => Hstr s
            | VArr a =>
                Harr a ((fix elements (l : list jsval) : Forall P l :=
                           match l with
                           | [] => @List.Forall_nil _ P
                           | x :: l' =>
                               @List.Forall_cons _ P x l' (IH x) (elements l')
                           end) a)
            | VObj o => Hobj o
            end).
Qed.

(** Two hosts that print the numbers alike convert the values alike. *)
Lemma stringOf_ext (H H' : Host) :
  (∀ n, @Number_toString H' n = @Number_toString H n) →
  ∀ v, @stringOf H' v = @stringOf H v.
Proof.
  intros Hnum v. induction v as [| |b|n|s|a IH|o] using jsval_array_ind;
    try done.
  - simpl. by rewrite Hnum.
  - simpl.
    assert (foldr (λ x acc,
                     match (match x with
                            | VUndef | VNull => Some []
                            | _ => @stringOf H' x
                            end), acc with
                     | Some s, Some parts => Some (s :: parts)
                     | _, _ => None
                     end) (Some []) a
            = foldr (λ x acc,
                       match (match x with
                              | VUndef | VNull => Some []
                              | _ => @stringOf H x
                              end), acc with
                       | Some s, Some parts => Some (s :: parts)
                       | _, _ => None
                       end) (Some []) a) as ->; [|done].
    induction IH as [|x l Hx _ IHl]; [done|].
    simpl. rewrite IHl. by destruct x; rewrite ?Hx.
Qed.

Section EngineFacts.
Context `{Host}.

Lemma ToString_str (s : jstring) : ToString (VStr s) = Normal s.
Proof. done. Qed.

(** The one error of a conversion to a string. *)
Lemma ToString_throws (v : jsval) (err : Exn) :
  ToString v = Throw err → err = TypeError.
Proof. unfold ToString. destruct (stringOf v); congruence. Qed.

Lemma updateStatus_plain (msg : jstring) :
  updateStatus msg [] = modify (set_statusText msg).
Proof. done. Qed.

Lemma updateStatus_last (msg t : jstring) :
  updateStatus msg (js "Last: " ++ t)
  = modify (set_statusText (msg ++ bullet ++ js "Last: " ++ t)).
Proof. done. Qed.

Lemma getProp_truthy (v : jsval) (name : jstring) :
  toBoolean v = true → ∃ x, getProp v name = Normal x.
Proof.
  destruct v; simpl; try done; intros _; eauto.
  - case_decide; [eauto|]. destruct (arrayIndex name); eauto.
  - case_decide; [eauto|]. destruct (arrayIndex name); eauto.
Qed.

Lemma lastInfo_truthy (cache : jsval) :
  toBoolean cache = true →
  ∃ t, getProp cache (js "timeText") = Normal t
       ∧ lastInfo cache = match ToString t with
                          | Normal text => Normal (js "Last: " ++ text)
                          | Throw err => Throw err
                          end.
Proof.
  intros Hc. destruct (getProp_truthy cache (js "timeText") Hc) as [t Ht].
  exists t. split; [done|]. unfold lastInfo. by rewrite Ht.
Qed.

(** C6: when a retrieval fails (so also when both do) and [loadCache] has
    no snapshot to give, [fetchData] ends normally with the status
    "No data available", the refresh button enabled again, and the two
    Indices, the storage and the selection as they were; the two requests
    were sent. *)
Theorem fetchData_no_data (cornerOut edgeOut : FetchOutcome) (st : App) :
  retrievalFailed cornerOut ∨ retrievalFailed edgeOut →
  toBoolean (loadCache st) = false →
  ∃ st', fetchData cornerOut edgeOut st = (Normal tt, st')
    ∧ statusText st' = js "No data available"
    ∧ dataCorner st' = dataCorner st
    ∧ dataEdge st' = dataEdge st
    ∧ active st' = active st
    ∧ localStorage st' = localStorage st
    ∧ refreshDisabled st' = false
    ∧ requests st' = requests st ++ [URLS corner; URLS edge].
Proof.
  intros Hfail Hcache.
  assert (∀ s b l1 l2,
            loadCache (set_requests l2 (set_requests l1
              (set_refreshDisabled b (set_statusText s st)))) = loadCache st)
    as Hload by done.
  unfold fetchData.
  destruct cornerOut as [rc|], edgeOut as [re|]; simpl in Hfail.
  1: assert (negb (ok rc) || negb (ok re) = true) as Hok
       by (destruct Hfail as [->| ->]; [done|by rewrite orb_true_r]).
  all: repeat (progress (run_eff; rewrite ?updateStatus_plain, ?Hok, ?Hload,
                           ?Hcache)).
  all: eexists; split; [reflexivity|]; repeat split.
  all: cbv [requests set_refreshDisabled set_statusText set_requests].
  all: by rewrite <- app_assoc.
Qed.

(** [init] on a snapshot: the fields are adopted, nothing is requested;
    the status is written when the time text converts to a string, and the
    TypeError of the conversion leaves [init] otherwise. *)
Lemma init_on_snapshot (cornerOut edgeOut : FetchOutcome) (st : App) :
  toBoolean (loadCache st) = true →
  ∃ c e t,
    getProp (loadCache st) (js "corner") = Normal c
    ∧ getProp (loadCache st) (js "edge") = Normal e
    ∧ getProp (loadCache st) (js "timeText") = Normal t
    ∧ init cornerOut edgeOut st
      = match ToString t with
        | Normal text =>
            (Normal tt,
             set_statusText
               (js "Loaded from cache" ++ bullet ++ js "Last: " ++ text)
               (set_dataEdge e (set_dataCorner c st)))
        | Throw err => (Throw err, set_dataEdge e (set_dataCorner c st))
        end.
Proof.
  intros Hcache.
  destruct (getProp_truthy _ (js "corner") Hcache) as [c Hc].
  destruct (getProp_truthy _ (js "edge") Hcache) as [e He].
  destruct (getProp_truthy _ (js "timeText") Hcache) as [t Ht].
  exists c, e, t. repeat split; try done.
  unfold init.
  repeat (progress (run_eff; rewrite ?Hcache, ?Hc, ?He, ?Ht)).
  destruct (ToString t) as [text|err]; [|done].
  rewrite updateStatus_last. by run_eff.
Qed.

Lemma init_without_snapshot (cornerOut edgeOut : FetchOutcome) (st : App) :
  toBoolean (loadCache st) = false →
  init cornerOut edgeOut st
  = fetchData cornerOut edgeOut
      (set_statusText (js "No cache " ++ [8212%N] ++ js " fetching...") st).
Proof.
  intros Hcache. unfold init.
  repeat (progress (run_eff; rewrite ?updateStatus_plain, ?Hcache)).
  done.
Qed.

End EngineFacts.

(** C7: when [loadCache] gives a snapshot, [init] adopts its [corner] and
    [edge] as the two Indices and sends no request; it shows "Loaded from
    cache" with the snapshot's [timeText] when this converts to a string, as
    the string [saveCache] writes does (a time text that does not convert
    has [init] end on the TypeError of the conversion, after the adoption).
    The age of the snapshot plays no part: the outcome is the same whatever
    the clock of the host reads (and whatever the network would answer), it
    is the same whatever the [time] of the snapshot is, and [CACHE_TIME]
    occurs in no function. *)
Theorem init_adopts_snapshot `{H : Host} (cornerOut edgeOut : FetchOutcome)
    (st : App) :
  toBoolean (loadCache st) = true →
  (∃ c e t r st',
     getProp (loadCache st) (js "corner") = Normal c
     ∧ getProp (loadCache st) (js "edge") = Normal e
     ∧ getProp (loadCache st) (js "timeText") = Normal t
     ∧ init cornerOut edgeOut st = (r, st')
     ∧ dataCorner st' = c
     ∧ dataEdge st' = e
     ∧ requests st' = requests st
     ∧ localStorage st' = localStorage st
     ∧ match ToString t with
       | Normal text =>
           r = Normal tt
           ∧ statusText st'
             = js "Loaded from cache" ++ bullet ++ js "Last: " ++ text
       | Throw err => r = Throw err ∧ statusText st' = statusText st
       end)
  ∧ (∀ (H' : Host) (cornerOut' edgeOut' : FetchOutcome),
       (∀ raw, @JSON_parse H' raw = @JSON_parse H raw) →
       (∀ n, @Number_toString H' n = @Number_toString H n) →
       @init H' cornerOut' edgeOut' st = @init H cornerOut edgeOut st)
  ∧ (∀ (storage : gmap jstring jstring) (o : gmap jstring jsval) (time : jsval),
       loadCache st = VObj o →
       loadCache (set_localStorage storage st)
       = VObj (<[js "time" := time]> o) →
       ∃ r st', init cornerOut edgeOut st = (r, st')
                ∧ init cornerOut edgeOut (set_localStorage storage st)
                  = (r, set_localStorage storage st')).
Proof.
  intros Hcache. split; [|split].
  - destruct (init_on_snapshot cornerOut edgeOut st Hcache)
      as (c & e & t & Hc & He & Ht & Hinit).
    exists c, e, t. destruct (ToString t) as [text|err].
    + eexists _, _. do 3 (split; [done|]). split; [exact Hinit|].
      by repeat split.
    + eexists _, _. do 3 (split; [done|]). split; [exact Hinit|].
      by repeat split.
  - intros H' cornerOut' edgeOut' Hparse Hnum.
    assert (@loadCache H' st = @loadCache H st) as Hload.
    { unfold loadCache. destruct (localStorage st !! CACHE_KEY); [|done].
      by rewrite Hparse. }
    destruct (init_on_snapshot cornerOut edgeOut st Hcache)
      as (c & e & t & Hc & He & Ht & ->).
    rewrite <- Hload in Hcache.
    destruct (@init_on_snapshot H' cornerOut' edgeOut' st Hcache)
      as (c' & e' & t' & Hc' & He' & Ht' & ->).
    rewrite Hload in Hc', He', Ht'.
    replace c' with c by congruence. replace e' with e by congruence.
    replace t' with t by congruence.
    unfold ToString. by rewrite (stringOf_ext H H' Hnum).
  - intros storage o time Ho Ho'.
    destruct (init_on_snapshot cornerOut edgeOut st Hcache)
      as (c & e & t & Hc & He & Ht & ->).
    destruct (init_on_snapshot cornerOut edgeOut (set_localStorage storage st))
      as (c' & e' & t' & Hc' & He' & Ht' & ->); [by rewrite Ho'|].
    rewrite Ho in Hc, He, Ht. rewrite Ho' in Hc', He', Ht'.
    unfold getProp in *.
    rewrite lookup_insert_ne in Hc', He', Ht'
      by (intros E; vm_compute in E; done).
    replace c' with c by congruence. replace e' with e by congruence.
    replace t' with t by congruence.
    destruct (ToString t) as [text|err]; by eexists _, _.
Qed.

Section StoreFacts.
Context `{Host}.

(** *** Lookup *)

Lemma getProp_indexVal (idx : Index) (key : jstring) :
  getProp (indexVal idx) key
  = Normal (match idx !! key with
            | Some es => entriesVal es
            | None => VUndef
            end).
Proof.
  unfold indexVal, getProp. rewrite lookup_fmap. by destruct (idx !! key).
Qed.

Lemma getProp_length (a : list jsval) :
  getProp (VArr a) (js "length") = Normal (VNum (Z.of_nat (length a))).
Proof. unfold getProp. by rewrite decide_True. Qed.

Lemma getProp_first (a : list jsval) :
  getProp (VArr a) (js "0") = Normal (default VUndef (a !! 0)).
Proof.
  unfold getProp. rewrite decide_False by (intros E; vm_compute in E; done).
  by replace (arrayIndex (js "0")) with (Some 0) by (by vm_compute).
Qed.

Lemma readProp_indexVal (idx : Index) (key : jstring) :
  readProp (indexVal idx) key
  = Normal (match idx !! key with
            | Some es => Own (entriesVal es)
            | None =>
                match inheritedLength (indexVal idx) key with
                | Some len => Inherited len
                | None => Missing
                end
            end).
Proof.
  unfold indexVal, readProp, ownProp. rewrite lookup_fmap.
  by destruct (idx !! key).
Qed.

(** [lookup] on an Index: a key the Index has is found there; a key it has
    not is looked for along the prototype chain. *)
Lemma lookup_on_index (key : jstring) (idx : Index) (st : App) :
  getData st = indexVal idx →
  lookup key st
  = match idx !! key with
    | Some ((note, value) :: _) =>
        (Normal tt,
         set_resultCards
           [{| cardKey := key;
               cardNote := if isEmpty note then None else Some note;
               cardValue2 := value |}]
           (set_statusText (js "Found") (set_resultCards [] st)))
    | Some [] =>
        (Normal tt, set_statusText (js "No results") (set_resultCards [] st))
    | None =>
        match inheritedLength (indexVal idx) key with
        | None =>
            (Normal tt,
             set_statusText (js "No results") (set_resultCards [] st))
        | Some len =>
            if strictEqZero len
            then (Normal tt,
                  set_statusText (js "No results") (set_resultCards [] st))
            else (Throw TypeError, set_resultCards [] st)
        end
    end.
Proof.
  intros Hdata. unfold lookup. run_eff.
  rewrite Hdata, readProp_indexVal.
  destruct (idx !! key) as [[|[note value] es]|]; unfold entriesVal;
    cbn [fmap list_fmap toBoolean negb]; run_eff;
    rewrite ?getProp_length; cbn [length strictEqZero];
    rewrite ?getProp_first, ?updateStatus_plain; [done| |].
  - replace (Z.of_nat (S (length (entryVal <$> es))) =? 0)%Z with false
      by (symmetry; apply Z.eqb_neq; lia).
    cbn [base.lookup list_lookup default from_option entryVal destructure2
         fst snd].
    run_eff. by destruct note.
  - destruct (inheritedLength _ key) as [len|]; [|done].
    by destruct (strictEqZero len).
Qed.

(** C5: on an Index, [lookup] of a key that is absent or has an empty
    sequence ends with the status "No results" and no card; otherwise it
    ends with the status "Found" and the card of the first entry of the
    key's sequence, whatever the entries after the first are.  The keys are
    those that name no property of the prototype chain of the Index when the
    Index has them not: a key of two code units is one, no name of
    [Object.prototype] being that short. *)
Theorem lookup_first_entry (key : jstring) (idx : Index) (st : App) :
  getData st = indexVal idx →
  (idx !! key = None → inheritedLength (indexVal idx) key = None) →
  lookup key st
  = (Normal tt,
     match idx !! key with
     | Some ((note, value) :: _) =>
         set_resultCards
           [{| cardKey := key;
               cardNote := if isEmpty note then None else Some note;
               cardValue2 := value |}]
           (set_statusText (js "Found") (set_resultCards [] st))
     | Some [] | None =>
         set_statusText (js "No results") (set_resultCards [] st)
     end).
Proof.
  intros Hdata Hkey. rewrite (lookup_on_index key idx st Hdata).
  destruct (idx !! key) as [[|[note value] es]|]; [done|done|].
  by rewrite Hkey.
Qed.

(** *** The cache store *)

Lemma entryVal_inj (e1 e2 : Entry) : entryVal e1 = entryVal e2 → e1 = e2.
Proof. destruct e1, e2. unfold entryVal; simpl. by intros [= -> ->]. Qed.

Lemma entriesVal_inj (l1 l2 : list Entry) :
  entriesVal l1 = entriesVal l2 → l1 = l2.
Proof.
  unfold entriesVal. intros [= E]. revert l2 E.
  induction l1 as [|[n1 v1] l1 IH]; intros [|[n2 v2] l2]; simpl; try done.
  intros [= -> -> E2%IH]. by subst.
Qed.

(** Two Indices with the same value have the same keys and, under each
    key, the same sequence of entries. *)
Lemma indexVal_inj (A B : Index) : indexVal A = indexVal B → A = B.
Proof.
  unfold indexVal. intros [= E]. apply map_eq. intros key.
  apply (f_equal (λ m, m !! key)) in E. rewrite !lookup_fmap in E.
  destruct (A !! key) as [a|], (B !! key) as [b|]; simpl in E; try done.
  f_equal. apply entriesVal_inj. congruence.
Qed.

Lemma getProp_payload_corner time timeText (c e : jsval) :
  getProp (payload time timeText c e) (js "corner") = Normal c.
Proof.
  unfold payload, getProp.
  rewrite !lookup_insert_ne by (intros E; vm_compute in E; done).
  by rewrite lookup_insert_eq.
Qed.

Lemma getProp_payload_edge time timeText (c e : jsval) :
  getProp (payload time timeText c e) (js "edge") = Normal e.
Proof.
  unfold payload, getProp.
  rewrite !lookup_insert_ne by (intros E; vm_compute in E; done).
  by rewrite lookup_insert_eq.
Qed.

(** What [saveCache] writes. *)
Lemma saveCache_run (c e : jsval) (st : App) :
  saveCache c e st
  = (Normal tt,
     set_localStorage
       (<[CACHE_KEY :=
            JSON_stringify
              (payload (wallClock (clockReads st))
                       (toLocaleString (wallClock (S (clockReads st))))
                       c e)]> (localStorage st))
       (set_clockReads (S (S (clockReads st))) st)).
Proof. done. Qed.

Lemma jsonData_indexVal (idx : Index) : jsonData (indexVal idx).
Proof.
  apply jsonData_obj. apply map_Forall_fmap. intros key es _. simpl.
  apply jsonData_arr. apply Forall_fmap, Forall_forall. intros e _.
  apply jsonData_arr. repeat constructor.
Qed.

Lemma jsonData_payload (time : Z) (timeText : jstring) (c e : jsval) :
  jsonData c → jsonData e → jsonData (payload time timeText c e).
Proof.
  intros Hc He. apply jsonData_obj.
  repeat apply map_Forall_insert_2; try done; try constructor.
Qed.

(** Saving and loading when the snapshot object is read back from its
    text. *)
Lemma load_after_save (c e : jsval) (st : App) :
  let snapshot :=
    payload (wallClock (clockReads st))
            (toLocaleString (wallClock (S (clockReads st)))) c e in
  JSON_parse (JSON_stringify snapshot) = Some snapshot →
  JSON_stringify snapshot ≠ [] →
  ∃ st', saveCache c e st = (Normal tt, st')
    ∧ loadCache st' = snapshot
    ∧ getProp (loadCache st') (js "corner") = Normal c
    ∧ getProp (loadCache st') (js "edge") = Normal e.
Proof.
  intros snapshot Hparse Hne. rewrite saveCache_run. eexists.
  split; [reflexivity|].
  assert (∀ m n, loadCache (set_localStorage
                   (<[CACHE_KEY := JSON_stringify snapshot]> m)
                   (set_clockReads n st)) = snapshot) as Hload.
  { intros m n. unfold loadCache. simpl localStorage.
    rewrite lookup_insert_eq. apply isEmpty_false in Hne.
    by rewrite Hne, Hparse. }
  fold snapshot. rewrite Hload.
  split; [done|]. unfold snapshot.
  by rewrite getProp_payload_corner, getProp_payload_edge.
Qed.

(** C8: saving two Indices and loading gives a snapshot whose [corner] and
    [edge] are the two Indices, key for key and entry for entry, on a host
    whose [JSON.parse] reads back what its [JSON.stringify] writes of a value
    without [undefined], and whose [JSON.stringify] writes an object as a
    text that is not empty. *)
Theorem saveCache_loadCache_roundtrip (A B : Index) (st : App) :
  (∀ v, jsonData v → JSON_parse (JSON_stringify v) = Some v) →
  (∀ o, JSON_stringify (VObj o) ≠ []) →
  ∃ st', saveCache (indexVal A) (indexVal B) st = (Normal tt, st')
    ∧ getProp (loadCache st') (js "corner") = Normal (indexVal A)
    ∧ getProp (loadCache st') (js "edge") = Normal (indexVal B)
    ∧ ∀ A' B' : Index,
        getProp (loadCache st') (js "corner") = Normal (indexVal A') →
        getProp (loadCache st') (js "edge") = Normal (indexVal B') →
        A' = A ∧ B' = B.
Proof.
  intros Hlaw Hne.
  destruct (load_after_save (indexVal A) (indexVal B) st)
    as (st' & Hsave & _ & Hc & He).
  - apply Hlaw, jsonData_payload; apply jsonData_indexVal.
  - apply Hne.
  - exists st'. do 3 (split; [done|]).
    intros A' B' HA HB. rewrite Hc in HA. rewrite He in HB.
    split; apply indexVal_inj; congruence.
Qed.

(** C10, as amended: [loadCache] gives [null] when the payload is missing,
    empty, not a JSON text, or the JSON text of [null]; any other value
    [JSON.parse] reads is returned as it is.  [init] adopts the [corner] and
    [edge] the value has ([undefined] where it has none) when the value is
    truthy, and goes on to fetch, adopting nothing, when it is falsy.  After
    the adoption [init] ends normally when the [timeText] of the value
    converts to a string, as [undefined] does, and on the TypeError of the
    conversion when it does not. *)
Theorem loadCache_unvalidated (st : App) :
  (loadCache st = VNull ↔
     localStorage st !! CACHE_KEY = None
     ∨ ∃ raw, localStorage st !! CACHE_KEY = Some raw
              ∧ (raw = [] ∨ JSON_parse raw = None
                 ∨ JSON_parse raw = Some VNull))
  ∧ (∀ raw v,
       localStorage st !! CACHE_KEY = Some raw → raw ≠ [] →
       JSON_parse raw = Some v → loadCache st = v)
  ∧ (∀ cornerOut edgeOut,
       toBoolean (loadCache st) = true →
       ∃ c e t r st',
         getProp (loadCache st) (js "corner") = Normal c
         ∧ getProp (loadCache st) (js "edge") = Normal e
         ∧ getProp (loadCache st) (js "timeText") = Normal t
         ∧ (∀ o, loadCache st = VObj o →
                 c = default VUndef (o !! js "corner")
                 ∧ e = default VUndef (o !! js "edge"))
         ∧ (∀ n, loadCache st = VNum n →
                 c = VUndef ∧ e = VUndef ∧ t = VUndef)
         ∧ init cornerOut edgeOut st = (r, st')
         ∧ dataCorner st' = c ∧ dataEdge st' = e
         ∧ match ToString t with
           | Normal _ => r = Normal tt
           | Throw _ => r = Throw TypeError
           end)
  ∧ (∀ cornerOut edgeOut,
       toBoolean (loadCache st) = false →
       init cornerOut edgeOut st
       = fetchData cornerOut edgeOut
           (set_statusText
              (js "No cache " ++ [8212%N] ++ js " fetching...") st)).
Proof.
  split; [|split; [|split]].
  - unfold loadCache. destruct (localStorage st !! CACHE_KEY) as [raw|].
    + destruct raw as [|c raw]; simpl.
      * split; [|done]. intros _. right. exists []. auto.
      * destruct (JSON_parse (c :: raw)) as [v|] eqn:E.
        -- split.
           ++ intros ->. right. exists (c :: raw). auto.
           ++ intros [?|(raw' & [= <-] & [?|[?|?]])]; congruence.
        -- split; [|done]. intros _. right. exists (c :: raw). auto.
    + split; [by left|done].
  - intros raw v Hraw Hne Hparse. unfold loadCache.
    apply isEmpty_false in Hne. by rewrite Hraw, Hne, Hparse.
  - intros cornerOut edgeOut Hcache.
    destruct (init_on_snapshot cornerOut edgeOut st Hcache)
      as (c & e & t & Hc & He & Ht & Hinit).
    exists c, e, t.
    assert (∀ o, loadCache st = VObj o →
                 c = default VUndef (o !! js "corner")
                 ∧ e = default VUndef (o !! js "edge")) as Hobj.
    { intros o Ho. rewrite Ho in Hc, He. simpl in Hc, He.
      split; congruence. }
    assert (∀ n, loadCache st = VNum n →
                 c = VUndef ∧ e = VUndef ∧ t = VUndef) as Hnum.
    { intros n Hn. rewrite Hn in Hc, He, Ht. simpl in Hc, He, Ht.
      repeat split; congruence. }
    destruct (ToString t) as [text|err] eqn:Et.
    + eexists _, _. do 5 (split; [done|]). split; [exact Hinit|done].
    + apply ToString_throws in Et as ->.
      eexists _, _. do 5 (split; [done|]). split; [exact Hinit|done].
  - intros cornerOut edgeOut. apply init_without_snapshot.
Qed.

End StoreFacts.

(** ** Further properties of the parser *)

(** *** Blank strings *)

Lemma trimStart_nil (s : jstring) :
  trimStart s = [] ↔ Forall (λ c, isWhiteSpace c = true) s.
Proof.
  induction s as [|c s IH]; simpl.
  - split; [constructor|done].
  - destruct (isWhiteSpace c) eqn:E.
    + rewrite IH. split; [by constructor|by inversion 1].
    + split; [done|]. inversion 1; congruence.
Qed.

Lemma trimStart_head (s : jstring) (c : N) (r : jstring) :
  trimStart s = c :: r → isWhiteSpace c = false.
Proof.
  induction s as [|x s IH]; simpl; [done|].
  destruct (isWhiteSpace x) eqn:E; [done|]. by intros [= <- <-].
Qed.

Lemma trim_nil (s : jstring) :
  trim s = [] ↔ Forall (λ c, isWhiteSpace c = true) s.
Proof.
  unfold trim, trimEnd. split.
  - intros E. apply (f_equal reverse) in E.
    rewrite reverse_involutive, reverse_nil in E.
    apply trimStart_nil in E. rewrite Forall_reverse in E.
    destruct (trimStart s) as [|c r] eqn:Es; [by apply trimStart_nil|].
    apply trimStart_head in Es. inversion E; congruence.
  - intros Hs. apply trimStart_nil in Hs. by rewrite Hs.
Qed.

(** The fields of a blank string are blank. *)
Lemma blank_fields (sep : N) (s f : jstring) :
  trim s = [] → f ∈ split sep s → trim f = [].
Proof.
  rewrite !trim_nil, !Forall_forall. intros Hs Hf c Hc.
  apply Hs. by eapply split_elem_of.
Qed.

Lemma split_app (sep : N) (s t : jstring) :
  split sep (s ++ sep :: t) = split sep s ++ split sep t.
Proof.
  induction s as [|c s IH].
  - simpl. by rewrite N.eqb_refl.
  - destruct (decide (c = sep)) as [->|Hne].
    + simpl. rewrite N.eqb_refl. simpl. by rewrite IH.
    + destruct (split_cons_ne sep c s) as (f & fs & E1 & E2); [done|].
      destruct (split_cons_ne sep c (s ++ sep :: t)) as (f' & fs' & E1' & E2');
        [done|].
      rewrite <- app_comm_cons, E2, E2'. rewrite IH, E1 in E1'.
      simpl in E1'. by injection E1' as <- <-.
Qed.

Section ParserLaws.
Context `{Host}.

Import AsSpecified.

Lemma lineEntry_nil (strip : jstring → jstring) :
  strip [] = [] → lineEntry strip [] = None.
Proof. intros E. unfold lineEntry. by rewrite E. Qed.

Lemma followedBy_empty_r (a : Index) : followedBy a ∅ = a.
Proof.
  apply map_eq. intros k. unfold followedBy.
  rewrite lookup_union_with, lookup_empty. by destruct (a !! k).
Qed.

Lemma append_followedBy (a b : Index) (key : jstring) (e : Entry) :
  append (followedBy a b) key e = followedBy a (append b key e).
Proof.
  apply map_eq. intros k. unfold append, followedBy.
  destruct (decide (key = k)) as [->|Hne].
  - rewrite lookup_insert_eq, !lookup_union_with, lookup_insert_eq.
    destruct (a !! k), (b !! k); simpl; by rewrite <- ?app_assoc.
  - rewrite lookup_insert_ne, !lookup_union_with, lookup_insert_ne by done.
    done.
Qed.

Lemma step_followedBy (strip : jstring → jstring) (a b : Index)
    (line : jstring) :
  step strip (followedBy a b) line = followedBy a (step strip b line).
Proof.
  unfold step. destruct (lineEntry strip line) as [[k e]|]; [|done].
  apply append_followedBy.
Qed.

(** The loop started on an Index gives that Index followed by what the
    loop gives when started on the empty one. *)
Lemma foldl_step_followedBy (strip : jstring → jstring)
    (lines : list jstring) (out : Index) :
  foldl (step strip) out lines
  = followedBy out (foldl (step strip) ∅ lines).
Proof.
  induction lines as [|line lines IH] using rev_ind.
  - simpl. by rewrite followedBy_empty_r.
  - rewrite !foldl_app. simpl. by rewrite IH, step_followedBy.
Qed.

Lemma parse_app (strip : jstring → jstring) (t1 t2 : jstring) :
  parse strip (t1 ++ LF :: t2)
  = followedBy (parse strip t1) (parse strip t2).
Proof.
  unfold parse. rewrite split_app, foldl_app. apply foldl_step_followedBy.
Qed.

(** X1: a sheet followed, after a line feed, by a second sheet parses to
    the Index of the first followed by the Index of the second: a key has
    the entries of the first sheet, then those of the second, each in the
    order of the lines.  A line feed at the end of a text changes
    nothing. *)
Theorem parseTSV_of_two_sheets (t1 t2 : jstring) :
  ∃ i1 i2 : Index,
    parseTSV t1 = Normal i1
    ∧ parseTSV t2 = Normal i2
    ∧ parseTSV (t1 ++ LF :: t2) = Normal (followedBy i1 i2)
    ∧ (∀ key, default [] (followedBy i1 i2 !! key)
              = default [] (i1 !! key) ++ default [] (i2 !! key))
    ∧ parseTSV (t1 ++ [LF]) = Normal i1.
Proof.
  exists (parse replaceCR t1), (parse replaceCR t2).
  rewrite !parseTSV_refines, !parse_app.
  do 3 (split; [done|]). split.
  - intros key. unfold followedBy. rewrite lookup_union_with.
    destruct (parse replaceCR t1 !! key), (parse replaceCR t2 !! key);
      simpl; by rewrite ?app_nil_r.
  - f_equal. replace (parse replaceCR []) with (∅ : Index).
    + apply followedBy_empty_r.
    + unfold parse. simpl. unfold step. by rewrite lineEntry_nil.
Qed.

Lemma populated_step (strip : jstring → jstring) (out : Index)
    (line : jstring) :
  populated out → populated (step strip out line).
Proof.
  intros Hout. unfold step.
  destruct (lineEntry strip line) as [[k e]|]; [|done].
  intros key es. unfold append.
  destruct (decide (k = key)) as [<-|Hne].
  - rewrite lookup_insert_eq. intros [= <-]. by destruct (default [] _).
  - rewrite lookup_insert_ne by done. apply Hout.
Qed.

Lemma populated_foldl (strip : jstring → jstring) (lines : list jstring)
    (out : Index) :
  populated out → populated (foldl (step strip) out lines).
Proof.
  revert out. induction lines as [|line lines IH]; intros out Hout; [done|].
  simpl. by apply IH, populated_step.
Qed.

Lemma populated_parse (strip : jstring → jstring) (text : jstring) :
  populated (parse strip text).
Proof. apply populated_foldl. intros key es. by rewrite lookup_empty. Qed.

Lemma wellFormed_parse (strip : jstring → jstring) (text : jstring) :
  wellFormed (parse strip text).
Proof. apply wellFormed_foldl, wellFormed_empty. Qed.

Lemma indexData_parse (text : jstring) :
  indexData (indexVal (parse replaceCR text)).
Proof.
  exists (parse replaceCR text).
  split; [done|]. split; [apply wellFormed_parse|apply populated_parse].
Qed.

(** A line with a value is not blank. *)
Lemma valued_line_not_blank (s f : jstring) :
  f ∈ split TAB s → trim f ≠ [] → isEmpty (trim s) = false.
Proof.
  intros Hf Hv. apply isEmpty_false. intros Hs. apply Hv.
  by eapply blank_fields.
Qed.

(** The gate, as the two tests of the loop body. *)
Lemma gate_tests (note key value : jstring) :
  gate note key value
  = if negb (isEmpty key || negb (length key =? 2)) && negb (isEmpty value)
    then Some (key, (note, value)) else None.
Proof.
  destruct (decide (length key = 2)) as [Hk|Hk].
  - assert (isEmpty key = false) as -> by (by destruct key).
    rewrite Hk. simpl. destruct value as [|c value]; simpl.
    + by rewrite gate_None by auto.
    + by rewrite gate_Some.
  - rewrite gate_None by auto.
    apply Nat.eqb_neq in Hk. rewrite Hk. simpl. by rewrite orb_true_r.
Qed.

(** What a line contributes is decided by its fields and the two tests:
    the test for a blank line rejects nothing they would let through. *)
Lemma lineEntry_fields (line : jstring) :
  lineEntry replaceCR line
  = match fieldsOf line with
    | Some (value1, key, value2) =>
        if passes line then Some (key, (value1, value2)) else None
    | None => None
    end.
Proof.
  unfold lineEntry, passes, fieldsOf.
  destruct (split TAB (replaceCR line)) as [|c0 [|c1 [|c2 rest]]] eqn:Hcols.
  - by destruct (isEmpty _).
  - by destruct (isEmpty _).
  - simpl. rewrite gate_tests.
    destruct (trim c1) as [|v value] eqn:Ev.
    + rewrite andb_false_r. by destruct (isEmpty _).
    + rewrite (valued_line_not_blank _ c1); [done| |by rewrite Ev].
      rewrite Hcols. set_solver.
  - simpl. rewrite gate_tests.
    destruct (trim c2) as [|v value] eqn:Ev.
    + rewrite andb_false_r. by destruct (isEmpty _).
    + rewrite (valued_line_not_blank _ c2); [done| |by rewrite Ev].
      rewrite Hcols. set_solver.
Qed.

(** X2: a turn of the loop of [parseTSV] is decided by the fields of the
    line and the two tests on the key and the value: a line with fewer than
    two fields, or failing a test, leaves the Index as it is, any other line
    appends its entry to the sequence of its key; the test for a blank line
    rejects nothing the two tests would let through.  Of a line with three
    fields or more the first three only are read: two lines with the same
    first three fields do the same to the Index. *)
Theorem loopBody_by_fields (out : Index) (line : jstring) :
  loopBody out line
  = Normal (match fieldsOf line with
            | Some (value1, key, value2) =>
                if passes line
                then <[key := default [] (out !! key) ++ [(value1, value2)]]>
                       out
                else out
            | None => out
            end)
  ∧ ∀ (line' c0 c1 c2 : jstring) (rest rest' : list jstring),
      split TAB (replaceCR line) = c0 :: c1 :: c2 :: rest →
      split TAB (replaceCR line') = c0 :: c1 :: c2 :: rest' →
      loopBody out line = loopBody out line'.
Proof.
  split.
  - rewrite loopBody_refines. unfold step. rewrite lineEntry_fields.
    destruct (fieldsOf line) as [[[value1 key] value2]|]; [|done].
    by destruct (passes line).
  - intros line' c0 c1 c2 rest rest' Hcols Hcols'.
    rewrite !loopBody_refines. unfold step. rewrite !lineEntry_fields.
    unfold passes, fieldsOf. by rewrite Hcols, Hcols'.
Qed.

(** The sequence of a key after the loop: what it was, then the entries
    the lines push under the key, in the order of the lines. *)
Lemma foldl_step_entries (lines : list jstring) (out : Index)
    (key : jstring) :
  default [] (foldl (step replaceCR) out lines !! key)
  = default [] (out !! key) ++ omap (entryFor key) lines.
Proof.
  revert out. induction lines as [|line lines IH]; intros out.
  - simpl. by rewrite app_nil_r.
  - simpl. rewrite IH. unfold step, entryFor. rewrite lineEntry_fields.
    destruct (fieldsOf line) as [[[value1 k] value2]|]; [|done].
    destruct (passes line); [|done]. simpl. unfold append.
    case_bool_decide as Hk.
    + subst k. rewrite lookup_insert_eq. simpl. by rewrite <- app_assoc.
    + by rewrite lookup_insert_ne.
Qed.

Lemma parse_exact (text key : jstring) :
  parse replaceCR text !! key
  = match omap (entryFor key) (split LF text) with
    | [] => None
    | es => Some es
    end.
Proof.
  pose proof (foldl_step_entries (split LF text) ∅ key) as Hes.
  rewrite lookup_empty in Hes. simpl in Hes. fold (parse replaceCR text) in Hes.
  destruct (parse replaceCR text !! key) as [es|] eqn:E; simpl in Hes.
  - rewrite <- Hes. destruct es; [by apply populated_parse in E|done].
  - by rewrite <- Hes.
Qed.

(** X3: the Index [parseTSV] returns is exactly this: under a key, the
    entries of the lines that have this key and pass the two tests, in the
    order of the lines, and no key without such a line.  So the Index has
    one entry for each line that passes, none is lost and none is added. *)
Theorem parseTSV_exact (text : jstring) :
  ∃ idx : Index,
    parseTSV text = Normal idx
    ∧ (∀ key, idx !! key
              = match omap (entryFor key) (split LF text) with
                | [] => None
                | es => Some es
                end)
    ∧ (∀ key value1 value2,
         (∃ es, idx !! key = Some es ∧ (value1, value2) ∈ es)
         ↔ ∃ line, line ∈ split LF text
                   ∧ passes line = true
                   ∧ fieldsOf line = Some (value1, key, value2)).
Proof.
  exists (parse replaceCR text). split; [apply parseTSV_refines|].
  split; [intros key; apply parse_exact|].
  intros key value1 value2. rewrite parse_exact.
  assert ((value1, value2) ∈ omap (entryFor key) (split LF text)
          ↔ ∃ line, line ∈ split LF text ∧ passes line = true
                    ∧ fieldsOf line = Some (value1, key, value2)) as <-.
  { rewrite list_elem_of_omap. split.
    - intros (line & Hin & Hentry). exists line. split; [done|].
      unfold entryFor in Hentry.
      destruct (fieldsOf line) as [[[v1 k] v2]|]; [|done].
      destruct (passes line); [|done]. simpl in Hentry.
      case_bool_decide; [|done]. by simplify_eq.
    - intros (line & Hin & Hpass & Hfields). exists line. split; [done|].
      unfold entryFor. rewrite Hfields, Hpass. simpl.
      by rewrite bool_decide_eq_true_2. }
  destruct (omap (entryFor key) (split LF text)) as [|e es].
  - split; [by intros (es & ? & _)|]. by intros ?%elem_of_nil.
  - split; [by intros (es' & [= <-] & ?)|]. eauto.
Qed.

End ParserLaws.

(** ** Further properties of the lookup *)

Section LookupLaws.
Context `{Host}.

Import AsSpecified.

Lemma readProp_throws (v : jsval) (name : jstring) (err : Exn) :
  readProp v name = Throw err → err = TypeError.
Proof. destruct v; simpl; congruence. Qed.

Lemma destructure2_throws (v : jsval) (err : Exn) :
  destructure2 v = Throw err → err = TypeError.
Proof. destruct v; simpl; congruence. Qed.

Lemma textOf_throws (v : jsval) (err : Exn) :
  textOf v = Throw err → err = TypeError.
Proof. destruct v; simpl; try congruence; apply ToString_throws. Qed.

(** The four ways [lookup] ends: refused before the status is written,
    "No results", refused when the texts of the card are made, or "Found"
    with a card. *)
Lemma lookup_cases (key : jstring) (st : App) :
  lookup key st = (Throw TypeError, set_resultCards [] st)
  ∨ lookup key st
    = (Normal tt, set_statusText (js "No results") (set_resultCards [] st))
  ∨ lookup key st
    = (Throw TypeError, set_statusText (js "Found") (set_resultCards [] st))
  ∨ ∃ note value,
      lookup key st
      = (Normal tt,
         set_resultCards
           [{| cardKey := key; cardNote := note; cardValue2 := value |}]
           (set_statusText (js "Found") (set_resultCards [] st))).
Proof.
  unfold lookup. run_eff. rewrite !updateStatus_plain. run_eff.
  destruct (readProp (getData st) key) as [[entries|len|]|e1] eqn:E1.
  4: { apply readProp_throws in E1 as ->. by left. }
  3: { right. by left. }
  2: { destruct (strictEqZero len); [right|]; by left. }
  destruct (toBoolean entries) eqn:Etrue; simpl; [|right; by left].
  destruct (getProp_truthy entries (js "length") Etrue) as [len ->].
  destruct (getProp_truthy entries (js "0") Etrue) as [first ->].
  destruct (strictEqZero len); [right; by left|].
  destruct (destructure2 first) as [[value1 value2]|e2] eqn:E2.
  2: { apply destructure2_throws in E2 as ->. by left. }
  destruct (toBoolean value1).
  - destruct (ToString value1) as [note|e3] eqn:E3.
    2: { apply ToString_throws in E3 as ->. right. right. by left. }
    destruct (textOf value2) as [value|e4] eqn:E4.
    2: { apply textOf_throws in E4 as ->. right. right. by left. }
    right. right. right. by exists (Some note), value.
  - destruct (textOf value2) as [value|e4] eqn:E4.
    2: { apply textOf_throws in E4 as ->. right. right. by left. }
    right. right. right. by exists None, value.
Qed.

(** X17: whatever the active data is (an Index or any other value, as an
    unvalidated snapshot may leave), [lookup] writes the status and the
    result and nothing else; it leaves at most one card; when it ends
    normally the status is "Found" with exactly one card or "No results"
    with none; and when it throws, which it does with a TypeError only, the
    result is empty and the status is as it was, or is "Found" when the
    error is that of the texts of the card. *)
Theorem lookup_writes_result_only (key : jstring) (st : App) :
  let r := (lookup key st).1 in
  let st' := (lookup key st).2 in
  dataCorner st' = dataCorner st
  ∧ dataEdge st' = dataEdge st
  ∧ active st' = active st
  ∧ localStorage st' = localStorage st
  ∧ requests st' = requests st
  ∧ clockReads st' = clockReads st
  ∧ refreshDisabled st' = refreshDisabled st
  ∧ length (resultCards st') ≤ 1
  ∧ (r = Normal tt →
     (statusText st' = js "Found" ∧ length (resultCards st') = 1)
     ∨ (statusText st' = js "No results" ∧ resultCards st' = []))
  ∧ (r ≠ Normal tt →
     r = Throw TypeError
     ∧ resultCards st' = []
     ∧ (statusText st' = statusText st ∨ statusText st' = js "Found")).
Proof.
  destruct (lookup_cases key st) as [->|[->|[->|(note & value & ->)]]];
    cbn [fst snd]; repeat split; auto; try done.
Qed.

(** X4: on the Index [parseTSV] returns for a text, [lookup] shows the
    first line of the text that has the key and passes the two tests: the
    status is "Found" and the card is the one of this line, with a value
    that is not empty; when no line has the key and passes, and the key
    names no property of the prototype chain of the Index either, the
    status is "No results".  The test for an empty sequence never holds on
    a key of the Index. *)
Theorem lookup_on_parsed_text (text key : jstring) (st : App) :
  ∃ idx : Index,
    parseTSV text = Normal idx
    ∧ (∀ k es, idx !! k = Some es → es ≠ [])
    ∧ (getData st = indexVal idx →
       (idx !! key = None → inheritedLength (indexVal idx) key = None) →
       ∃ st', lookup key st = (Normal tt, st')
         ∧ match omap (entryFor key) (split LF text) with
           | [] => statusText st' = js "No results" ∧ resultCards st' = []
           | (note, value) :: _ =>
               value ≠ []
               ∧ statusText st' = js "Found"
               ∧ resultCards st'
                 = [{| cardKey := key;
                       cardNote := if isEmpty note then None else Some note;
                       cardValue2 := value |}]
           end).
Proof.
  exists (parse replaceCR text). split; [apply parseTSV_refines|].
  split; [apply populated_parse|].
  intros Hdata Hkey. rewrite (lookup_on_index key _ st Hdata).
  pose proof (wellFormed_parse replaceCR text key) as Hwf.
  rewrite parse_exact in Hwf, Hkey |- *.
  destruct (omap (entryFor key) (split LF text)) as [|[note value] rest].
  - rewrite Hkey by done. by eexists.
  - eexists. split; [reflexivity|]. split; [|done].
    destruct (Hwf _ eq_refl) as (_ & _ & Hv). apply (Hv (note, value)). left.
Qed.

(** X5: lines added at the end of a sheet change nothing of what [lookup]
    shows for a key the sheet has: the sequence of the key in the longer
    sheet starts with its sequence in the shorter one, and the card is the
    same. *)
Theorem lookup_stable_under_added_lines (t1 t2 key : jstring)
    (st1 st2 : App) :
  ∃ i1 i : Index,
    parseTSV t1 = Normal i1
    ∧ parseTSV (t1 ++ LF :: t2) = Normal i
    ∧ (∀ es, i1 !! key = Some es → ∃ es', i !! key = Some (es ++ es'))
    ∧ (is_Some (i1 !! key) →
       getData st1 = indexVal i1 → getData st2 = indexVal i →
       (lookup key st2).1 = Normal tt
       ∧ statusText (lookup key st2).2 = js "Found"
       ∧ resultCards (lookup key st2).2 = resultCards (lookup key st1).2).
Proof.
  exists (parse replaceCR t1), (parse replaceCR (t1 ++ LF :: t2)).
  rewrite !parseTSV_refines. do 2 (split; [done|]).
  assert (∀ es, parse replaceCR t1 !! key = Some es →
            ∃ es', parse replaceCR (t1 ++ LF :: t2) !! key = Some (es ++ es'))
    as Hpre.
  { intros es Hes. rewrite parse_app. unfold followedBy.
    rewrite lookup_union_with, Hes.
    destruct (parse replaceCR t2 !! key) as [es2|]; simpl; [eauto|].
    exists []. by rewrite app_nil_r. }
  split; [done|].
  intros [es Hes] Hd1 Hd2. destruct (Hpre es Hes) as [es' Hes'].
  rewrite (lookup_on_index key _ st1 Hd1), (lookup_on_index key _ st2 Hd2).
  rewrite Hes, Hes'.
  destruct es as [|[note value] rest]; [by apply populated_parse in Hes|].
  done.
Qed.

(** X20: [lookup] reads the selected data set and nothing else of the
    state: in two states with the same selected data (whatever the other
    data set, the store, the status and the cards are) it ends the same
    way, with the same cards, and, when it ends normally, with the same
    status. *)
Theorem lookup_reads_selected_data_only (key : jstring) (st1 st2 : App) :
  getData st1 = getData st2 →
  (lookup key st1).1 = (lookup key st2).1
  ∧ resultCards (lookup key st1).2 = resultCards (lookup key st2).2
  ∧ ((lookup key st1).1 = Normal tt →
     statusText (lookup key st1).2 = statusText (lookup key st2).2).
Proof.
  intros Hdata. unfold lookup. run_eff. rewrite !updateStatus_plain. run_eff.
  rewrite Hdata.
  destruct (readProp (getData st2) key) as [[entries|len|]|e1]; [| |done..].
  2: { by destruct (strictEqZero len). }
  destruct (toBoolean entries) eqn:Etrue; simpl; [|done].
  destruct (getProp_truthy entries (js "length") Etrue) as [len ->].
  destruct (getProp_truthy entries (js "0") Etrue) as [first ->].
  destruct (strictEqZero len); [done|].
  destruct (destructure2 first) as [[value1 value2]|]; [|done].
  destruct (toBoolean value1).
  - destruct (ToString value1); [|done]. by destruct (textOf value2).
  - by destruct (textOf value2).
Qed.

End LookupLaws.

(** ** Further properties of the controller *)

Section ControllerLaws.
Context `{Host}.

Import AsSpecified.

Lemma fetchData_blocks (cornerOut edgeOut : FetchOutcome) :
  fetchData cornerOut edgeOut
  = finally (tryCatch (fetchData_try cornerOut edgeOut)
                      (λ _, fetchData_catch))
            (modify (set_refreshDisabled false)).
Proof. done. Qed.

Lemma loadCache_frame (st st' : App) :
  localStorage st' = localStorage st → loadCache st' = loadCache st.
Proof. intros E. unfold loadCache. by rewrite E. Qed.

Lemma getProp_payload_timeText time timeText (c e : jsval) :
  getProp (payload time timeText c e) (js "timeText") = Normal (VStr timeText).
Proof.
  unfold payload, getProp.
  rewrite !lookup_insert_ne by (intros E; vm_compute in E; done).
  by rewrite lookup_insert_eq.
Qed.

Lemma loadCache_stored (raw : jstring) (v : jsval)
    (m : gmap jstring jstring) (st : App) :
  JSON_parse raw = Some v → raw ≠ [] →
  loadCache (set_localStorage (<[CACHE_KEY := raw]> m) st) = v.
Proof.
  intros Hparse Hne. unfold loadCache. simpl localStorage.
  rewrite lookup_insert_eq. apply isEmpty_false in Hne.
  by rewrite Hne, Hparse.
Qed.

(** The snapshot is read back from the store. *)
Lemma loadCache_snapshot (c e : jsval) (m : gmap jstring jstring)
    (st0 st : App) :
  faithfulJSON → jsonData c → jsonData e →
  loadCache (set_localStorage
               (<[CACHE_KEY := JSON_stringify (snapshotAt st0 c e)]> m) st)
  = snapshotAt st0 c e.
Proof.
  intros [Hlaw Hne] Hc He. apply loadCache_stored.
  - by apply Hlaw, jsonData_payload.
  - apply Hne.
Qed.

(** The [catch] block: with a snapshot its fields become the data, and the
    status is written when the time text converts to a string, the
    TypeError of the conversion leaving the block otherwise; without a
    snapshot the data stay as they were. *)
Lemma fetchData_catch_runs (st : App) :
  ∃ r st', fetchData_catch st = (r, st')
    ∧ active st' = active st
    ∧ localStorage st' = localStorage st
    ∧ requests st' = requests st
    ∧ clockReads st' = clockReads st
    ∧ refreshDisabled st' = refreshDisabled st
    ∧ resultCards st' = resultCards st
    ∧ if toBoolean (loadCache st)
      then getProp (loadCache st) (js "corner") = Normal (dataCorner st')
           ∧ getProp (loadCache st) (js "edge") = Normal (dataEdge st')
           ∧ ∃ t, getProp (loadCache st) (js "timeText") = Normal t
                  ∧ match ToString t with
                    | Normal text =>
                        r = Normal tt
                        ∧ statusText st'
                          = (js "Offline " ++ [8212%N] ++ js " using cache")
                            ++ bullet ++ js "Last: " ++ text
                    | Throw err =>
                        r = Throw err ∧ statusText st' = statusText st
                    end
      else r = Normal tt
           ∧ dataCorner st' = dataCorner st
           ∧ dataEdge st' = dataEdge st
           ∧ statusText st' = js "No data available".
Proof.
  unfold fetchData_catch. run_eff.
  destruct (toBoolean (loadCache st)) eqn:Hcache.
  - destruct (getProp_truthy _ (js "corner") Hcache) as [c Hc].
    destruct (getProp_truthy _ (js "edge") Hcache) as [e He].
    destruct (getProp_truthy _ (js "timeText") Hcache) as [t Ht].
    rewrite Hc, He, Ht.
    destruct (ToString t) as [text|err] eqn:Et.
    + rewrite updateStatus_last. run_eff.
      eexists _, _. split; [reflexivity|]. do 6 (split; [done|]).
      do 2 (split; [done|]). exists t. by rewrite Et.
    + eexists _, _. split; [reflexivity|]. do 6 (split; [done|]).
      do 2 (split; [done|]). exists t. by rewrite Et.
  - rewrite updateStatus_plain. run_eff.
    eexists _, _. split; [reflexivity|]. by repeat split.
Qed.

Lemma fetchData_try_failed (cornerOut edgeOut : FetchOutcome) (st : App) :
  refreshFailed cornerOut edgeOut →
  ∃ err, fetchData_try cornerOut edgeOut st = (Throw err, requested st).
Proof.
  intros Hfail. unfold fetchData_try, requested.
  rewrite updateStatus_plain.
  destruct cornerOut as [[okc bc]|], edgeOut as [[oke be]|];
    simpl in Hfail; run_eff; cbn [ok body requests set_requests
      set_refreshDisabled set_statusText].
  2-4: by rewrite <- app_assoc; eexists.
  destruct okc, oke; simpl; run_eff;
    try by (rewrite <- app_assoc; eexists).
  destruct bc as [ct|]; run_eff; [|by rewrite <- app_assoc; eexists].
  destruct be as [et|]; run_eff; [|by rewrite <- app_assoc; eexists].
  by destruct Hfail as [?|[?|[?|?]]].
Qed.

(** A refresh that fails runs the [catch] block after the requests. *)
Lemma fetchData_failed_run (cornerOut edgeOut : FetchOutcome) (st : App) :
  refreshFailed cornerOut edgeOut →
  ∃ r st2, fetchData_catch (requested st) = (r, st2)
    ∧ fetchData cornerOut edgeOut st = (r, set_refreshDisabled false st2).
Proof.
  intros Hfail. rewrite fetchData_blocks. unfold finally, tryCatch.
  destruct (fetchData_try_failed cornerOut edgeOut st Hfail) as [err ->].
  destruct (fetchData_catch_runs (requested st)) as (r & st2 & Hrun & _).
  exists r, st2. split; [done|]. by rewrite Hrun.
Qed.

(** The [try] block when the two sheets are retrieved. *)
Lemma fetchData_answered_run (ct et : jstring) (st : App) :
  faithfulJSON →
  fetchData (answered ct) (answered et) st
  = (Normal tt, afterRefresh (parse replaceCR ct) (parse replaceCR et) st).
Proof.
  intros Hjson. rewrite fetchData_blocks. unfold finally, tryCatch.
  unfold fetchData_try, answered.
  rewrite updateStatus_plain. run_eff. cbn [ok body negb orb]. run_eff.
  rewrite !parseTSV_refines. run_eff.
  cbn [dataCorner dataEdge set_dataCorner set_dataEdge].
  rewrite saveCache_run.
  cbn [clockReads localStorage set_dataCorner set_dataEdge set_requests
       set_refreshDisabled set_statusText].
  fold (snapshotAt st (indexVal (parse replaceCR ct))
          (indexVal (parse replaceCR et))).
  rewrite loadCache_snapshot by (done || apply jsonData_indexVal).
  unfold snapshotAt at 1. rewrite getProp_payload_timeText.
  rewrite ToString_str, updateStatus_last. run_eff.
  unfold afterRefresh, requested.
  cbn [requests set_requests set_refreshDisabled set_statusText
       set_dataCorner set_dataEdge set_localStorage set_clockReads
       dataCorner dataEdge active statusText resultCards refreshDisabled
       localStorage clockReads].
  by rewrite <- app_assoc.
Qed.

Lemma loadCache_afterRefresh (A B : Index) (st : App) :
  faithfulJSON →
  loadCache (afterRefresh A B st) = snapshotAt st (indexVal A) (indexVal B).
Proof.
  intros Hjson.
  apply (loadCache_snapshot (indexVal A) (indexVal B) (localStorage st) st
           (set_clockReads (S (S (clockReads st)))
              (set_dataEdge (indexVal B)
                 (set_dataCorner (indexVal A) (requested st)))));
    [done|apply jsonData_indexVal..].
Qed.

(** The outcomes of the two requests: a failed refresh, or two sheets. *)
Lemma refresh_cases (cornerOut edgeOut : FetchOutcome) :
  refreshFailed cornerOut edgeOut
  ∨ ∃ ct et, cornerOut = answered ct ∧ edgeOut = answered et.
Proof.
  destruct cornerOut as [[[] [ct|]]|], edgeOut as [[[] [et|]]|];
    try (left; simpl; tauto).
  right. by exists ct, et.
Qed.

(** Whatever the [try] block does, the two requests have left, and the
    selection and the result are as they were. *)
Lemma fetchData_try_frame (cornerOut edgeOut : FetchOutcome) (st : App) :
  requests (fetchData_try cornerOut edgeOut st).2
  = requests st ++ [URLS corner; URLS edge]
  ∧ active (fetchData_try cornerOut edgeOut st).2 = active st
  ∧ resultCards (fetchData_try cornerOut edgeOut st).2 = resultCards st.
Proof.
  destruct (refresh_cases cornerOut edgeOut)
    as [Hfail|(ct & et & -> & ->)].
  - destruct (fetchData_try_failed cornerOut edgeOut st Hfail) as [err ->].
    done.
  - unfold answered.
    unfold fetchData_try. rewrite updateStatus_plain. run_eff.
    cbn [ok body negb orb]. run_eff. rewrite !parseTSV_refines. run_eff.
    rewrite saveCache_run.
    match goal with
    | |- context [getProp ?c ?n] => destruct (getProp c n) as [t|]
    end; [destruct (ToString t); [unfold updateStatus; run_eff|]|];
      cbn [snd requests active resultCards set_requests set_refreshDisabled
           set_statusText set_dataCorner set_dataEdge set_localStorage
           set_clockReads]; by rewrite <- app_assoc.
Qed.

Lemma fetchData_cleans_up (cornerOut edgeOut : FetchOutcome) (st : App) :
  ∃ r st', fetchData cornerOut edgeOut st = (r, st')
    ∧ refreshDisabled st' = false
    ∧ requests st' = requests st ++ [URLS corner; URLS edge]
    ∧ active st' = active st
    ∧ resultCards st' = resultCards st
    ∧ endedBy r st'.
Proof.
  rewrite fetchData_blocks. unfold finally, tryCatch.
  destruct (fetchData_try_frame cornerOut edgeOut st) as (Hreq & Hact & Hres).
  destruct (fetchData_try cornerOut edgeOut st) as [[[]|err] st1];
    simpl in Hreq, Hact, Hres.
  - run_eff. eexists _, _. split; [reflexivity|]. repeat split; try done.
    by left.
  - destruct (fetchData_catch_runs st1)
      as (r & st2 & -> & Hact2 & Hls & Hreq2 & _ & _ & Hres2 & Hdata).
    run_eff. eexists _, _. split; [reflexivity|].
    do 4 (split; [simpl; congruence|]).
    unfold endedBy.
    rewrite (loadCache_frame st1 (set_refreshDisabled false st2)) by done.
    destruct (toBoolean (loadCache st1)); [|left; by destruct Hdata].
    destruct Hdata as (_ & _ & t & Ht & Hr).
    destruct (ToString t) as [text|err'] eqn:Et; [left; by destruct Hr|].
    apply ToString_throws in Et as Herr. subst err'.
    right. destruct Hr as [-> _]. split; [done|]. split; [done|].
    by exists t.
Qed.

(** X6: the [finally] block of [fetchData] always runs, whatever the
    network answers and whatever the host's JSON functions do: when
    [fetchData] ends the refresh button is enabled, exactly two requests
    have been sent, to the corner sheet and to the edge sheet in this order,
    and the selection and the result are as they were.  No error of the
    retrieval, of the reading of a body or of the parsing leaves it: it ends
    normally, or on the one TypeError of the [catch] block, that of a
    snapshot in the store whose time text does not convert to a string.
    [init] ends in one of these two ways as well, having sent the two
    requests or none. *)
Theorem fetchData_always_cleans_up (cornerOut edgeOut : FetchOutcome)
    (st : App) :
  (∃ r st', fetchData cornerOut edgeOut st = (r, st')
     ∧ refreshDisabled st' = false
     ∧ requests st' = requests st ++ [URLS corner; URLS edge]
     ∧ active st' = active st
     ∧ resultCards st' = resultCards st
     ∧ (r = Normal tt
        ∨ (r = Throw TypeError
           ∧ toBoolean (loadCache st') = true
           ∧ ∃ t, getProp (loadCache st') (js "timeText") = Normal t
                  ∧ ToString t = Throw TypeError)))
  ∧ (∃ r st', init cornerOut edgeOut st = (r, st')
       ∧ (requests st' = requests st
          ∨ requests st' = requests st ++ [URLS corner; URLS edge])
       ∧ active st' = active st
       ∧ (r = Normal tt
          ∨ (r = Throw TypeError
             ∧ toBoolean (loadCache st') = true
             ∧ ∃ t, getProp (loadCache st') (js "timeText") = Normal t
                    ∧ ToString t = Throw TypeError))).
Proof.
  split; [apply fetchData_cleans_up|].
  destruct (toBoolean (loadCache st)) eqn:Hcache.
  - destruct (init_on_snapshot cornerOut edgeOut st Hcache)
      as (c & e & t & _ & _ & Ht & ->).
    destruct (ToString t) as [text|err] eqn:Et.
    + eexists _, _. split; [reflexivity|]. split; [by left|].
      split; [done|by left].
    + apply ToString_throws in Et as Herr. subst err.
      eexists _, _. split; [reflexivity|]. split; [by left|].
      split; [done|]. right. split; [done|]. split; [done|]. by exists t.
  - rewrite init_without_snapshot by done.
    destruct (fetchData_cleans_up cornerOut edgeOut
                (set_statusText
                   (js "No cache " ++ [8212%N] ++ js " fetching...") st))
      as (r & st' & -> & _ & Hreq & Hact & _ & Hend).
    exists r, st'. split; [done|]. split; [by right|]. by split.
Qed.

(** X7: when the two sheets are retrieved, on a host with faithful JSON
    functions, [fetchData] ends with the two parsed Indices as data, with
    the snapshot of these two Indices in the store, and with the status
    "Updated" followed by the time text of that very snapshot, the one
    [loadCache] gives from then on. *)
Theorem fetchData_updated (ct et : jstring) (st : App) :
  faithfulJSON →
  ∃ (A B : Index) (st' : App),
    parseTSV ct = Normal A
    ∧ parseTSV et = Normal B
    ∧ fetchData (answered ct) (answered et) st = (Normal tt, st')
    ∧ dataCorner st' = indexVal A
    ∧ dataEdge st' = indexVal B
    ∧ loadCache st'
      = payload (wallClock (clockReads st))
                (toLocaleString (wallClock (S (clockReads st))))
                (indexVal A) (indexVal B)
    ∧ statusText st'
      = js "Updated" ++ bullet ++ js "Last: "
        ++ toLocaleString (wallClock (S (clockReads st)))
    ∧ getProp (loadCache st') (js "timeText")
      = Normal (VStr (toLocaleString (wallClock (S (clockReads st)))))
    ∧ clockReads st' = S (S (clockReads st))
    ∧ refreshDisabled st' = false
    ∧ requests st' = requests st ++ [URLS corner; URLS edge]
    ∧ active st' = active st.
Proof.
  intros Hjson. exists (parse replaceCR ct), (parse replaceCR et).
  rewrite !parseTSV_refines, fetchData_answered_run by done.
  eexists. do 3 (split; [reflexivity|]).
  rewrite loadCache_afterRefresh by done.
  unfold snapshotAt. rewrite getProp_payload_timeText. by repeat split.
Qed.

(** X8: when the refresh fails before anything is parsed (a rejected
    request, a response that is not ok, or a body that cannot be read),
    [fetchData] falls back on the store, which it leaves as it is.  With a
    snapshot the data become its [corner] and [edge], and the status is
    "Offline — using cache" with its time text when this converts to a
    string (when it does not, the TypeError of the conversion leaves
    [fetchData], with the status "Updating..."); without one the data stay
    as they were and the status is "No data available".  In every case the
    refresh button is enabled again and the two requests were sent. *)
Theorem fetchData_falls_back (cornerOut edgeOut : FetchOutcome) (st : App) :
  refreshFailed cornerOut edgeOut →
  ∃ r st', fetchData cornerOut edgeOut st = (r, st')
    ∧ localStorage st' = localStorage st
    ∧ clockReads st' = clockReads st
    ∧ refreshDisabled st' = false
    ∧ requests st' = requests st ++ [URLS corner; URLS edge]
    ∧ active st' = active st
    ∧ if toBoolean (loadCache st)
      then getProp (loadCache st) (js "corner") = Normal (dataCorner st')
           ∧ getProp (loadCache st) (js "edge") = Normal (dataEdge st')
           ∧ ∃ t, getProp (loadCache st) (js "timeText") = Normal t
                  ∧ match ToString t with
                    | Normal text =>
                        r = Normal tt
                        ∧ statusText st'
                          = (js "Offline " ++ [8212%N] ++ js " using cache")
                            ++ bullet ++ js "Last: " ++ text
                    | Throw err =>
                        r = Throw TypeError
                        ∧ statusText st' = js "Updating..."
                    end
      else r = Normal tt
           ∧ dataCorner st' = dataCorner st
           ∧ dataEdge st' = dataEdge st
           ∧ statusText st' = js "No data available".
Proof.
  intros Hfail.
  destruct (fetchData_failed_run cornerOut edgeOut st Hfail)
    as (r & st2 & Hcatch & ->).
  destruct (fetchData_catch_runs (requested st))
    as (r' & st2' & Hrun & Hact & Hls & Hreq & Hclock & _ & _ & Hdata).
  rewrite Hcatch in Hrun. injection Hrun as <- <-.
  eexists _, _. split; [reflexivity|]. do 5 (split; [done|]).
  replace (loadCache (requested st)) with (loadCache st) in Hdata by done.
  destruct (toBoolean (loadCache st)); [|done].
  destruct Hdata as (Hc & He & t & Ht & Hr).
  do 2 (split; [done|]). exists t. split; [done|].
  destruct (ToString t) as [text|err] eqn:Et; [done|].
  apply ToString_throws in Et as ->. destruct Hr as [-> Hs].
  split; [done|]. simpl. by rewrite Hs.
Qed.

(** X9: a refresh that went well survives the closing of the page: when
    [init] finds no snapshot and retrieves the two sheets, the page opened
    again on the storage it left adopts the same two Indices without
    sending a request, whatever the network would answer, and shows the
    time text the refresh showed. *)
Theorem refresh_then_reopen (ct et : jstring) (st : App)
    (cornerOut edgeOut : FetchOutcome) :
  faithfulJSON →
  toBoolean (loadCache st) = false →
  let st1 := (init (answered ct) (answered et) st).2 in
  let st2 := started (localStorage st1) cornerOut edgeOut in
  let shown := toLocaleString (wallClock (S (clockReads st))) in
  ∃ A B : Index,
    parseTSV ct = Normal A
    ∧ parseTSV et = Normal B
    ∧ dataCorner st1 = indexVal A
    ∧ dataEdge st1 = indexVal B
    ∧ statusText st1 = js "Updated" ++ bullet ++ js "Last: " ++ shown
    ∧ dataCorner st2 = indexVal A
    ∧ dataEdge st2 = indexVal B
    ∧ statusText st2
      = js "Loaded from cache" ++ bullet ++ js "Last: " ++ shown
    ∧ requests st2 = [].
Proof.
  intros Hjson Hcache st1 st2 shown.
  exists (parse replaceCR ct), (parse replaceCR et).
  rewrite !parseTSV_refines. do 2 (split; [done|]).
  assert (st1 = afterRefresh (parse replaceCR ct) (parse replaceCR et)
                  (set_statusText
                     (js "No cache " ++ [8212%N] ++ js " fetching...") st))
    as Hst1.
  { unfold st1. rewrite init_without_snapshot by done.
    by rewrite fetchData_answered_run. }
  do 3 (split; [by rewrite Hst1|]).
  assert (loadCache (initialApp (localStorage st1))
          = snapshotAt st (indexVal (parse replaceCR ct))
              (indexVal (parse replaceCR et))) as Hload.
  { rewrite (loadCache_frame st1) by done.
    rewrite Hst1. by rewrite loadCache_afterRefresh. }
  destruct (init_on_snapshot cornerOut edgeOut (initialApp (localStorage st1)))
    as (c & e & t & Hc & He & Ht & Hinit); [by rewrite Hload|].
  unfold st2, started. rewrite Hinit. rewrite Hload in Hc, He, Ht.
  unfold snapshotAt in Hc, He, Ht.
  rewrite getProp_payload_corner in Hc. rewrite getProp_payload_edge in He.
  rewrite getProp_payload_timeText in Ht.
  injection Hc as <-. injection He as <-. injection Ht as <-.
  by repeat split.
Qed.

(** X10: the store has one slot: a second [saveCache] replaces the
    snapshot of the first, which [loadCache] no longer gives; the storage
    is what the second call alone would have left, every other key of the
    storage is as it was, and each call reads the clock twice. *)
Theorem saveCache_overwrites (c1 e1 c2 e2 : jsval) (st : App) :
  faithfulJSON →
  jsonData c2 → jsonData e2 →
  ∃ st1 st2,
    saveCache c1 e1 st = (Normal tt, st1)
    ∧ saveCache c2 e2 st1 = (Normal tt, st2)
    ∧ loadCache st2 = snapshotAt st1 c2 e2
    ∧ getProp (loadCache st2) (js "corner") = Normal c2
    ∧ getProp (loadCache st2) (js "edge") = Normal e2
    ∧ localStorage st2
      = <[CACHE_KEY := JSON_stringify (snapshotAt st1 c2 e2)]>
          (localStorage st)
    ∧ (∀ k, k ≠ CACHE_KEY → localStorage st2 !! k = localStorage st !! k)
    ∧ clockReads st2 = 4 + clockReads st
    ∧ dataCorner st2 = dataCorner st
    ∧ dataEdge st2 = dataEdge st.
Proof.
  intros Hjson Hc2 He2. rewrite saveCache_run. eexists. eexists.
  split; [reflexivity|]. rewrite saveCache_run. split; [reflexivity|].
  cbn [clockReads localStorage set_localStorage set_clockReads].
  match goal with
  | |- context [payload ?t ?tt c2 e2] =>
      change (payload t tt c2 e2)
        with (snapshotAt
                (set_localStorage
                   (<[CACHE_KEY :=
                        JSON_stringify
                          (payload (wallClock (clockReads st))
                             (toLocaleString (wallClock (S (clockReads st))))
                             c1 e1)]> (localStorage st))
                   (set_clockReads (S (S (clockReads st))) st)) c2 e2)
  end.
  rewrite loadCache_snapshot by done.
  split; [done|]. unfold snapshotAt at 1 2.
  rewrite getProp_payload_corner, getProp_payload_edge.
  do 2 (split; [done|]). rewrite insert_insert_eq.
  split; [done|]. split; [|done].
  intros k Hk. by rewrite lookup_insert_ne.
Qed.

(** X11: a snapshot is adopted without a look at its fields, and [lookup]
    pays for it: when the value [loadCache] gives has no [corner] (a
    number, say, or an object without this field), [init] leaves
    [undefined] as corner data and sends no request; it ends with the status
    "Loaded from cache" and whatever the [timeText] of the value converts
    to, "undefined" when it has none, or on the TypeError of this conversion
    with the status as it was.  Every [lookup] on the corner data then
    throws a TypeError, with the result emptied and the status as [init]
    left it. *)
Theorem lookup_after_unvalidated_snapshot (cornerOut edgeOut : FetchOutcome)
    (key : jstring) (st : App) :
  toBoolean (loadCache st) = true →
  getProp (loadCache st) (js "corner") = Normal VUndef →
  active st = corner →
  ∃ r st', init cornerOut edgeOut st = (r, st')
    ∧ dataCorner st' = VUndef
    ∧ requests st' = requests st
    ∧ (∃ t, getProp (loadCache st) (js "timeText") = Normal t
            ∧ match ToString t with
              | Normal text =>
                  r = Normal tt
                  ∧ statusText st'
                    = js "Loaded from cache" ++ bullet ++ js "Last: " ++ text
              | Throw err =>
                  r = Throw TypeError ∧ statusText st' = statusText st
              end)
    ∧ lookup key st' = (Throw TypeError, set_resultCards [] st').
Proof.
  intros Hcache Hcorner Hact.
  destruct (init_on_snapshot cornerOut edgeOut st Hcache)
    as (c & e & t & Hc & He & Ht & ->).
  rewrite Hcorner in Hc. injection Hc as <-.
  assert (∀ s, lookup key (set_statusText s (set_dataEdge e
                              (set_dataCorner VUndef st)))
               = (Throw TypeError,
                  set_resultCards [] (set_statusText s (set_dataEdge e
                                        (set_dataCorner VUndef st)))))
    as Hlookup.
  { intros s. unfold lookup, getData. run_eff.
    cbn [active set_statusText set_dataEdge set_dataCorner dataCorner].
    by rewrite Hact. }
  destruct (ToString t) as [text|err] eqn:Et.
  - eexists _, _. split; [reflexivity|]. do 2 (split; [done|]).
    split; [|apply Hlookup]. exists t. by rewrite Et.
  - apply ToString_throws in Et as Herr. subst err.
    eexists _, _. split; [reflexivity|]. do 2 (split; [done|]).
    split; [exists t; by rewrite Et|].
    apply (Hlookup (statusText st)).
Qed.

End ControllerLaws.

(** ** Properties of the listeners *)

Section ListenerLaws.
Context `{Host}.

Import AsSpecified.

(** X12: the switch is a toggle: one click selects the other data set and
    names it in the status, a second click selects the first again.  A click
    changes neither data set, and leaves the card of the last lookup, which
    was made on the other data set, as it is. *)
Theorem switchActive_toggles (st : App) :
  let st1 := (switchActive st).2 in
  let st2 := (switchActive st1).2 in
  (switchActive st).1 = Normal tt
  ∧ active st1 ≠ active st
  ∧ active st2 = active st
  ∧ getData st1 = match active st with
                  | corner => dataEdge st
                  | edge => dataCorner st
                  end
  ∧ getData st2 = getData st
  ∧ statusText st1 = js "Switched to " ++ match active st with
                                          | corner => js "edge"
                                          | edge => js "corner"
                                          end
  ∧ keepsData st st1
  ∧ resultCards st1 = resultCards st.
Proof.
  unfold switchActive, getData, keepsData. run_eff.
  rewrite !updateStatus_plain. run_eff.
  cbn [fst snd active set_active set_statusText dataCorner dataEdge
       statusText resultCards].
  by destruct (active st).
Qed.

Lemma keepsData_refl (st : App) : keepsData st st.
Proof. by repeat split. Qed.

Lemma keepsData_trans (st1 st2 st3 : App) :
  keepsData st1 st2 → keepsData st2 st3 → keepsData st1 st3.
Proof.
  unfold keepsData. intros (?&?&?&?&?&?) (?&?&?&?&?&?).
  repeat split; congruence.
Qed.

Lemma lookup_keepsData (key : jstring) (st : App) :
  keepsData st (lookup key st).2.
Proof.
  by destruct (lookup_cases key st) as [->|[->|[->|(note & value & ->)]]].
Qed.

Lemma clearAll_keepsData (st : App) : keepsData st (clearAll st).2.
Proof. done. Qed.

Lemma switchActive_keepsData (st : App) : keepsData st (switchActive st).2.
Proof. done. Qed.

Lemma onKeydown_keepsData (key : jstring) (ctrlKey : bool) (st : App) :
  keepsData st (onKeydown key ctrlKey st).2.
Proof. unfold onKeydown. by repeat case_decide. Qed.

Lemma onInput_keepsData (value : jstring) (st : App) :
  keepsData st (onInput value st).2.
Proof.
  unfold onInput. destruct (length _ =? 2); [apply lookup_keepsData|done].
Qed.

Lemma dispatch_keepsData (ev : Event) (st : App) :
  (∀ cornerOut edgeOut, ev ≠ RefreshClick cornerOut edgeOut) →
  keepsData st (dispatch st ev).
Proof.
  intros Hev. unfold dispatch. destruct ev; simpl.
  - apply onInput_keepsData.
  - apply switchActive_keepsData.
  - apply clearAll_keepsData.
  - by destruct (Hev cornerOut edgeOut).
  - apply onKeydown_keepsData.
Qed.

(** X13: the listeners of the key field, of the switch and clear buttons
    and of the keyboard read the data and never write them: after any
    sequence of events without a click on the refresh button the two data
    sets, the store, the requests sent, the clock and the refresh button
    are as they were, also when a listener threw on the way. *)
Theorem events_without_refresh_keep_data (evs : list Event) (st : App) :
  (∀ cornerOut edgeOut, RefreshClick cornerOut edgeOut ∉ evs) →
  keepsData st (handleAll evs st)
  ∧ loadCache (handleAll evs st) = loadCache st.
Proof.
  intros Hevs.
  assert (keepsData st (handleAll evs st)) as Hkeep.
  { revert st. induction evs as [|ev evs IH]; intros st;
      [apply keepsData_refl|].
    simpl. apply (keepsData_trans _ (dispatch st ev)).
    - apply dispatch_keepsData. intros c e ->. apply (Hevs c e). left.
    - apply IH. intros c e Hin. apply (Hevs c e). by right. }
  split; [done|]. apply loadCache_frame. apply Hkeep.
Qed.

(** *** Sound states *)

Lemma indexData_empty : indexData (VObj ∅).
Proof.
  exists ∅. split; [|split].
  - unfold indexVal. by rewrite fmap_empty.
  - apply wellFormed_empty.
  - intros key es. by rewrite lookup_empty.
Qed.

Lemma sound_keepsData (st st' : App) :
  keepsData st st' → sound st → sound st'.
Proof.
  intros (Hc & He & Hls & _) (Hdc & Hde & Hstore).
  unfold sound, storeSound. rewrite Hc, He, (loadCache_frame st st' Hls).
  done.
Qed.

(** On a sound store a truthy snapshot has two Indices. *)
Lemma storeSound_truthy (st : App) :
  storeSound st → toBoolean (loadCache st) = true →
  ∃ c e, getProp (loadCache st) (js "corner") = Normal c
         ∧ getProp (loadCache st) (js "edge") = Normal e
         ∧ indexData c ∧ indexData e.
Proof.
  intros [Hnull|(time & timeText & c & e & Hload & Hc & He)] Htrue.
  - by rewrite Hnull in Htrue.
  - exists c, e. rewrite Hload.
    by rewrite getProp_payload_corner, getProp_payload_edge.
Qed.

Lemma sound_fetchData (cornerOut edgeOut : FetchOutcome) (st : App) :
  faithfulJSON → sound st → sound (fetchData cornerOut edgeOut st).2.
Proof.
  intros Hjson (Hdc & Hde & Hstore).
  destruct (refresh_cases cornerOut edgeOut)
    as [Hfail|(ct & et & -> & ->)].
  - destruct (fetchData_failed_run cornerOut edgeOut st Hfail)
      as (r & st2 & Hcatch & ->).
    destruct (fetchData_catch_runs (requested st))
      as (r' & st2' & Hrun & _ & Hls & _ & _ & _ & _ & Hdata).
    rewrite Hcatch in Hrun. injection Hrun as <- <-.
    replace (loadCache (requested st)) with (loadCache st) in Hdata by done.
    assert (storeSound (set_refreshDisabled false st2)) as Hstore'.
    { unfold storeSound.
      by rewrite (loadCache_frame st (set_refreshDisabled false st2)). }
    destruct (toBoolean (loadCache st)) eqn:Htrue.
    + destruct (storeSound_truthy st Hstore Htrue) as (c & e & Hc & He & ? & ?).
      destruct Hdata as (Hc' & He' & _).
      unfold sound. cbn [snd dataCorner dataEdge set_refreshDisabled].
      replace (dataCorner st2) with c by congruence.
      replace (dataEdge st2) with e by congruence. done.
    + destruct Hdata as (_ & Hc' & He' & _).
      unfold sound. cbn [snd dataCorner dataEdge set_refreshDisabled].
      by rewrite Hc', He'.
  - rewrite fetchData_answered_run by done. cbn [snd].
    split; [apply indexData_parse|]. split; [apply indexData_parse|].
    right. rewrite loadCache_afterRefresh by done.
    eexists _, _, _, _. split; [reflexivity|].
    split; apply indexData_parse.
Qed.

Lemma sound_dispatch (ev : Event) (st : App) :
  faithfulJSON → sound st → sound (dispatch st ev).
Proof.
  intros Hjson Hsound.
  destruct ev as [value| | |cornerOut edgeOut|key ctrlKey].
  4: by apply sound_fetchData.
  all: by apply (sound_keepsData st); [apply dispatch_keepsData|].
Qed.

Lemma sound_handleAll (evs : list Event) (st : App) :
  faithfulJSON → sound st → sound (handleAll evs st).
Proof.
  intros Hjson. revert st.
  induction evs as [|ev evs IH]; intros st Hsound; [done|].
  simpl. by apply IH, sound_dispatch.
Qed.

Lemma sound_started (storage : gmap jstring jstring)
    (cornerOut edgeOut : FetchOutcome) :
  faithfulJSON → storeSound (initialApp storage) →
  sound (started storage cornerOut edgeOut).
Proof.
  intros Hjson Hstore. unfold started.
  destruct (toBoolean (loadCache (initialApp storage))) eqn:Htrue.
  - destruct (storeSound_truthy _ Hstore Htrue) as (c & e & Hc & He & ? & ?).
    destruct (init_on_snapshot cornerOut edgeOut _ Htrue)
      as (c' & e' & t & Hc' & He' & _ & ->).
    replace c' with c by congruence. replace e' with e by congruence.
    by destruct (ToString t).
  - rewrite init_without_snapshot by done.
    apply sound_fetchData; [done|].
    split; [apply indexData_empty|]. split; [apply indexData_empty|done].
Qed.

(** X14: on a host with faithful JSON functions, the page started on a
    storage that is empty, or holds a snapshot of two Indices, stays sound
    whatever happens: after [init] and after every sequence of events, with
    any answers of the network, the two data variables hold Indices as
    [parseTSV] makes them (keys of two code units, every key with at least
    one entry, no empty value) and the store holds nothing or a snapshot of
    two such Indices.  Soundness is kept by each listener. *)
Theorem page_stays_sound (storage : gmap jstring jstring)
    (cornerOut edgeOut : FetchOutcome) (evs : list Event) :
  faithfulJSON →
  storeSound (initialApp storage) →
  sound (handleAll evs (started storage cornerOut edgeOut))
  ∧ (∀ st ev, sound st → sound (dispatch st ev)).
Proof.
  intros Hjson Hstore. split.
  - by apply sound_handleAll, sound_started.
  - intros st ev. by apply sound_dispatch.
Qed.

(** [lookup] on a sound state, under a key that objects do not inherit. *)
Lemma lookup_sound (key : jstring) (st : App) :
  sound st →
  (∀ o : gmap jstring jsval, inheritedLength (VObj o) key = None) →
  ∃ st', lookup key st = (Normal tt, st')
    ∧ ((statusText st' = js "No results" ∧ resultCards st' = [])
       ∨ ∃ note value,
           value ≠ []
           ∧ statusText st' = js "Found"
           ∧ resultCards st'
             = [{| cardKey := key;
                   cardNote := if isEmpty note then None else Some note;
                   cardValue2 := value |}]).
Proof.
  intros (Hdc & Hde & _) Hkey.
  assert (indexData (getData st)) as (idx & Hdata & Hwf & Hpop)
    by (unfold getData; by destruct (active st)).
  rewrite (lookup_on_index key idx st Hdata).
  destruct (idx !! key) as [[|[note value] rest]|] eqn:E.
  - by apply Hpop in E.
  - eexists. split; [reflexivity|].
    right. exists note, value. split; [|done].
    destruct (Hwf key _ E) as (_ & _ & Hv). apply (Hv (note, value)). left.
  - unfold indexVal. rewrite Hkey. eexists. split; [reflexivity|]. by left.
Qed.

(** X15: on such a page no [lookup] of a key of two code units ever
    throws, no property of [Object.prototype] having so short a name: in
    every state the page reaches, the lookup ends normally, with "No
    results" and no card, or with "Found" and one card whose value is not
    empty; and so does the "input" listener for any text typed, the keys it
    looks up being of two code units. *)
Theorem lookup_never_throws_on_page (storage : gmap jstring jstring)
    (cornerOut edgeOut : FetchOutcome) (evs : list Event)
    (key value : jstring) :
  faithfulJSON →
  shortNamesAreOwn →
  storeSound (initialApp storage) →
  length key = 2 →
  let st := handleAll evs (started storage cornerOut edgeOut) in
  (∃ st', lookup key st = (Normal tt, st')
     ∧ ((statusText st' = js "No results" ∧ resultCards st' = [])
        ∨ ∃ note v,
            v ≠ []
            ∧ statusText st' = js "Found"
            ∧ resultCards st'
              = [{| cardKey := key;
                    cardNote := if isEmpty note then None else Some note;
                    cardValue2 := v |}]))
  ∧ (onInput value st).1 = Normal tt.
Proof.
  intros Hjson Hshort Hstore Hkey st.
  assert (sound st) as Hsound by (by apply sound_handleAll, sound_started).
  split; [apply lookup_sound; [done|]; intros o; by apply Hshort|].
  unfold onInput. destruct (length _ =? 2) eqn:Elen; [|done].
  apply Nat.eqb_eq in Elen.
  by destruct (lookup_sound (take 2 (toUpperCase value)) st Hsound)
    as (st' & -> & _); [intros o; by apply Hshort|].
Qed.

(** X16: what is typed finds what was parsed, whatever its case: when a
    line of the sheet passes the two tests, and the first two code units
    of the upper-cased text of the key field are the key of the line, the
    "input" listener ends with "Found" and a card for this key, on the data
    parsed from the sheet; a text whose upper-casing has fewer than two code
    units leaves the page as it is. *)
Theorem typed_key_finds_line (text line typed value1 key value2 : jstring)
    (st : App) :
  line ∈ split LF text →
  fieldsOf line = Some (value1, key, value2) →
  passes line = true →
  take 2 (toUpperCase typed) = key →
  (∃ idx : Index,
     parseTSV text = Normal idx
     ∧ (getData st = indexVal idx →
        ∃ st' card,
          onInput typed st = (Normal tt, st')
          ∧ statusText st' = js "Found"
          ∧ resultCards st' = [card]
          ∧ cardKey card = key))
  ∧ ∀ short, length (toUpperCase short) < 2 →
             onInput short st = (Normal tt, st).
Proof.
  intros Hin Hfields Hpass Htyped. split.
  - exists (parse replaceCR text). split; [apply parseTSV_refines|].
    intros Hdata.
    assert (lineEntry replaceCR line = Some (key, (value1, value2))) as Hline
      by (by rewrite lineEntry_fields, Hfields, Hpass).
    destruct (parse_contains replaceCR text line _ _ Hin Hline)
      as (es & Hes & He).
    destruct (lineEntry_inv replaceCR line _ _ Hline) as (Hkey & _).
    unfold onInput. rewrite Htyped, Hkey. simpl.
    rewrite (lookup_on_index _ _ st Hdata), Hes.
    destruct es as [|[note value] es]; [by apply elem_of_nil in He|].
    eexists _, _. split; [reflexivity|]. done.
  - intros short Hshort. unfold onInput.
    rewrite length_take. by replace (_ =? 2) with false
      by (symmetry; apply Nat.eqb_neq; lia).
Qed.

End ListenerLaws.

(** ** Properties of the page *)

Section PageLaws.
Context `{Host}.

Import AsSpecified.

(** *** The data and the store *)

Lemma agreesWithStore_keepsData (st st' : App) :
  keepsData st st' → agreesWithStore st → agreesWithStore st'.
Proof.
  intros (Hc & He & Hls & _) Hst. unfold agreesWithStore.
  by rewrite Hc, He, (loadCache_frame st st' Hls).
Qed.

(** After [fetchData] the data are those of the store, whatever they were
    before. *)
Lemma agreesWithStore_fetchData (cornerOut edgeOut : FetchOutcome)
    (st : App) :
  faithfulJSON →
  (toBoolean (loadCache st) = false → agreesWithStore st) →
  agreesWithStore (fetchData cornerOut edgeOut st).2.
Proof.
  intros Hjson Hst.
  destruct (refresh_cases cornerOut edgeOut)
    as [Hfail|(ct & et & -> & ->)].
  - destruct (fetchData_failed_run cornerOut edgeOut st Hfail)
      as (r & st2 & Hcatch & ->).
    destruct (fetchData_catch_runs (requested st))
      as (r' & st2' & Hrun & _ & Hls & _ & _ & _ & _ & Hdata).
    rewrite Hcatch in Hrun. injection Hrun as <- <-.
    replace (loadCache (requested st)) with (loadCache st) in Hdata by done.
    unfold agreesWithStore. cbn [snd].
    rewrite (loadCache_frame st (set_refreshDisabled false st2)) by done.
    cbn [dataCorner dataEdge set_refreshDisabled].
    destruct (toBoolean (loadCache st)) eqn:Htrue; [|done].
    intros _. destruct Hdata as (Hc & He & _). by split.
  - rewrite fetchData_answered_run by done. cbn [snd]. intros _.
    rewrite loadCache_afterRefresh by done. unfold snapshotAt.
    by rewrite getProp_payload_corner, getProp_payload_edge.
Qed.

Lemma agreesWithStore_dispatch (ev : Event) (st : App) :
  faithfulJSON → agreesWithStore st → agreesWithStore (dispatch st ev).
Proof.
  intros Hjson Hst.
  destruct ev as [value| | |cornerOut edgeOut|key ctrlKey].
  4: by apply agreesWithStore_fetchData.
  all: by apply (agreesWithStore_keepsData st); [apply dispatch_keepsData|].
Qed.

Lemma agreesWithStore_handleAll (evs : list Event) (st : App) :
  faithfulJSON → agreesWithStore st → agreesWithStore (handleAll evs st).
Proof.
  intros Hjson. revert st.
  induction evs as [|ev evs IH]; intros st Hst; [done|].
  simpl. by apply IH, agreesWithStore_dispatch.
Qed.

Lemma agreesWithStore_started (storage : gmap jstring jstring)
    (cornerOut edgeOut : FetchOutcome) :
  faithfulJSON → agreesWithStore (started storage cornerOut edgeOut).
Proof.
  intros Hjson. unfold started.
  destruct (toBoolean (loadCache (initialApp storage))) eqn:Htrue.
  - destruct (init_on_snapshot cornerOut edgeOut _ Htrue)
      as (c & e & t & Hc & He & _ & ->).
    intros _. by destruct (ToString t).
  - rewrite init_without_snapshot by done.
    apply agreesWithStore_fetchData; [done|].
    intros _ Habs. simpl in Habs. unfold loadCache in *. simpl in *.
    congruence.
Qed.

(** X18: on a host with faithful JSON functions, whatever the storage the
    page started on and whatever happened since, the data are the fields of
    the snapshot whenever the store holds one; so a refresh that fails never
    changes the data of the page, nor its store: with a snapshot it adopts
    again what the page already shows, without one it adopts nothing. *)
Theorem failed_refresh_keeps_page_data (storage : gmap jstring jstring)
    (cornerOut edgeOut failedCorner failedEdge : FetchOutcome)
    (evs : list Event) :
  faithfulJSON →
  refreshFailed failedCorner failedEdge →
  let st := handleAll evs (started storage cornerOut edgeOut) in
  agreesWithStore st
  ∧ dataCorner (fetchData failedCorner failedEdge st).2 = dataCorner st
  ∧ dataEdge (fetchData failedCorner failedEdge st).2 = dataEdge st
  ∧ localStorage (fetchData failedCorner failedEdge st).2 = localStorage st.
Proof.
  intros Hjson Hfail st.
  assert (agreesWithStore st) as Hst
    by (by apply agreesWithStore_handleAll, agreesWithStore_started).
  split; [done|].
  destruct (fetchData_failed_run failedCorner failedEdge st Hfail)
    as (r & st2 & Hcatch & ->).
  destruct (fetchData_catch_runs (requested st))
    as (r' & st2' & Hrun & _ & Hls & _ & _ & _ & _ & Hdata).
  rewrite Hcatch in Hrun. injection Hrun as <- <-.
  replace (loadCache (requested st)) with (loadCache st) in Hdata by done.
  cbn [snd dataCorner dataEdge localStorage set_refreshDisabled].
  destruct (toBoolean (loadCache st)) eqn:Htrue.
  - destruct (Hst Htrue) as [Hc He]. destruct Hdata as (Hc' & He' & _).
    split; [congruence|]. split; [congruence|done].
  - by destruct Hdata as (_ & -> & -> & _).
Qed.

(** *** The refresh button and the requests *)

Lemma requestsOf_S (n : nat) :
  requestsOf (S n) = requestsOf n ++ [URLS corner; URLS edge].
Proof.
  change (requestsOf (S n)) with ([URLS corner; URLS edge] ++ requestsOf n).
  induction n as [|n IH]; [done|].
  change (requestsOf (S n)) with ([URLS corner; URLS edge] ++ requestsOf n).
  by rewrite <- app_assoc, <- IH.
Qed.

Lemma handleAll_requests (evs : list Event) (st : App) (n : nat) :
  refreshDisabled st = false →
  requests st = requestsOf n →
  refreshDisabled (handleAll evs st) = false
  ∧ requests (handleAll evs st) = requestsOf (refreshClicks evs + n).
Proof.
  revert st n. induction evs as [|ev evs IH]; intros st n Hdis Hreq; [done|].
  simpl handleAll.
  assert (refreshDisabled (dispatch st ev) = false
          ∧ requests (dispatch st ev)
            = requestsOf (match ev with
                          | RefreshClick _ _ => S n
                          | _ => n
                          end)) as [Hdis' Hreq'].
  { destruct ev as [value| | |cornerOut edgeOut|key ctrlKey].
    4: { unfold dispatch. simpl.
         destruct (fetchData_cleans_up cornerOut edgeOut st)
           as (r & st' & -> & ? & Hr & _).
         split; [done|]. simpl. by rewrite Hr, Hreq, requestsOf_S. }
    all: edestruct (dispatch_keepsData) as (_ & _ & _ & Hr & _ & Hd);
      [|rewrite Hr, Hd; by split]; done. }
  destruct (IH _ _ Hdis' Hreq') as [Hd Hr]. split; [done|].
  rewrite Hr. f_equal. destruct ev; simpl; lia.
Qed.

(** X19: on every host, whatever the network answers, the page never
    leaves the refresh button disabled between two events, and its requests
    go by two, the corner sheet and then the edge sheet: one pair when the
    page starts without a snapshot, none when it starts on one, and one pair
    for each click on the refresh button, whether the refresh goes well or
    not. *)
Theorem page_requests_go_by_two (storage : gmap jstring jstring)
    (cornerOut edgeOut : FetchOutcome) (evs : list Event) :
  let st := handleAll evs (started storage cornerOut edgeOut) in
  refreshDisabled st = false
  ∧ requests st
    = requestsOf (refreshClicks evs
                  + if toBoolean (loadCache (initialApp storage)) then 0
                    else 1).
Proof.
  intros st. apply handleAll_requests; unfold started.
  - destruct (toBoolean (loadCache (initialApp storage))) eqn:Htrue.
    + destruct (init_on_snapshot cornerOut edgeOut _ Htrue)
        as (c & e & t & _ & _ & _ & ->).
      by destruct (ToString t).
    + rewrite init_without_snapshot by done.
      by destruct (fetchData_cleans_up cornerOut edgeOut
                     (set_statusText
                        (js "No cache " ++ [8212%N] ++ js " fetching...")
                        (initialApp storage)))
        as (r & st' & -> & ? & _).
  - destruct (toBoolean (loadCache (initialApp storage))) eqn:Htrue.
    + destruct (init_on_snapshot cornerOut edgeOut _ Htrue)
        as (c & e & t & _ & _ & _ & ->).
      by destruct (ToString t).
    + rewrite init_without_snapshot by done.
      destruct (fetchData_cleans_up cornerOut edgeOut
                  (set_statusText
                     (js "No cache " ++ [8212%N] ++ js " fetching...")
                     (initialApp storage)))
        as (r & st' & -> & _ & Hreq & _).
      simpl. by rewrite Hreq.
Qed.

End PageLaws.

(** ** The JSON texts of the model host *)

Module ModelHostFacts.
Import ModelHost.

Local Open Scope N_scope.

(** *** Strings *)

Lemma hexValue_hexDigit (n : N) : n < 16 → hexValue (hexDigit n) = Some n.
Proof.
  intros Hn.
  assert (n = 0 ∨ n = 1 ∨ n = 2 ∨ n = 3 ∨ n = 4 ∨ n = 5 ∨ n = 6 ∨ n = 7
          ∨ n = 8 ∨ n = 9 ∨ n = 10 ∨ n = 11 ∨ n = 12 ∨ n = 13 ∨ n = 14
          ∨ n = 15) as Hcases by lia.
  repeat (destruct Hcases as [->|Hcases]; [done|]). by subst.
Qed.

Lemma hex_digits (c : N) :
  c < 65536 →
  c / 4096 < 16 ∧ c / 256 mod 16 < 16 ∧ c / 16 mod 16 < 16 ∧ c mod 16 < 16
  ∧ 4096 * (c / 4096) + 256 * (c / 256 mod 16) + 16 * (c / 16 mod 16)
    + c mod 16 = c.
Proof.
  intros Hc.
  pose proof (N.div_mod c 16 ltac:(done)) as H1.
  pose proof (N.div_mod (c / 16) 16 ltac:(done)) as H2.
  pose proof (N.div_mod (c / 16 / 16) 16 ltac:(done)) as H3.
  pose proof (N.mod_lt c 16 ltac:(done)).
  pose proof (N.mod_lt (c / 16) 16 ltac:(done)).
  pose proof (N.mod_lt (c / 16 / 16) 16 ltac:(done)).
  rewrite !N.Div0.div_div in H2, H3. rewrite !N.Div0.div_div in *.
  change (16 * 16) with 256 in *. change (256 * 16) with 4096 in *.
  assert (c / 4096 < 16) by (apply N.Div0.div_lt_upper_bound; lia).
  assert (c / 4096 = c / 256 / 16) as E by (by rewrite N.Div0.div_div).
  split; [done|]. split; [done|]. split; [done|]. split; [done|].
  lia.
Qed.

Lemma parseChars_uEscape (c : N) (s : jstring) :
  c < 65536 → parseChars (uEscape c ++ s) = consTo c (parseChars s).
Proof.
  intros Hc. destruct (hex_digits c Hc) as (H1 & H2 & H3 & H4 & Hsum).
  unfold uEscape. cbn [app parseChars N.eqb Pos.eqb].
  rewrite !hexValue_hexDigit by done. cbn [mbind option_bind].
  rewrite Hsum. by destruct (parseChars s) as [[t rest]|].
Qed.

Lemma parseChars_literal (c : N) (s : jstring) :
  c ≠ 34 → c ≠ 92 → 32 ≤ c → parseChars (c :: s) = consTo c (parseChars s).
Proof.
  intros H34 H92 H32. cbn [parseChars].
  apply N.eqb_neq in H34, H92. rewrite H34, H92.
  replace (c <? 32) with false by (symmetry; apply N.ltb_ge; lia).
  by destruct (parseChars s) as [[t rest]|].
Qed.

Lemma parseChars_escapeUnit (c : N) (s : jstring) :
  parseChars (escapeUnit c ++ s) = consTo c (parseChars s).
Proof.
  unfold escapeUnit.
  repeat match goal with
         | |- context [if ?x =? ?k then _ else _] =>
             destruct (N.eqb_spec x k) as [->|?];
             [destruct (parseChars s) as [[t rest]|] eqn:E; cbn; by rewrite E|]
         end.
  destruct (N.ltb_spec c 32).
  - apply parseChars_uEscape. lia.
  - by apply parseChars_literal.
Qed.

Lemma surrogate_range (c : N) :
  isHighSurrogate c || isLowSurrogate c = true → 55296 ≤ c ≤ 57343.
Proof.
  unfold isHighSurrogate, isLowSurrogate.
  rewrite orb_true_iff, !andb_true_iff, !N.leb_le. lia.
Qed.

Lemma surrogate_literal (c : N) (s : jstring) :
  isHighSurrogate c || isLowSurrogate c = true →
  parseChars (c :: s) = consTo c (parseChars s).
Proof.
  intros Hc%surrogate_range. apply parseChars_literal; lia.
Qed.

Lemma surrogate_bound (c : N) :
  isHighSurrogate c || isLowSurrogate c = true → c < 65536.
Proof. intros Hc%surrogate_range. lia. Qed.

(** Reading back a quoted string. *)
Lemma parseChars_quoteUnits (s rest : jstring) :
  parseChars (quoteUnits s ++ 34 :: rest) = Some (s, rest).
Proof.
  remember (length s) as n eqn:Hn.
  assert (length s ≤ n)%nat as Hlen by lia. clear Hn.
  revert s Hlen. induction n as [|n IH]; intros s Hlen.
  { destruct s; [done|simpl in Hlen; lia]. }
  destruct s as [|c s]; [done|]. simpl in Hlen.
  cbn [quoteUnits].
  destruct (isHighSurrogate c) eqn:Hh.
  - destruct s as [|d s].
    + rewrite parseChars_uEscape
        by (apply surrogate_bound; by rewrite Hh).
      done.
    + destruct (isLowSurrogate d) eqn:Hl.
      * cbn [app]. rewrite surrogate_literal by (by rewrite Hh).
        rewrite surrogate_literal by (by rewrite Hl, orb_true_r).
        rewrite IH by (simpl in Hlen; lia). done.
      * rewrite <- app_assoc.
        rewrite parseChars_uEscape by (apply surrogate_bound; by rewrite Hh).
        rewrite IH by lia. done.
  - destruct (isLowSurrogate c) eqn:Hl.
    + rewrite <- app_assoc.
      rewrite parseChars_uEscape
        by (apply surrogate_bound; by rewrite Hl, orb_true_r).
      rewrite IH by lia. done.
    + rewrite <- app_assoc, parseChars_escapeUnit, IH by lia. done.
Qed.

(** *** Numerals *)

Lemma js_string_of_uint (d : Decimal.uint) :
  js (NilEmpty.string_of_uint d) = unitsOf d.
Proof. unfold js. induction d; simpl; by rewrite ?IHd. Qed.

Lemma digitsValue_cons (acc c : N) (s : jstring) :
  isDigit c = true →
  digitsValue acc (c :: s) = digitsValue (10 * acc + (c - 48)) s.
Proof. unfold isDigit. intros Hc. cbn [digitsValue]. by rewrite Hc. Qed.

Lemma digitsValue_unitsOf (acc : N) (d : Decimal.uint) :
  digitsValue acc (unitsOf d) = Some (horner acc d).
Proof.
  revert acc. induction d; intros acc; cbn [unitsOf horner]; [done|..].
  all: rewrite digitsValue_cons by done.
  all: rewrite IHd; do 2 f_equal; lia.
Qed.

Lemma horner_of_lu (acc : N) (d : Decimal.uint) :
  horner acc d
  = acc * 10 ^ DecimalPos.Unsigned.usize d
    + DecimalPos.Unsigned.of_lu (Decimal.rev d).
Proof.
  revert acc. induction d; intros acc; cbn [horner DecimalPos.Unsigned.usize].
  { simpl. rewrite N.pow_0_r. lia. }
  all: unfold Decimal.rev at 1; cbn [Decimal.revapp].
  all: rewrite (DecimalPos.Unsigned.of_lu_revapp d), IHd, N.pow_succ_r'.
  all: cbn [DecimalPos.Unsigned.of_lu]; ring.
Qed.

Lemma horner_to_uint (p : positive) : horner 0 (Pos.to_uint p) = Npos p.
Proof.
  rewrite horner_of_lu, <- DecimalPos.Unsigned.of_uint_alt, DecimalPos.Unsigned.of_to. lia.
Qed.

Lemma to_uint_normal (p : positive) :
  Pos.to_uint p = Decimal.unorm (Pos.to_uint p).
Proof.
  rewrite <- DecimalPos.Unsigned.to_of, DecimalPos.Unsigned.of_to. done.
Qed.

(** A positive number has a first digit, which is not 0. *)
Lemma unitsOf_to_uint (p : positive) :
  ∃ c ds, unitsOf (Pos.to_uint p) = c :: ds ∧ isDigit c = true ∧ c ≠ 48.
Proof.
  pose proof (to_uint_normal p) as Hnorm.
  pose proof (DecimalPos.Unsigned.to_uint_nonzero p) as Hnz.
  destruct (Pos.to_uint p) as [|u|u|u|u|u|u|u|u|u|u] eqn:E;
    try (eexists _, _; split; [reflexivity|]; split; done).
  - exfalso. by apply (DecimalPos.Unsigned.to_uint_nonnil p).
  - exfalso. rewrite DecimalFacts.unorm_D0 in Hnorm. unfold Decimal.unorm in Hnorm.
    destruct (Decimal.nzhead u) eqn:En.
    all: try done.
    injection Hnorm as <-. by apply (DecimalFacts.nzhead_nonzero u u).
Qed.

Lemma isDigit_unitsOf (d : Decimal.uint) :
  Forall (λ c, isDigit c = true) (unitsOf d).
Proof. induction d; simpl; by constructor. Qed.

Lemma spanDigits_app (ds rest : jstring) :
  Forall (λ c, isDigit c = true) ds → terminated rest →
  spanDigits (ds ++ rest) = (ds, rest).
Proof.
  intros Hds Hrest. induction Hds as [|c ds Hc _ IH]; simpl.
  - destruct rest as [|c rest]; [done|]. simpl. by destruct Hrest as [-> _].
  - by rewrite Hc, IH.
Qed.

Lemma showZ_pos (p : positive) : showZ (Zpos p) = unitsOf (Pos.to_uint p).
Proof.
  unfold showZ. simpl Z.to_int. unfold NilZero.string_of_int.
  unfold NilZero.string_of_uint.
  destruct (Pos.to_uint p) eqn:E; try (by rewrite js_string_of_uint).
  by destruct (DecimalPos.Unsigned.to_uint_nonnil p).
Qed.

Lemma showZ_neg (p : positive) :
  showZ (Zneg p) = 45 :: unitsOf (Pos.to_uint p).
Proof.
  unfold showZ. simpl Z.to_int. unfold NilZero.string_of_int.
  unfold NilZero.string_of_uint.
  destruct (Pos.to_uint p) eqn:E;
    try (by unfold js; simpl; fold (js (NilEmpty.string_of_uint u));
         rewrite js_string_of_uint).
  by destruct (DecimalPos.Unsigned.to_uint_nonnil p).
Qed.

Lemma isDigit_range (c : N) : isDigit c = true ↔ 48 ≤ c ≤ 57.
Proof. unfold isDigit. rewrite andb_true_iff, !N.leb_le. lia. Qed.

Lemma parseNumber_digits (neg : bool) (c : N) (ds rest : jstring) (n : N) :
  isDigit c = true →
  c ≠ 48 ∨ ds = [] →
  Forall (λ c, isDigit c = true) ds →
  terminated rest →
  digitsValue 0 (c :: ds) = Some n →
  parseNumber ((if neg then [45] else []) ++ c :: ds ++ rest)
  = Some (VNum (if neg then - Z.of_N n else Z.of_N n), rest).
Proof.
  intros Hc Hlead Hds Hrest Hval.
  assert (spanDigits (c :: ds ++ rest) = (c :: ds, rest)) as Hspan.
  { apply (spanDigits_app (c :: ds)); [by constructor|done]. }
  assert ((c =? 48) && negb (isEmpty ds) = false) as Hzero.
  { destruct Hlead as [Hne| ->]; [|by rewrite andb_false_r].
    apply N.eqb_neq in Hne. by rewrite Hne. }
  assert (parseNumber ((if neg then [45] else []) ++ c :: ds ++ rest)
          = match rest with
            | x :: _ =>
                if (x =? 46) || (x =? 101) || (x =? 69) then None
                else Some (VNum (if neg then - Z.of_N n else Z.of_N n), rest)
            | [] => Some (VNum (if neg then - Z.of_N n else Z.of_N n), rest)
            end) as ->.
  { unfold parseNumber. destruct neg.
    - cbn [app]. rewrite N.eqb_refl, Hspan, Hzero, Hval.
      by destruct rest.
    - cbn [app].
      replace (c =? 45) with false
        by (symmetry; apply N.eqb_neq; apply isDigit_range in Hc; lia).
      rewrite Hspan, Hzero, Hval. by destruct rest. }
  destruct rest as [|x rest]; [done|].
  destruct Hrest as (_ & H46 & H101 & H69).
  apply N.eqb_neq in H46, H101, H69. by rewrite H46, H101, H69.
Qed.

(** Reading back the numeral of an integer. *)
Lemma parseNumber_showZ (z : Z) (rest : jstring) :
  terminated rest → parseNumber (showZ z ++ rest) = Some (VNum z, rest).
Proof.
  intros Hrest. destruct z as [|p|p].
  - change (showZ 0) with [48].
    apply (parseNumber_digits false 48 [] rest 0); auto.
  - rewrite showZ_pos.
    destruct (unitsOf_to_uint p) as (c & ds & E & Hc & Hne).
    pose proof (isDigit_unitsOf (Pos.to_uint p)) as Hall.
    pose proof (digitsValue_unitsOf 0 (Pos.to_uint p)) as Hval.
    rewrite horner_to_uint in Hval. rewrite E in *.
    apply Forall_cons in Hall as [_ Hall].
    rewrite <- app_comm_cons.
    apply (parseNumber_digits false c ds rest (Npos p)); auto.
  - rewrite showZ_neg.
    destruct (unitsOf_to_uint p) as (c & ds & E & Hc & Hne).
    pose proof (isDigit_unitsOf (Pos.to_uint p)) as Hall.
    pose proof (digitsValue_unitsOf 0 (Pos.to_uint p)) as Hval.
    rewrite horner_to_uint in Hval. rewrite E in *.
    apply Forall_cons in Hall as [_ Hall].
    rewrite <- !app_comm_cons.
    apply (parseNumber_digits true c ds rest (Npos p)); auto.
Qed.

(** The first code unit of a numeral. *)
Lemma showZ_head (z : Z) :
  ∃ c s, showZ z = c :: s ∧ (c = 45 ∨ isDigit c = true).
Proof.
  destruct z as [|p|p].
  - exists 48, []. auto.
  - rewrite showZ_pos. destruct (unitsOf_to_uint p) as (c & ds & E & Hc & _).
    eauto.
  - rewrite showZ_neg. eauto.
Qed.

(** *** Values *)

Lemma fuelOf_arr (a : list jsval) : fuelOf (VArr a) = S (fuelOfList a).
Proof. done. Qed.

Lemma fuelOfList_snd (l : list (jstring * jsval)) :
  fuelOfList l.*2 = foldr (λ kx n, S (fuelOf kx.2 + n)) 0%nat l.
Proof.
  unfold fuelOfList. induction l as [|[k x] l IH]; [done|].
  rewrite fmap_cons. cbn [foldr snd]. by rewrite IH.
Qed.

Lemma fuelOf_obj (o : gmap jstring jsval) :
  fuelOf (VObj o) = S (fuelOfList (map_to_list o).*2).
Proof.
  cbn [fuelOf]. rewrite map_fold_foldr, fuelOfList_snd. f_equal.
  by induction (map_to_list o) as [|[k x] l IH]; [|simpl; rewrite IH].
Qed.

Lemma fuelOfList_cons (x : jsval) (l : list jsval) :
  fuelOfList (x :: l) = S (fuelOf x + fuelOfList l).
Proof. done. Qed.

Lemma fuelOfList_elem (l : list jsval) (x : jsval) :
  x ∈ l → (fuelOf x < fuelOfList l)%nat.
Proof.
  induction 1 as [x l|x y l _ IH]; unfold fuelOfList in *; simpl; lia.
Qed.

Lemma stringify_arr (a : list jsval) :
  Forall jsonData a →
  stringify (VArr a) = 91 :: joinWith 44 (stringify <$> a) ++ [93].
Proof.
  intros Ha. cbn [stringify]. do 3 f_equal.
  induction Ha as [|x a Hx _ IH]; [done|]. simpl. rewrite IH.
  f_equal. by destruct Hx.
Qed.

Lemma stringify_obj (o : gmap jstring jsval) :
  map_Forall (λ _, jsonData) o →
  stringify (VObj o) = 123 :: joinWith 44 (member <$> map_to_list o) ++ [125].
Proof.
  intros Ho. cbn [stringify]. do 3 f_equal. rewrite map_fold_foldr.
  assert (Forall (λ kx, jsonData kx.2) (map_to_list o)) as Hl.
  { apply Forall_forall. intros [k x] Hkx%elem_of_map_to_list.
    by apply (Ho k x). }
  induction Hl as [|[k x] l Hx _ IH]; [done|]. cbn [foldr]. rewrite IH.
  simpl in Hx. by destruct Hx.
Qed.

Lemma parseValue_numeral (fuel : nat) (c : N) (s : jstring) :
  c = 45 ∨ isDigit c = true →
  parseValue (S fuel) (c :: s) = parseNumber (c :: s).
Proof.
  intros [->|Hc%isDigit_range]; [done|].
  assert (c = 48 ∨ c = 49 ∨ c = 50 ∨ c = 51 ∨ c = 52 ∨ c = 53 ∨ c = 54
          ∨ c = 55 ∨ c = 56 ∨ c = 57) as Hcases by lia.
  repeat (destruct Hcases as [->|Hcases]; [done|]). by subst.
Qed.

Lemma readsBack_null : readsBack VNull.
Proof. intros [|fuel] rest Hfuel _; [simpl in Hfuel; lia|done]. Qed.

Lemma readsBack_bool (b : bool) : readsBack (VBool b).
Proof.
  intros [|fuel] rest Hfuel _; [simpl in Hfuel; lia|]. by destruct b.
Qed.

Lemma readsBack_num (z : Z) : readsBack (VNum z).
Proof.
  intros [|fuel] rest Hfuel Hrest; [simpl in Hfuel; lia|].
  cbn [stringify]. destruct (showZ_head z) as (c & s & E & Hc).
  rewrite <- (parseNumber_showZ z rest Hrest). rewrite E.
  by apply parseValue_numeral.
Qed.

Lemma readsBack_str (s : jstring) : readsBack (VStr s).
Proof.
  intros [|fuel] rest Hfuel _; [simpl in Hfuel; lia|].
  cbn [stringify]. unfold quote. rewrite <- app_comm_cons, <- app_assoc.
  cbn [parseValue skipWs isJSONSpace N.eqb Pos.eqb orb app].
  by rewrite parseChars_quoteUnits.
Qed.

(** The first code unit of the text of a value. *)
Lemma stringify_head (v : jsval) :
  jsonData v →
  ∃ c s, stringify v = c :: s ∧ isJSONSpace c = false ∧ c ≠ 93 ∧ c ≠ 125.
Proof.
  destruct 1 as [|[]|z|s|a _|o _]; try (by eexists _, _).
  destruct (showZ_head z) as (c & s & E & Hc). exists c, s.
  split; [done|]. destruct Hc as [->|Hc%isDigit_range]; [done|].
  unfold isJSONSpace. repeat split; try lia.
  rewrite !orb_false_iff, !N.eqb_neq. lia.
Qed.

Lemma joinWith_cons (sep : N) (x : jstring) (l : list jstring) :
  l ≠ [] → joinWith sep (x :: l) = x ++ sep :: joinWith sep l.
Proof. by destruct l. Qed.

Lemma parseElements_S (fuel : nat) (s : jstring) :
  parseElements (S fuel) s
  = match parseValue fuel s with
    | Some (v, r) =>
        match skipWs r with
        | c :: r' =>
            if c =? 44 then
              match parseElements fuel r' with
              | Some (vs, r'') => Some (v :: vs, r'')
              | None => None
              end
            else if c =? 93 then Some ([v], r')
            else None
        | [] => None
        end
    | None => None
    end.
Proof.
  cbn [parseElements]. destruct (parseValue fuel s) as [[v r]|]; [|done].
  cbn [mbind option_bind]. destruct (skipWs r) as [|c r']; [done|].
  destruct (c =? 44); [|done]. by destruct (parseElements fuel r') as [[]|].
Qed.

Lemma parseElements_stringify (a : list jsval) :
  a ≠ [] → Forall readsBack a →
  ∀ fuel rest, (fuelOfList a ≤ fuel)%nat →
    parseElements fuel (joinWith 44 (stringify <$> a) ++ 93 :: rest)
    = Some (a, rest).
Proof.
  intros Hne Ha. induction Ha as [|x a Hx Ha IH]; [done|]. clear Hne.
  intros fuel rest Hfuel. rewrite fuelOfList_cons in Hfuel.
  destruct fuel as [|fuel]; [lia|].
  rewrite parseElements_S, fmap_cons.
  destruct a as [|y a].
  - cbn [fmap list_fmap joinWith].
    rewrite (Hx fuel (93 :: rest)) by (done || lia). done.
  - rewrite joinWith_cons by done.
    rewrite <- app_assoc, <- app_comm_cons.
    rewrite (Hx fuel) by (done || lia).
    cbn [skipWs isJSONSpace N.eqb Pos.eqb orb].
    rewrite (IH ltac:(done) fuel rest) by lia. done.
Qed.

Lemma parseMembers_member (fuel : nat) (acc : gmap jstring jsval)
    (k : jstring) (x : jsval) (c : N) (r : jstring) :
  readsBack x → (fuelOf x ≤ fuel)%nat → c = 44 ∨ c = 125 →
  parseMembers (S fuel) acc (member (k, x) ++ c :: r)
  = if c =? 44 then parseMembers fuel (<[k := x]> acc) r
    else Some (<[k := x]> acc, r).
Proof.
  intros Hx Hfuel Hc. unfold member, quote. cbn [fst snd].
  rewrite <- !app_assoc, <- !app_comm_cons, <- app_assoc.
  cbn [parseMembers skipWs isJSONSpace N.eqb Pos.eqb orb].
  rewrite <- app_comm_cons, parseChars_quoteUnits.
  cbn [mbind option_bind skipWs isJSONSpace N.eqb Pos.eqb orb app].
  rewrite (Hx fuel (c :: r)) by (done || by destruct Hc as [-> | ->]).
  cbn [mbind option_bind].
  by destruct Hc as [-> | ->].
Qed.

Lemma parseMembers_stringify (l : list (jstring * jsval)) :
  l ≠ [] → Forall (λ kx, readsBack kx.2) l →
  ∀ fuel acc rest, (fuelOfList l.*2 ≤ fuel)%nat →
    parseMembers fuel acc (joinWith 44 (member <$> l) ++ 125 :: rest)
    = Some (foldl (λ m kx, <[kx.1 := kx.2]> m) acc l, rest).
Proof.
  intros Hne Hl. induction Hl as [|[k x] l Hx Hl IH]; [done|]. clear Hne.
  intros fuel acc rest Hfuel. rewrite fmap_cons, fuelOfList_cons in Hfuel.
  cbn [snd] in Hfuel. destruct fuel as [|fuel]; [lia|].
  simpl in Hx. rewrite fmap_cons.
  destruct l as [|ky l].
  - cbn [fmap list_fmap joinWith foldl].
    rewrite parseMembers_member; [done|done|lia|by right].
  - rewrite joinWith_cons by done. rewrite <- app_assoc, <- app_comm_cons.
    rewrite parseMembers_member; [|done|lia|by left].
    cbn [N.eqb Pos.eqb]. rewrite (IH ltac:(done)) by lia. done.
Qed.

(** Inserting the entries of a map one after the other gives the map. *)
Lemma foldl_insert_map_to_list (o : gmap jstring jsval) :
  foldl (λ m kx, <[kx.1 := kx.2]> m) ∅ (map_to_list o) = o.
Proof.
  assert (∀ (l : list (jstring * jsval)) (acc : gmap jstring jsval),
            NoDup l.*1 →
            foldl (λ m kx, <[kx.1 := kx.2]> m) acc l
            = (list_to_map l : gmap jstring jsval) ∪ acc) as Hfold.
  { induction l as [|[k x] l IH]; intros acc Hnd.
    - simpl. by rewrite (left_id_L ∅ (∪)).
    - simpl in *. apply NoDup_cons in Hnd as [Hk Hnd].
      rewrite IH by done. rewrite <- insert_union_l.
      symmetry. apply insert_union_r. by apply not_elem_of_list_to_map_1. }
  rewrite Hfold by apply NoDup_fst_map_to_list.
  by rewrite list_to_map_to_list, (right_id_L ∅ (∪)).
Qed.

Lemma fuelOf_pos (v : jsval) : (1 ≤ fuelOf v)%nat.
Proof. destruct v; simpl; lia. Qed.

(** Induction on the fuelOf of a value. *)
Lemma jsonData_fuel_ind (P : jsval → Prop) :
  P VNull → (∀ b, P (VBool b)) → (∀ n, P (VNum n)) → (∀ s, P (VStr s)) →
  (∀ a, Forall jsonData a → Forall P a → P (VArr a)) →
  (∀ o, map_Forall (λ _, jsonData) o →
        Forall (λ kx, P kx.2) (map_to_list o) → P (VObj o)) →
  ∀ v, jsonData v → P v.
Proof.
  intros Hnull Hbool Hnum Hstr Harr Hobj v.
  remember (fuelOf v) as n eqn:Hn.
  assert (fuelOf v ≤ n)%nat as Hle by lia. clear Hn.
  revert v Hle. induction n as [|n IH]; intros v Hle Hv.
  { pose proof (fuelOf_pos v). lia. }
  destruct Hv as [|b|z|s|a Ha|o Ho]; auto.
  - apply Harr; [done|]. apply Forall_forall. intros x Hx.
    apply IH; [|by eapply Forall_forall in Ha].
    rewrite fuelOf_arr in Hle. pose proof (fuelOfList_elem a x Hx). lia.
  - apply Hobj; [done|]. apply Forall_forall. intros [k x] Hkx.
    apply IH; [|apply elem_of_map_to_list in Hkx; by apply (Ho k x)].
    rewrite fuelOf_obj in Hle.
    assert (x ∈ (map_to_list o).*2) as Hx
      by (apply list_elem_of_fmap; by exists (k, x)).
    pose proof (fuelOfList_elem _ x Hx). simpl. lia.
Qed.

Lemma parseValue_arr (fuel : nat) (s : jstring) :
  parseValue (S fuel) (91 :: s)
  = match skipWs s with
    | d :: r' =>
        if d =? 93 then Some (VArr [], r')
        else match parseElements fuel (d :: r') with
             | Some (a, r'') => Some (VArr a, r'')
             | None => None
             end
    | [] => None
    end.
Proof.
  cbn [parseValue skipWs isJSONSpace N.eqb Pos.eqb orb].
  destruct (skipWs s) as [|d r']; [done|]. destruct (d =? 93); [done|].
  by destruct (parseElements fuel (d :: r')) as [[]|].
Qed.

Lemma parseValue_obj (fuel : nat) (s : jstring) :
  parseValue (S fuel) (123 :: s)
  = match skipWs s with
    | d :: r' =>
        if d =? 125 then Some (VObj ∅, r')
        else match parseMembers fuel ∅ (d :: r') with
             | Some (o, r'') => Some (VObj o, r'')
             | None => None
             end
    | [] => None
    end.
Proof.
  cbn [parseValue skipWs isJSONSpace N.eqb Pos.eqb orb].
  destruct (skipWs s) as [|d r']; [done|]. destruct (d =? 125); [done|].
  by destruct (parseMembers fuel ∅ (d :: r')) as [[]|].
Qed.

(** Every value without [undefined] is read back from its text. *)
Lemma readsBack_jsonData (v : jsval) : jsonData v → readsBack v.
Proof.
  apply jsonData_fuel_ind;
    auto using readsBack_null, readsBack_bool, readsBack_num, readsBack_str.
  - intros a Hdata Ha fuel rest Hfuel _.
    rewrite fuelOf_arr in Hfuel. destruct fuel as [|fuel]; [lia|].
    rewrite stringify_arr by done.
    rewrite <- app_comm_cons, <- app_assoc, parseValue_arr.
    destruct a as [|x a]; [done|].
    assert (∃ c s, joinWith 44 (stringify <$> x :: a) ++ [93] ++ rest = c :: s
                   ∧ isJSONSpace c = false ∧ c ≠ 93) as (c & s & E & Hc & Hne).
    { apply Forall_cons in Hdata as [Hx _].
      destruct (stringify_head x Hx) as (c & s & E & Hc & Hne & _).
      exists c. rewrite fmap_cons.
      destruct a; cbn [fmap list_fmap joinWith]; rewrite E; eauto. }
    rewrite E. cbn [skipWs]. rewrite Hc. apply N.eqb_neq in Hne. rewrite Hne.
    rewrite <- E. cbn [app].
    rewrite (parseElements_stringify (x :: a)) by (done || lia). done.
  - intros o Hdata Ho fuel rest Hfuel _.
    rewrite fuelOf_obj in Hfuel. destruct fuel as [|fuel]; [lia|].
    rewrite stringify_obj by done.
    rewrite <- app_comm_cons, <- app_assoc, parseValue_obj.
    destruct (map_to_list o) as [|[k x] l] eqn:El.
    { apply map_to_list_empty_iff in El as ->. done. }
    assert (∃ s, joinWith 44 (member <$> (k, x) :: l) ++ [125] ++ rest
                 = 34 :: s) as (s & E).
    { rewrite fmap_cons. unfold member at 1, quote. cbn [fst snd].
      destruct l; cbn [fmap list_fmap joinWith];
        rewrite <- ?app_assoc, <- !app_comm_cons; eauto. }
    rewrite E. cbn [skipWs isJSONSpace N.eqb Pos.eqb orb].
    rewrite <- E. cbn [app].
    rewrite (parseMembers_stringify ((k, x) :: l)) by (done || lia).
    rewrite <- El, foldl_insert_map_to_list. done.
Qed.

(** The fuel of [parse] is enough: a value is no larger than its text. *)
Lemma fuelOfList_le_length {A} (sz : A → nat) (tx : A → jstring) (l : list A) :
  Forall (λ x, sz x ≤ length (tx x))%nat l →
  (foldr (λ x n, S (sz x + n)) 0 l ≤ S (length (joinWith 44 (tx <$> l))))%nat.
Proof.
  induction 1 as [|x l Hx Hl IH]; [simpl; lia|].
  rewrite fmap_cons. destruct l as [|y l].
  - simpl. lia.
  - rewrite joinWith_cons by done.
    cbn [foldr] in *. rewrite length_app. cbn [length]. lia.
Qed.

Lemma fuelOf_le_length (v : jsval) :
  jsonData v → (fuelOf v ≤ length (stringify v))%nat.
Proof.
  revert v.
  apply (jsonData_fuel_ind (λ v, fuelOf v ≤ length (stringify v))%nat);
    try done.
  - vm_compute. lia.
  - intros []; vm_compute; lia.
  - intros z. cbn [stringify fuelOf].
    destruct (showZ_head z) as (c & s & -> & _). simpl. lia.
  - intros s. cbn [stringify fuelOf]. unfold quote. simpl. lia.
  - intros a Hdata Ha. rewrite fuelOf_arr, stringify_arr by done.
    pose proof (fuelOfList_le_length fuelOf stringify a Ha) as Hle.
    fold (fuelOfList a) in Hle. cbn [length]. rewrite length_app. simpl. lia.
  - intros o Hdata Ho. rewrite fuelOf_obj, stringify_obj by done.
    assert (Forall (λ kx, fuelOf kx.2 ≤ length (member kx))%nat (map_to_list o))
      as Hl.
    { eapply Forall_impl; [exact Ho|]. intros [k x] Hx. unfold member.
      rewrite length_app. simpl in *. lia. }
    pose proof (fuelOfList_le_length (λ kx, fuelOf kx.2) member _ Hl) as Hle.
    rewrite fuelOfList_snd. cbn [length]. rewrite length_app. simpl. lia.
Qed.

(** [parse] readsBack back what [stringify] writes of a value without
    [undefined]. *)
Theorem parse_stringify (v : jsval) :
  jsonData v → parse (stringify v) = Some v.
Proof.
  intros Hv. unfold parse.
  pose proof (fuelOf_le_length v Hv) as Hsize.
  pose proof (readsBack_jsonData v Hv (2 * length (stringify v) + 2)%nat []
                ltac:(lia) I) as Hread.
  rewrite app_nil_r in Hread. by rewrite Hread.
Qed.

Lemma stringify_obj_nonempty (o : gmap jstring jsval) :
  stringify (VObj o) ≠ [].
Proof. done. Qed.

End ModelHostFacts.

(** ** On the model host *)

Module OnModelHost.
Import ModelHost.

Local Open Scope N_scope.

Lemma upperUnit_idemp (c : N) : upperUnit (upperUnit c) = upperUnit c.
Proof.
  unfold upperUnit.
  destruct ((97 <=? c) && (c <=? 122)) eqn:E; [|by rewrite E].
  apply andb_true_iff in E as [E1%N.leb_le E2%N.leb_le].
  replace (97 <=? c - 32) with false by (symmetry; apply N.leb_gt; lia).
  done.
Qed.

Lemma asciiUpper_idemp (s : jstring) : asciiUpper (asciiUpper s) = asciiUpper s.
Proof.
  unfold asciiUpper. induction s as [|c s IH]; [done|].
  simpl. by rewrite upperUnit_idemp, IH.
Qed.

Local Close Scope N_scope.

(** The JSON functions of the model host are faithful. *)
Lemma modelHost_faithful : faithfulJSON (H := modelHost).
Proof.
  split.
  - apply ModelHostFacts.parse_stringify.
  - apply ModelHostFacts.stringify_obj_nonempty.
Qed.

Lemma methodLength_short (table : list (string * Z)) (name : jstring) :
  Forall (λ p, length (js p.1) ≠ length name) table →
  methodLength table name = None.
Proof.
  induction 1 as [|[n len] table Hn _ IH]; [done|].
  simpl. rewrite decide_False; [done|]. intros ->. by apply Hn.
Qed.

(** On the model host a name of two code units is inherited by no
    object. *)
Lemma modelHost_shortNames : shortNamesAreOwn (H := modelHost).
Proof.
  intros o name Hlen. change (chainOf (VObj o) name = None).
  unfold chainOf.
  rewrite decide_False
    by (intros ->; vm_compute in Hlen; discriminate Hlen).
  apply methodLength_short. rewrite Hlen.
  unfold objectMethods. repeat constructor; by vm_compute.
Qed.

(** The scenarios of the specification. *)

Example scenario_1 :
  parseTSV (H := modelHost)
    (js "note1" ++ TAB :: js "AB" ++ TAB :: js "valueX" ++ [LF])
  = Normal {[ js "AB" := [(js "note1", js "valueX")] ]}.
Proof. by vm_compute. Qed.

Example scenario_2 :
  parseTSV (H := modelHost) (js "AB" ++ TAB :: js "valueY" ++ [LF])
  = Normal {[ js "AB" := [([], js "valueY")] ]}.
Proof. by vm_compute. Qed.

Example scenario_3 :
  parseTSV (H := modelHost) (TAB :: js "AB" ++ TAB :: js "valueZ" ++ [LF])
  = Normal {[ js "AB" := [([], js "valueZ")] ]}.
Proof. by vm_compute. Qed.

Example scenario_4 :
  parseTSV (H := modelHost) (js "x" ++ TAB :: js "A" ++ TAB :: js "value" ++ [LF])
  = Normal ∅.
Proof. by vm_compute. Qed.

(** A carriage return between the two letters of a key: [parseTSV] strips
    it and stores the line under "AB"; the algorithm that strips a trailing
    carriage return only keeps a key of three code units and discards the
    line. *)
Lemma interior_CR_is_stripped :
  let line := js "A" ++ CR :: js "B" ++ TAB :: js "v" in
  parseTSV (H := modelHost) line
  = Normal {[ js "AB" := [([], js "v")] ]}
  ∧ AsSpecified.stripTrailingCR line = line
  ∧ AsSpecified.parse (H := modelHost) AsSpecified.stripTrailingCR line = ∅
  ∧ parseTSV (H := modelHost) line
    ≠ Normal (AsSpecified.parse (H := modelHost)
                AsSpecified.stripTrailingCR line).
Proof.
  split; [by vm_compute|]. split; [by vm_compute|]. split; [by vm_compute|].
  intros E. vm_compute in E. discriminate E.
Qed.

Lemma parseTSV_strips_every_CR_witness :
  parseTSV (H := modelHost) (js "A" ++ CR :: js "B" ++ TAB :: js "v")
  = parseTSV (H := modelHost) (js "A" ++ js "B" ++ TAB :: js "v")
  ∧ CR ∉ js "AB".
Proof.
  split.
  - apply (proj1 (proj2 (parseTSV_strips_every_CR (H := modelHost)))
             (js "A") (js "B" ++ TAB :: js "v")).
  - apply (proj1 (proj2 (proj2 (parseTSV_strips_every_CR (H := modelHost))))
             (js "A" ++ CR :: js "B" ++ TAB :: js "v") (js "AB")).
    vm_compute. left.
Defined.

Lemma parseTSV_index_invariant_witness :
  ∃ idx,
    parseTSV (H := modelHost)
      (js "note1" ++ TAB :: js "ab" ++ TAB :: js "valueX" ++ [LF]) = Normal idx
    ∧ ∀ key es, idx !! key = Some es →
        length key = 2 ∧ asciiUpper key = key ∧
        ∀ e, e ∈ es →
          ∃ note value, entryVal e = VArr [VStr note; VStr value] ∧ value ≠ [].
Proof.
  apply (parseTSV_index_invariant (H := modelHost)
           (js "note1" ++ TAB :: js "ab" ++ TAB :: js "valueX" ++ [LF])).
  exact asciiUpper_idemp.
Defined.

Lemma accepted_line_is_stored_witness :
  ∃ idx es,
    parseTSV (H := modelHost)
      (js "x" ++ TAB :: js "A" ++ LF :: js "note1" ++ TAB :: js "ab" ++ TAB
       :: js "valueX" ++ [CR; LF]) = Normal idx
    ∧ idx !! js "AB" = Some es
    ∧ (js "note1", js "valueX") ∈ es.
Proof.
  refine (proj2 (proj1
    (accepted_line_is_stored (H := modelHost)
       (js "x" ++ TAB :: js "A" ++ LF :: js "note1" ++ TAB :: js "ab" ++ TAB
        :: js "valueX" ++ [CR; LF])
       (js "note1" ++ TAB :: js "ab" ++ TAB :: js "valueX" ++ [CR]) _ _)
    (js "note1") (js "ab") (js "valueX") [] _ _ _)).
  - vm_compute. right. left.
  - by vm_compute.
  - by vm_compute.
  - by vm_compute.
  - by vm_compute.
Defined.

Lemma rejected_line_is_discarded_witness :
  loopBody (H := modelHost) {[ js "AB" := [([], js "valueY")] ]}
    (js "x" ++ TAB :: js "A" ++ TAB :: js "value")
  = Normal {[ js "AB" := [([], js "valueY")] ]}.
Proof.
  refine (proj1 (rejected_line_is_discarded (H := modelHost)
                   (js "x" ++ TAB :: js "A" ++ TAB :: js "value") _)
            {[ js "AB" := [([], js "valueY")] ]}).
  right. left. vm_compute. lia.
Defined.

Lemma parseTSV_deterministic_witness :
  ∃ idx,
    parseTSV (H := modelHost) (js "AB" ++ TAB :: js "valueY" ++ [LF])
    = Normal idx
    ∧ ∀ idx',
        parseTSV (H := modelHost) (js "AB" ++ TAB :: js "valueY" ++ [LF])
        = Normal idx' →
        dom idx' = dom idx ∧ ∀ key, idx' !! key = idx !! key.
Proof.
  apply (parseTSV_deterministic (H := modelHost)).
Defined.

(** The page after a refresh that went well: the corner sheet has one
    line, the edge sheet none. *)
Definition refreshed : App :=
  (fetchData (H := modelHost)
     (Some {| ok := true;
              body := Some (js "note1" ++ TAB :: js "AB" ++ TAB :: js "valueX"
                            ++ LF :: js "later" ++ TAB :: js "AB" ++ TAB
                            :: js "valueW") |})
     (Some {| ok := true; body := Some [] |})
     (initialApp ∅)).2.

Example refreshed_status :
  statusText refreshed = js "Updated" ++ bullet ++ js "Last: 1700000000001".
Proof. by vm_compute. Qed.

Lemma lookup_first_entry_witness :
  lookup (H := modelHost) (js "AB") refreshed
  = (Normal tt,
     set_resultCards
       [{| cardKey := js "AB";
           cardNote := Some (js "note1");
           cardValue2 := js "valueX" |}]
       (set_statusText (js "Found") (set_resultCards [] refreshed)))
  ∧ lookup (H := modelHost) (js "CD") refreshed
    = (Normal tt,
       set_statusText (js "No results") (set_resultCards [] refreshed)).
Proof.
  split.
  - rewrite (lookup_first_entry (H := modelHost) (js "AB")
               {[ js "AB" := [(js "note1", js "valueX");
                              (js "later", js "valueW")] ]} refreshed).
    + by vm_compute.
    + by vm_compute.
    + intros _. by apply modelHost_shortNames.
  - rewrite (lookup_first_entry (H := modelHost) (js "CD")
               {[ js "AB" := [(js "note1", js "valueX");
                              (js "later", js "valueW")] ]} refreshed).
    + by vm_compute.
    + by vm_compute.
    + intros _. by apply modelHost_shortNames.
Defined.

(** A name of [Object.prototype] is no key: under "toString" the lookup
    finds a method without parameters and ends with "No results"; under
    "constructor" it finds a function with one, and is refused. *)
Example lookup_of_inherited_name :
  lookup (H := modelHost) (js "toString") (initialApp ∅)
  = (Normal tt,
     set_statusText (js "No results") (set_resultCards [] (initialApp ∅)))
  ∧ lookup (H := modelHost) (js "constructor") (initialApp ∅)
    = (Throw TypeError, set_resultCards [] (initialApp ∅)).
Proof. split; by vm_compute. Qed.

(** A value whose text is refused: the status is "Found" already when the
    TypeError comes, and no card is shown. *)
Example lookup_of_unprintable_value :
  let data :=
    VObj {[ js "AB" :=
              VArr [VArr [VStr (js "n");
                          VObj {[ js "toString" := VNum 1 ]}]] ]} in
  lookup (H := modelHost) (js "AB") (set_dataCorner data (initialApp ∅))
  = (Throw TypeError,
     set_statusText (js "Found")
       (set_resultCards [] (set_dataCorner data (initialApp ∅)))).
Proof. by vm_compute. Qed.

Lemma fetchData_no_data_witness :
  ∃ st',
    fetchData (H := modelHost) None (Some {| ok := false; body := None |})
      (initialApp ∅) = (Normal tt, st')
    ∧ statusText st' = js "No data available"
    ∧ dataCorner st' = VObj ∅
    ∧ dataEdge st' = VObj ∅
    ∧ active st' = corner
    ∧ localStorage st' = ∅
    ∧ refreshDisabled st' = false
    ∧ requests st' = [URLS corner; URLS edge].
Proof.
  apply (fetchData_no_data (H := modelHost) None
           (Some {| ok := false; body := None |}) (initialApp ∅)).
  - left. exact I.
  - by vm_compute.
Defined.

(** The page opened again after that refresh: the storage is what the
    refresh left. *)
Definition reopened : App := initialApp (localStorage refreshed).

Lemma init_adopts_snapshot_witness :
  ∃ st',
    init (H := modelHost) None None reopened = (Normal tt, st')
    ∧ dataCorner st'
      = indexVal {[ js "AB" := [(js "note1", js "valueX");
                                (js "later", js "valueW")] ]}
    ∧ dataEdge st' = indexVal ∅
    ∧ requests st' = [].
Proof.
  destruct (proj1 (init_adopts_snapshot (H := modelHost) None None reopened
                     ltac:(by vm_compute)))
    as (c & e & t & r & st' & Hc & He & Ht & Hinit & Hdc & Hde & Hreq & Hls
        & Hend).
  assert (Normal t = Normal (VStr (js "1700000000001"))) as [= ->]
    by (rewrite <- Ht; by vm_compute).
  destruct Hend as [-> _].
  exists st'. split; [exact Hinit|].
  rewrite Hdc, Hde, Hreq.
  split; [|split; [|done]].
  - assert (Normal c = Normal (indexVal {[ js "AB" :=
              [(js "note1", js "valueX"); (js "later", js "valueW")] ]}))
      as [= ->]; [|done].
    rewrite <- Hc. by vm_compute.
  - assert (Normal e = Normal (indexVal ∅)) as [= ->]; [|done].
    rewrite <- He. by vm_compute.
Defined.

Lemma saveCache_loadCache_roundtrip_witness :
  ∃ st',
    saveCache (H := modelHost)
      (indexVal {[ js "AB" := [(js "note1", js "valueX")] ]})
      (indexVal {[ js "CD" := [([], js "valueY")] ]})
      (initialApp ∅) = (Normal tt, st')
    ∧ getProp (loadCache (H := modelHost) st') (js "corner")
      = Normal (indexVal {[ js "AB" := [(js "note1", js "valueX")] ]})
    ∧ getProp (loadCache (H := modelHost) st') (js "edge")
      = Normal (indexVal {[ js "CD" := [([], js "valueY")] ]}).
Proof.
  destruct (saveCache_loadCache_roundtrip (H := modelHost)
              {[ js "AB" := [(js "note1", js "valueX")] ]}
              {[ js "CD" := [([], js "valueY")] ]}
              (initialApp ∅)
              ModelHostFacts.parse_stringify
              ModelHostFacts.stringify_obj_nonempty)
    as (st' & Hsave & Hc & He & Hinj).
  exists st'. split; [exact Hsave|]. split; [exact Hc|exact He].
Defined.

(** On the model host every pair of Indices comes back from the store. *)
Lemma roundtrip_of_every_pair (A B : Index) (st : App) :
  ∃ st', saveCache (H := modelHost) (indexVal A) (indexVal B) st
         = (Normal tt, st')
    ∧ getProp (loadCache (H := modelHost) st') (js "corner")
      = Normal (indexVal A)
    ∧ getProp (loadCache (H := modelHost) st') (js "edge")
      = Normal (indexVal B).
Proof.
  destruct (load_after_save (H := modelHost) (indexVal A) (indexVal B) st)
    as (st' & Hsave & _ & Hc & He).
  - apply ModelHostFacts.parse_stringify, jsonData_payload;
      apply jsonData_indexVal.
  - apply ModelHostFacts.stringify_obj_nonempty.
  - by exists st'.
Qed.

(** A payload that is the JSON text of [null] is there and is valid JSON,
    and [loadCache] gives [null]; on a payload that is the JSON text of [0]
    [loadCache] gives the number, and [init] adopts nothing of it and
    fetches. *)
Lemma loadCache_absent_on_valid_JSON :
  let st := initialApp {[ CACHE_KEY := js "null" ]} in
  let st0 := initialApp {[ CACHE_KEY := js "0" ]} in
  (localStorage st !! CACHE_KEY = Some (js "null")
   ∧ JSON_parse (Host := modelHost) (js "null") = Some VNull
   ∧ loadCache (H := modelHost) st = VNull)
  ∧ ¬ (loadCache (H := modelHost) st = VNull →
       localStorage st !! CACHE_KEY = None
       ∨ ∃ raw, localStorage st !! CACHE_KEY = Some raw
                ∧ JSON_parse (Host := modelHost) raw = None)
  ∧ (JSON_parse (Host := modelHost) (js "0") = Some (VNum 0)
     ∧ loadCache (H := modelHost) st0 = VNum 0
     ∧ dataCorner (init (H := modelHost) None None st0).2 = VObj ∅
     ∧ requests (init (H := modelHost) None None st0).2
       = [URLS corner; URLS edge]).
Proof.
  split; [by vm_compute|]. split; [|by vm_compute].
  intros Himp. destruct Himp as [Hnone|(raw & Hraw & Hparse)].
  - by vm_compute.
  - vm_compute in Hnone. discriminate Hnone.
  - vm_compute in Hraw. injection Hraw as <-.
    vm_compute in Hparse. discriminate Hparse.
Qed.

Lemma loadCache_unvalidated_witness :
  loadCache (H := modelHost) (initialApp {[ CACHE_KEY := js "5" ]}) = VNum 5
  ∧ ∃ st',
      init (H := modelHost) None None (initialApp {[ CACHE_KEY := js "5" ]})
      = (Normal tt, st')
      ∧ dataCorner st' = VUndef ∧ dataEdge st' = VUndef.
Proof.
  pose proof (loadCache_unvalidated (H := modelHost)
                (initialApp {[ CACHE_KEY := js "5" ]}))
    as (_ & Hret & Hadopt & _).
  split.
  - apply (Hret (js "5") (VNum 5)); by vm_compute.
  - destruct (Hadopt None None ltac:(by vm_compute))
      as (c & e & t & r & st' & Hc & He & Ht & Hobj & Hnum & Hinit & Hdc
          & Hde & Hend).
    destruct (Hnum 5%Z ltac:(by vm_compute)) as (-> & -> & ->).
    simpl in Hend. subst r.
    exists st'. split; [exact Hinit|]. by split.
Defined.

(** A snapshot whose time text is an object with a [toString] of its own:
    [init] adopts the fields, and the conversion of the time text for the
    status is refused. *)
Example init_on_unprintable_time_text :
  let raw := ModelHost.stringify
               (VObj {[ js "timeText" := VObj {[ js "toString" := VNum 1 ]};
                        js "corner" := indexVal ∅ ]}) in
  let st := initialApp {[ CACHE_KEY := raw ]} in
  (init (H := modelHost) None None st).1 = Throw TypeError
  ∧ dataCorner (init (H := modelHost) None None st).2 = indexVal ∅
  ∧ dataEdge (init (H := modelHost) None None st).2 = VUndef
  ∧ statusText (init (H := modelHost) None None st).2 = []
  ∧ requests (init (H := modelHost) None None st).2 = []
  ∧ (fetchData (H := modelHost) None None st).1 = Throw TypeError
  ∧ refreshDisabled (fetchData (H := modelHost) None None st).2 = false.
Proof. by vm_compute. Qed.

(** *** Instances of the further properties *)

Lemma fetchData_updated_witness :
  ∃ st',
    fetchData (H := modelHost)
      (answered (js "note1" ++ TAB :: js "AB" ++ TAB :: js "valueX"))
      (answered (js "CD" ++ TAB :: js "valueY"))
      (initialApp ∅) = (Normal tt, st')
    ∧ statusText st'
      = js "Updated" ++ bullet ++ js "Last: "
        ++ toLocaleString (Host := modelHost)
             (wallClock (Host := modelHost) 1)
    ∧ getProp (loadCache (H := modelHost) st') (js "timeText")
      = Normal (VStr (toLocaleString (Host := modelHost)
                        (wallClock (Host := modelHost) 1)))
    ∧ refreshDisabled st' = false.
Proof.
  destruct (fetchData_updated (H := modelHost)
              (js "note1" ++ TAB :: js "AB" ++ TAB :: js "valueX")
              (js "CD" ++ TAB :: js "valueY")
              (initialApp ∅) modelHost_faithful)
    as (A & B & st' & HA & HB & Hrun & Hdc & Hde & Hload & Hst & Htt & Hclock
        & Hdis & Hreq & Hact).
  exists st'. split; [exact Hrun|]. split; [exact Hst|].
  split; [exact Htt|exact Hdis].
Defined.

Lemma fetchData_falls_back_witness :
  ∃ st',
    fetchData (H := modelHost)
      (Some {| ok := true; body := None |}) (answered [])
      reopened = (Normal tt, st')
    ∧ localStorage st' = localStorage reopened
    ∧ refreshDisabled st' = false
    ∧ requests st' = [URLS corner; URLS edge]
    ∧ getProp (loadCache (H := modelHost) reopened) (js "corner")
      = Normal (dataCorner st')
    ∧ statusText st'
      = (js "Offline " ++ [8212%N] ++ js " using cache")
        ++ bullet ++ js "Last: 1700000000001".
Proof.
  edestruct (fetchData_falls_back (H := modelHost)
               (Some {| ok := true; body := None |}) (answered []) reopened)
    as (r & st' & Hrun & Hls & Hclock & Hdis & Hreq & Hact & Hdata).
  - simpl. tauto.
  - replace (toBoolean (loadCache (H := modelHost) reopened)) with true
      in Hdata by (by vm_compute).
    destruct Hdata as (Hc & He & t & Ht & Hend).
    assert (Normal t = Normal (VStr (js "1700000000001"))) as [= ->]
      by (rewrite <- Ht; by vm_compute).
    destruct Hend as [-> Hstatus].
    exists st'. split; [exact Hrun|]. split; [exact Hls|].
    split; [exact Hdis|]. split; [exact Hreq|]. split; [exact Hc|].
    exact Hstatus.
Defined.

Lemma refresh_then_reopen_witness :
  let st1 :=
    (init (H := modelHost)
       (answered (js "note1" ++ TAB :: js "AB" ++ TAB :: js "valueX"))
       (answered (js "CD" ++ TAB :: js "valueY"))
       (initialApp ∅)).2 in
  let st2 := started (H := modelHost) (localStorage st1) None None in
  ∃ A B : Index,
    dataCorner st1 = indexVal A
    ∧ dataEdge st1 = indexVal B
    ∧ dataCorner st2 = indexVal A
    ∧ dataEdge st2 = indexVal B
    ∧ requests st2 = [].
Proof.
  intros st1 st2.
  edestruct (refresh_then_reopen (H := modelHost)
               (js "note1" ++ TAB :: js "AB" ++ TAB :: js "valueX")
               (js "CD" ++ TAB :: js "valueY")
               (initialApp ∅) None None modelHost_faithful)
    as (A & B & HA & HB & H1c & H1e & H1s & H2c & H2e & H2s & H2r).
  - by vm_compute.
  - exists A, B. split; [exact H1c|]. split; [exact H1e|].
    split; [exact H2c|]. split; [exact H2e|exact H2r].
Defined.

Lemma saveCache_overwrites_witness :
  ∃ st1 st2,
    saveCache (H := modelHost)
      (indexVal {[ js "AB" := [(js "note1", js "valueX")] ]}) (indexVal ∅)
      (initialApp ∅) = (Normal tt, st1)
    ∧ saveCache (H := modelHost)
        (indexVal {[ js "CD" := [([], js "valueY")] ]}) (indexVal ∅)
        st1 = (Normal tt, st2)
    ∧ getProp (loadCache (H := modelHost) st2) (js "corner")
      = Normal (indexVal {[ js "CD" := [([], js "valueY")] ]})
    ∧ clockReads st2 = 4.
Proof.
  edestruct (saveCache_overwrites (H := modelHost)
               (indexVal {[ js "AB" := [(js "note1", js "valueX")] ]})
               (indexVal ∅)
               (indexVal {[ js "CD" := [([], js "valueY")] ]})
               (indexVal ∅)
               (initialApp ∅) modelHost_faithful)
    as (st1 & st2 & H1 & H2 & Hload & Hc & He & Hls & Hother & Hclock & _).
  - apply jsonData_indexVal.
  - apply jsonData_indexVal.
  - exists st1, st2. split; [exact H1|]. split; [exact H2|].
    split; [exact Hc|exact Hclock].
Defined.

Lemma lookup_after_unvalidated_snapshot_witness :
  ∃ st',
    init (H := modelHost) None None (initialApp {[ CACHE_KEY := js "5" ]})
    = (Normal tt, st')
    ∧ dataCorner st' = VUndef
    ∧ requests st' = []
    ∧ statusText st' = js "Loaded from cache" ++ bullet ++ js "Last: undefined"
    ∧ lookup (H := modelHost) (js "AB") st'
      = (Throw TypeError, set_resultCards [] st').
Proof.
  edestruct (lookup_after_unvalidated_snapshot (H := modelHost) None None
               (js "AB") (initialApp {[ CACHE_KEY := js "5" ]}))
    as (r & st' & Hinit & Hdc & Hreq & (t & Ht & Hend) & Hlookup).
  - by vm_compute.
  - by vm_compute.
  - reflexivity.
  - assert (Normal t = Normal VUndef) as [= ->]
      by (rewrite <- Ht; by vm_compute).
    destruct Hend as [-> Hstatus].
    exists st'. split; [exact Hinit|]. split; [exact Hdc|].
    split; [exact Hreq|]. split; [exact Hstatus|exact Hlookup].
Defined.

Lemma events_without_refresh_keep_data_witness :
  let evs := [InputEvent (js "ab"); SwitchClick; KeydownEvent (js " ") false;
              InputEvent (js "zz"); KeydownEvent (js "Tab") false;
              ClearClick] in
  keepsData refreshed (handleAll (H := modelHost) evs refreshed)
  ∧ loadCache (H := modelHost) (handleAll (H := modelHost) evs refreshed)
    = loadCache (H := modelHost) refreshed.
Proof.
  intros evs.
  apply (events_without_refresh_keep_data (H := modelHost) evs refreshed).
  intros cornerOut edgeOut Hin. unfold evs in Hin.
  repeat (apply elem_of_cons in Hin as [Hin|Hin]; [discriminate Hin|]).
  by apply elem_of_nil in Hin.
Defined.

Lemma page_stays_sound_witness :
  sound (H := modelHost)
    (handleAll (H := modelHost)
       [InputEvent (js "ab"); RefreshClick None None; SwitchClick;
        RefreshClick (answered (js "CD" ++ TAB :: js "valueY")) (answered [])]
       (started (H := modelHost) ∅
          (answered (js "note1" ++ TAB :: js "AB" ++ TAB :: js "valueX"))
          (answered []))).
Proof.
  refine (proj1 (page_stays_sound (H := modelHost) ∅
           (answered (js "note1" ++ TAB :: js "AB" ++ TAB :: js "valueX"))
           (answered [])
           [InputEvent (js "ab"); RefreshClick None None; SwitchClick;
            RefreshClick (answered (js "CD" ++ TAB :: js "valueY"))
              (answered [])]
           modelHost_faithful _)).
  by left.
Defined.

Lemma lookup_never_throws_on_page_witness :
  let st :=
    handleAll (H := modelHost)
      [SwitchClick; RefreshClick None (answered []); SwitchClick]
      (started (H := modelHost) ∅
         (answered (js "note1" ++ TAB :: js "AB" ++ TAB :: js "valueX"))
         (answered [])) in
  (lookup (H := modelHost) (js "AB") st).1 = Normal tt
  ∧ (onInput (H := modelHost) (js "ab") st).1 = Normal tt.
Proof.
  intros st.
  edestruct (lookup_never_throws_on_page (H := modelHost) ∅
               (answered (js "note1" ++ TAB :: js "AB" ++ TAB :: js "valueX"))
               (answered [])
               [SwitchClick; RefreshClick None (answered []); SwitchClick]
               (js "AB") (js "ab") modelHost_faithful modelHost_shortNames)
    as [(st' & Hrun & _) Hinput].
  - by left.
  - reflexivity.
  - fold st in Hrun, Hinput. split; [by rewrite Hrun|exact Hinput].
Defined.

Lemma typed_key_finds_line_witness :
  ∃ st' card,
    onInput (H := modelHost) (js "abc") refreshed = (Normal tt, st')
    ∧ statusText st' = js "Found"
    ∧ resultCards st' = [card]
    ∧ cardKey card = js "AB".
Proof.
  set (text := js "note1" ++ TAB :: js "AB" ++ TAB :: js "valueX"
               ++ LF :: js "later" ++ TAB :: js "AB" ++ TAB :: js "valueW").
  set (line := js "note1" ++ TAB :: js "AB" ++ TAB :: js "valueX").
  assert (line ∈ split LF text) as Hin by (vm_compute; left).
  assert (fieldsOf (H := modelHost) line
          = Some (js "note1", js "AB", js "valueX")) as Hfields
    by (by vm_compute).
  assert (passes (H := modelHost) line = true) as Hpass by (by vm_compute).
  assert (take 2 (toUpperCase (Host := modelHost) (js "abc")) = js "AB")
    as Htyped by (by vm_compute).
  destruct (proj1 (typed_key_finds_line (H := modelHost) text line (js "abc")
                     (js "note1") (js "AB") (js "valueX") refreshed
                     Hin Hfields Hpass Htyped))
    as (idx & Hparse & Hfind).
  apply Hfind.
  assert (Normal idx
          = Normal ({[ js "AB" := [(js "note1", js "valueX");
                                   (js "later", js "valueW")] ]} : Index))
    as [= ->] by (rewrite <- Hparse; by vm_compute).
  by vm_compute.
Defined.

Lemma failed_refresh_keeps_page_data_witness :
  let st :=
    handleAll (H := modelHost) [SwitchClick; InputEvent (js "ab")]
      (started (H := modelHost) ∅
         (answered (js "note1" ++ TAB :: js "AB" ++ TAB :: js "valueX"))
         (answered [])) in
  dataCorner (fetchData (H := modelHost) None None st).2 = dataCorner st
  ∧ dataEdge (fetchData (H := modelHost) None None st).2 = dataEdge st
  ∧ localStorage (fetchData (H := modelHost) None None st).2
    = localStorage st.
Proof.
  intros st.
  refine (proj2 (failed_refresh_keeps_page_data (H := modelHost) ∅
    (answered (js "note1" ++ TAB :: js "AB" ++ TAB :: js "valueX"))
    (answered []) None None [SwitchClick; InputEvent (js "ab")]
    modelHost_faithful _)).
  exact I.
Defined.

Lemma lookup_reads_selected_data_only_witness :
  (lookup (H := modelHost) (js "AB") refreshed).1
  = (lookup (H := modelHost) (js "AB")
       (set_statusText (js "Cleared") (set_dataEdge VUndef refreshed))).1
  ∧ resultCards (lookup (H := modelHost) (js "AB") refreshed).2
    = resultCards
        (lookup (H := modelHost) (js "AB")
           (set_statusText (js "Cleared") (set_dataEdge VUndef refreshed))).2.
Proof.
  edestruct (lookup_reads_selected_data_only (H := modelHost) (js "AB")
               refreshed
               (set_statusText (js "Cleared") (set_dataEdge VUndef refreshed)))
    as (Hrun & Hcards & _).
  - reflexivity.
  - split; [exact Hrun|exact Hcards].
Defined.

Lemma lookup_on_parsed_text_witness :
  ∃ st',
    lookup (H := modelHost) (js "AB") refreshed = (Normal tt, st')
    ∧ statusText st' = js "Found"
    ∧ resultCards st'
      = [{| cardKey := js "AB";
            cardNote := Some (js "note1");
            cardValue2 := js "valueX" |}].
Proof.
  set (text := js "note1" ++ TAB :: js "AB" ++ TAB :: js "valueX"
               ++ LF :: js "later" ++ TAB :: js "AB" ++ TAB :: js "valueW").
  destruct (lookup_on_parsed_text (H := modelHost) text (js "AB") refreshed)
    as (idx & Hparse & Hpop & Hlookup).
  assert (Normal idx
          = Normal ({[ js "AB" := [(js "note1", js "valueX");
                                   (js "later", js "valueW")] ]} : Index))
    as [= ->] by (rewrite <- Hparse; by vm_compute).
  destruct Hlookup as (st' & Hrun & Hshown).
  - by vm_compute.
  - intros _. by apply modelHost_shortNames.
  - replace (omap (entryFor (H := modelHost) (js "AB")) (split LF text))
      with [(js "note1", js "valueX"); (js "later", js "valueW")]
      in Hshown by (by vm_compute).
    destruct Hshown as (_ & Hstatus & Hcards).
    exists st'. split; [exact Hrun|]. split; [exact Hstatus|exact Hcards].
Defined.

Lemma lookup_stable_under_added_lines_witness :
  let shorter :=
    set_dataCorner (indexVal {[ js "AB" := [(js "note1", js "valueX")] ]})
      (initialApp ∅) in
  (lookup (H := modelHost) (js "AB") refreshed).1 = Normal tt
  ∧ statusText (lookup (H := modelHost) (js "AB") refreshed).2 = js "Found"
  ∧ resultCards (lookup (H := modelHost) (js "AB") refreshed).2
    = resultCards (lookup (H := modelHost) (js "AB") shorter).2.
Proof.
  intros shorter.
  destruct (lookup_stable_under_added_lines (H := modelHost)
              (js "note1" ++ TAB :: js "AB" ++ TAB :: js "valueX")
              (js "later" ++ TAB :: js "AB" ++ TAB :: js "valueW")
              (js "AB") shorter refreshed)
    as (i1 & i & H1 & Hi & Hprefix & Hlookup).
  assert (Normal i1
          = Normal ({[ js "AB" := [(js "note1", js "valueX")] ]} : Index))
    as [= ->] by (rewrite <- H1; by vm_compute).
  assert (Normal i
          = Normal ({[ js "AB" := [(js "note1", js "valueX");
                                   (js "later", js "valueW")] ]} : Index))
    as [= ->] by (rewrite <- Hi; by vm_compute).
  apply Hlookup.
  - exists [(js "note1", js "valueX")]. by vm_compute.
  - reflexivity.
  - by vm_compute.
Defined.

End OnModelHost.
